(** * Multi-account email search and classification

    A shallow embedding of the email services of the repository:

    - [EmailSearchService] (classification engine and search orchestrator),
    - [EmailAccountService] (account registry over the [email_accounts] table),
    - [EmailClientFactory], [GmailClient] and [ImapClient] (provider clients),
    - the tool handlers of [email-tools-handlers.ts].

    Conventions of the embedding.

    - JavaScript numbers that carry scores are exact rationals ([Q]).  Every
      score is a sum of the constants of the source (0.15, 0.5, 0.2, 0.1,
      0.25, 0.3), clamped at 1; the comparisons of the source (with 0.3,
      with 1, and between ranking scores) are made on these exact sums.
    - Counts, identifiers, sizes and timestamps (milliseconds) are integers ([Z]).
    - Strings are [string]s of 8-bit characters; case mapping acts on the
      ASCII letters.
    - A call that may throw returns an [outcome]; the state a call leaves
      behind is returned explicitly.
    - What the program does not contain is an [Env]: the answers of the
      Gmail HTTP API, the readings of the system clock, and the behaviour of
      the regular-expression engine on patterns outside the fragment that is
      modelled here. *)

From Stdlib Require Import ZArith QArith Qminmax String Ascii List Bool Lia Lqa.
From Stdlib Require Import Qround Permutation Sorted.
From Stdlib Require Import Decimal DecimalString DecimalPos DecimalZ.
From stdpp Require Import gmap strings.
Import ListNotations.

Open Scope Z_scope.

(* ================================================================== *)
(** * 1. Exceptions and outcomes *)
(* ================================================================== *)

(** The exceptions that reach the code of the repository: [Error] objects it
    creates itself (with their message), the [SyntaxError] of the [RegExp]
    constructor, the [TypeError] of a property read on [null], and the errors
    of the SQLite driver (with their message). *)
Inductive exn : Type :=
| Error (message : string)
| SyntaxError
| TypeError
| SqliteError (message : string).

Inductive outcome (A : Type) : Type :=
| Ok (a : A)
| Throw (e : exn).
Arguments Ok {A} a.
Arguments Throw {A} e.

Definition exn_message (e : exn) : string :=
  match e with
  | Error m => m
  | SyntaxError => "Invalid regular expression"
  | TypeError => "Cannot read properties of null"
  | SqliteError m => m
  end.

(** The double quote character, as a string. *)
Definition dquote : string := String "034"%char EmptyString.

(* ================================================================== *)
(** * 2. Characters, case, and [String.prototype.includes] *)
(* ================================================================== *)

Definition in_range (lo hi : nat) (c : ascii) : bool :=
  (lo <=? nat_of_ascii c)%nat && (nat_of_ascii c <=? hi)%nat.

(** [toLowerCase] and [toUpperCase] on one character.

    Strings are taken as sequences of 8-bit characters, and the two case
    mappings are those of the ASCII letters: they are the mappings of
    [String.prototype.toLowerCase] and of the [i] flag on texts and keywords
    of ASCII characters.  Outside ASCII the mappings of JavaScript differ
    (they can even change the length of a string); a statement that compares
    two case forms is made for ASCII characters ([is_ascii]). *)
Definition lower_char (c : ascii) : ascii :=
  if in_range 65 90 c then ascii_of_nat (nat_of_ascii c + 32) else c.

Definition upper_char (c : ascii) : ascii :=
  if in_range 97 122 c then ascii_of_nat (nat_of_ascii c - 32) else c.

Fixpoint toLowerCase (s : string) : string :=
  match s with
  | EmptyString => EmptyString
  | String c s' => String (lower_char c) (toLowerCase s')
  end.

(** The word characters of [\b]: letters, digits and the underscore. *)
Definition is_word_char (c : ascii) : bool :=
  in_range 48 57 c || in_range 65 90 c || in_range 97 122 c
  || (nat_of_ascii c =? 95)%nat.

Definition is_word_opt (o : option ascii) : bool :=
  match o with
  | Some c => is_word_char c
  | None => false
  end.

Definition head_char (s : string) : option ascii :=
  match s with
  | EmptyString => None
  | String c _ => Some c
  end.

Fixpoint string_prefix (p s : string) : bool :=
  match p, s with
  | EmptyString, _ => true
  | String a p', String b s' => Ascii.eqb a b && string_prefix p' s'
  | String _ _, EmptyString => false
  end.

(** [s.includes(p)] *)
Fixpoint includes (s p : string) : bool :=
  string_prefix p s ||
  match s with
  | EmptyString => false
  | String _ s' => includes s' p
  end.

(* ================================================================== *)
(** * 3. The regular expressions of the classifier

    [classifyEmail] builds [new RegExp(`\\b${keyword}\\b`, 'gi')] and counts
    [text.match(regex)].  The keyword is spliced into the pattern as it is.
    The fragment modelled here is the one in which every keyword character
    is either an ordinary pattern character or a dot: such a pattern matches
    exactly as many characters as the keyword has.  Any other keyword (one
    that holds one of [^ $ \ * + ? ( ) [ ] { } |]) is passed to the engine
    of the environment. *)
(* ================================================================== *)

Inductive atom : Type :=
| Lit (c : ascii)
| AnyChar.

(** The syntax characters of the pattern grammar, the dot apart. *)
Definition is_syntax_char (c : ascii) : bool :=
  existsb (Ascii.eqb c)
    ["^"; "$"; "\"; "*"; "+"; "?"; "("; ")"; "["; "]"; "{"; "}"; "|"]%char.

Fixpoint parse_keyword (kw : string) : option (list atom) :=
  match kw with
  | EmptyString => Some []
  | String c kw' =>
      if is_syntax_char c then None
      else
        match parse_keyword kw' with
        | Some p => Some ((if Ascii.eqb c "." then AnyChar else Lit c) :: p)
        | None => None
        end
  end.

(** Line terminators, which the dot does not match. *)
Definition is_line_terminator (c : ascii) : bool :=
  (nat_of_ascii c =? 10)%nat || (nat_of_ascii c =? 13)%nat.

(** With the [i] flag both characters are canonicalised (upper-cased); a
    character outside ASCII is never canonicalised to an ASCII one, so a
    pattern character of the ASCII range matches ASCII characters only. *)
Definition atom_matches (a : atom) (c : ascii) : bool :=
  match a with
  | Lit k => Ascii.eqb (upper_char k) (upper_char c)
  | AnyChar => negb (is_line_terminator c)
  end.

(** [\b] between the characters [before] and [after] ([None] at an end of
    the text). *)
Definition boundary (before after : option ascii) : bool :=
  xorb (is_word_opt before) (is_word_opt after).

(** Runs the atoms on a prefix of [s]; gives the last character consumed
    (or [last] when there are no atoms) and the rest of the text. *)
Fixpoint match_atoms (p : list atom) (last : option ascii) (s : string)
  : option (option ascii * string) :=
  match p with
  | [] => Some (last, s)
  | a :: p' =>
      match s with
      | String c s' => if atom_matches a c then match_atoms p' (Some c) s' else None
      | EmptyString => None
      end
  end.

(** Does [\b p \b] match at the position whose preceding character is
    [prev] and whose remaining text is [s]? *)
Definition matches_at (p : list atom) (prev : option ascii) (s : string) : bool :=
  boundary prev (head_char s) &&
  match match_atoms p prev s with
  | Some (last, rest) => boundary last (head_char rest)
  | None => false
  end.

(** The matches of a global regular expression are found from left to
    right: after a match the search resumes at its end (one character
    further when the match is empty).  [skip] is the number of positions
    still covered by the previous match. *)
Fixpoint count_from (p : list atom) (prev : option ascii) (s : string) (skip : nat) : nat :=
  match skip with
  | S k =>
      match s with
      | String c s' => count_from p (Some c) s' k
      | EmptyString => 0
      end
  | O =>
      let next sk :=
        match s with
        | String c s' => count_from p (Some c) s' sk
        | EmptyString => 0%nat
        end in
      if matches_at p prev s then S (next (Nat.pred (length p))) else next 0%nat
  end.

Definition count_matches (p : list atom) (text : string) : nat :=
  count_from p None text 0.

(* ================================================================== *)
(** * 4. Data model *)
(* ================================================================== *)

(** [EmailMessage] of the provider clients.  [receivedAt] is the time value
    of the [Date], in milliseconds. *)
Record EmailMessage : Type := {
  msg_id : string;
  msg_subject : string;
  msg_from : string;
  msg_to : list string;
  msg_snippet : string;
  msg_receivedAt : Z;
  msg_isRead : bool;
  msg_hasAttachments : bool;
  msg_labels : list string
}.

(** [GmailConfig | ImapConfig].  The handler builds the IMAP shape from
    request fields that may be absent. *)
Inductive ProviderConfig : Type :=
| GmailConfig (refreshToken : string) (accessToken : option string)
| ImapConfig (host : option string) (port : option Z)
             (username password : option string) (tls : bool).

(** [EmailAccount]: a row of [email_accounts] as [rowToAccount] returns it.
    The stored credential blob is the base64 text of the JSON of the
    configuration; [rowToAccount] decodes it again, and the embedding keeps
    the configuration itself. *)
Record EmailAccount : Type := {
  acc_id : Z;
  acc_accountName : string;
  acc_email : string;
  acc_provider : string;
  acc_providerConfig : ProviderConfig;
  acc_isActive : bool;
  acc_lastSyncAt : option Z;
  acc_syncError : option string;
  acc_defaultMailbox : string;
  acc_includeSent : bool;
  acc_includeArchived : bool;
  acc_autoDetectPriority : bool;
  acc_customUrgentKeywords : list string;
  acc_customImportantKeywords : list string
}.

(** The value [classifyEmail] returns. *)
Record Classification : Type := {
  isUrgent : bool;
  isImportant : bool;
  urgencyScore : Q;
  importanceScore : Q;
  reasons : list string
}.

(** [ClassifiedEmail] *)
Record ClassifiedEmail : Type := {
  ce_id : string;
  ce_accountId : Z;
  ce_accountName : string;
  ce_subject : string;
  ce_from : string;
  ce_recipients : list string;
  ce_snippet : string;
  ce_receivedAt : Z;
  ce_isRead : bool;
  ce_hasAttachments : bool;
  ce_isUrgent : bool;
  ce_isImportant : bool;
  ce_urgencyScore : Q;
  ce_importanceScore : Q;
  ce_importanceReason : list string
}.

(** A row of [email_search_results], keyed by [UNIQUE(account_id, message_id)]. *)
Record CacheRow : Type := {
  row_search_query : string;
  row_subject : string;
  row_sender : string;
  row_recipients : list string;
  row_snippet : string;
  row_labels : list string;
  row_is_urgent : bool;
  row_is_important : bool;
  row_urgency_score : Q;
  row_importance_score : Q;
  row_importance_reason : list string;
  row_received_at : Z;
  row_is_read : bool;
  row_has_attachments : bool
}.

(** A call the orchestrator makes on a provider client. *)
Inductive ClientCall : Type :=
| CallSearch (account : Z) (query : string) (maxResults : Z)
| CallGetUrgentEmails (account : Z) (maxResults : Z).

(** The state the services act on: the two tables, the rowid sequence of
    [email_accounts] (AUTOINCREMENT), the calls made on provider clients so
    far, and the number of clock readings taken so far.

    [accounts] lists the rows in the order in which
    [ORDER BY created_at DESC] returns them: most recent first, rows created
    within the same second in the order the database gives them. *)
Record World : Type := {
  accounts : list EmailAccount;
  account_seq : Z;
  search_results : gmap (Z * string) CacheRow;
  client_calls : list ClientCall;
  ticks : nat
}.

(** What lies outside the program. *)
Record Env : Type := {
  (** [text.match(new RegExp(`\\b${keyword}\\b`, 'gi'))] for a keyword
      outside the modelled fragment: the number of matches, or [None] when
      the constructor throws. *)
  regexp_general : string -> string -> option nat;
  (** The messages [GmailClient.searchMessages] obtains over HTTP for an
      account, a query and a result limit, or the exception it throws. *)
  gmail_searchMessages : EmailAccount -> string -> Z -> outcome (list EmailMessage);
  (** The successive values of [Date.now()]. *)
  clock : nat -> Z
}.

(* ================================================================== *)
(** * 5. Classification engine ([classifyEmail]) *)
(* ================================================================== *)

Definition DEFAULT_URGENT_KEYWORDS : list string :=
  ["urgent"; "asap"; "critical"; "emergency"; "immediately"; "rush";
   "time-sensitive"; "deadline"; "important"; "high priority";
   "action required"; "attention needed"]%string.

Definition DEFAULT_IMPORTANT_KEYWORDS : list string :=
  ["meeting"; "conference"; "presentation"; "proposal"; "deal";
   "contract"; "agreement"; "approval"; "review"; "approval needed";
   "signature"; "confirmation"; "important"]%string.

(** [(text.match(regex) || []).length] for the regex built from [keyword]. *)
Definition match_count (E : Env) (keyword text : string) : option nat :=
  match parse_keyword keyword with
  | Some p => Some (count_matches p text)
  | None => regexp_general E keyword text
  end.

Definition urgent_reason (keyword : string) : string :=
  "Contains urgent keyword: " +:+ dquote +:+ keyword +:+ dquote.

Definition important_reason (keyword : string) : string :=
  "Contains important keyword: " +:+ dquote +:+ keyword +:+ dquote.

Definition Qof_nat (n : nat) : Q := inject_Z (Z.of_nat n).

(** [Math.min(matches.length * 0.15, 0.5)] *)
Definition keyword_bonus (n : nat) : Q := Qmin (Qof_nat n * 0.15) 0.5.

(** One keyword loop of [classifyEmail]: the running score and the reason
    list after the keywords [kws], or the exception of the first keyword
    whose regular expression cannot be built. *)
Fixpoint keyword_loop (E : Env) (mk_reason : string -> string) (text : string)
    (kws : list string) (score : Q) (rs : list string) : outcome (Q * list string) :=
  match kws with
  | [] => Ok (score, rs)
  | keyword :: kws' =>
      match match_count E keyword text with
      | None => Throw SyntaxError
      | Some n =>
          if (0 <? n)%nat
          then keyword_loop E mk_reason text kws'
                 (score + keyword_bonus n)%Q (rs ++ [mk_reason keyword])
          else keyword_loop E mk_reason text kws' score rs
      end
  end.

Definition Qlt_bool (a b : Q) : bool := negb (Qle_bool b a).

(** The text the keywords are looked up in. *)
Definition classify_text (message : EmailMessage) : string :=
  toLowerCase (msg_subject message +:+ " " +:+ msg_snippet message).

Definition urgentKeywords (account : EmailAccount) : list string :=
  if (0 <? length (acc_customUrgentKeywords account))%nat
  then acc_customUrgentKeywords account else DEFAULT_URGENT_KEYWORDS.

Definition importantKeywords (account : EmailAccount) : list string :=
  if (0 <? length (acc_customImportantKeywords account))%nat
  then acc_customImportantKeywords account else DEFAULT_IMPORTANT_KEYWORDS.

Definition list_includes (l : list string) (s : string) : bool :=
  existsb (String.eqb s) l.

(** [(Date.now() - receivedAt) / (1000 * 60 * 60 * 24)] *)
Definition daysSinceReceived (now : Z) (message : EmailMessage) : Q :=
  (inject_Z (now - msg_receivedAt message) / inject_Z (1000 * 60 * 60 * 24))%Q.

(** The part of [classifyEmail] that follows the keyword loops; [now] is
    the value [Date.now()] returns. *)
Definition classify_signals (now : Z) (message : EmailMessage) (account : EmailAccount)
    (u0 i0 : Q) (rs0 : list string) : Classification :=
  let '(u1, i1, rs1) :=
    if negb (msg_isRead message)
    then ((u0 + 0.2)%Q, (i0 + 0.1)%Q, rs0 ++ ["Email is unread"%string])
    else (u0, i0, rs0) in
  let '(i2, rs2) :=
    if msg_hasAttachments message
    then ((i1 + 0.25)%Q, rs1 ++ ["Email has attachments"%string])
    else (i1, rs1) in
  let '(u3, i3, rs3) :=
    if String.eqb (acc_provider account) "gmail"
       && (list_includes (msg_labels message) "IMPORTANT"
           || list_includes (msg_labels message) "STARRED")
    then (Qmin (u1 + 0.3) 1, Qmin (i2 + 0.3) 1,
          rs2 ++ ["Marked as important/starred in Gmail"%string])
    else (u1, i2, rs2) in
  let '(u4, rs4) :=
    if Qlt_bool (daysSinceReceived now message) 1
    then ((u3 + 0.15)%Q, rs3 ++ ["Received within last 24 hours"%string])
    else (u3, rs3) in
  {| isUrgent := Qle_bool 0.3 u4;
     isImportant := Qle_bool 0.3 i3;
     urgencyScore := Qmin u4 1;
     importanceScore := Qmin i3 1;
     reasons := rs4 |}.

Definition classifyEmail (E : Env) (now : Z) (message : EmailMessage)
    (account : EmailAccount) : outcome Classification :=
  let text := classify_text message in
  match keyword_loop E urgent_reason text (urgentKeywords account) 0%Q [] with
  | Throw e => Throw e
  | Ok (u0, rs_u) =>
      match keyword_loop E important_reason text (importantKeywords account) 0%Q rs_u with
      | Throw e => Throw e
      | Ok (i0, rs_i) => Ok (classify_signals now message account u0 i0 rs_i)
      end
  end.

(** ** The spec's reading of step 2, to compare [match_count] with

    An occurrence of the keyword at a position of the text is a whole word
    when the keyword is there, letter case apart, and neither the character
    before it nor the character after it is a word character.  Occurrences
    are counted from left to right, each one starting after the previous one
    has ended. *)
Fixpoint occurs_at (kw s : string) : option string :=
  match kw with
  | EmptyString => Some s
  | String k kw' =>
      match s with
      | String c s' =>
          if Ascii.eqb (upper_char k) (upper_char c) then occurs_at kw' s' else None
      | EmptyString => None
      end
  end.

Definition whole_word_at (kw : string) (prev : option ascii) (s : string) : bool :=
  negb (is_word_opt prev) &&
  match occurs_at kw s with
  | Some rest => negb (is_word_opt (head_char rest))
  | None => false
  end.

Fixpoint whole_word_from (kw : string) (prev : option ascii) (s : string) (skip : nat) : nat :=
  match skip with
  | S k =>
      match s with
      | String c s' => whole_word_from kw (Some c) s' k
      | EmptyString => 0
      end
  | O =>
      let next sk :=
        match s with
        | String c s' => whole_word_from kw (Some c) s' sk
        | EmptyString => 0%nat
        end in
      if whole_word_at kw prev s then S (next (Nat.pred (String.length kw))) else next 0%nat
  end.

Definition whole_word_occurrences (kw text : string) : nat :=
  whole_word_from kw None text 0.

(* ================================================================== *)
(** * 6. JavaScript helpers *)
(* ================================================================== *)

(** Truthiness of a string or number that may be [undefined]. *)
Definition truthy_str (o : option string) : bool :=
  match o with
  | Some s => negb (String.eqb s "")
  | None => false
  end.

Definition truthy_num (o : option Z) : bool :=
  match o with
  | Some z => negb (z =? 0)
  | None => false
  end.

Definition truthy_score (o : option Q) : bool :=
  match o with
  | Some q => negb (Qeq_bool q 0)
  | None => false
  end.

(** [x || d] on strings. *)
Definition str_or (o : option string) (d : string) : string :=
  match o with
  | Some s => if String.eqb s "" then d else s
  | None => d
  end.

(** [n || d] on numbers. *)
Definition num_or (n d : Z) : Z := if n =? 0 then d else n.

(** [String(n)] for an integer: all its decimal digits.  JavaScript prints
    a number in this way as long as its magnitude is below [1e21]
    ([prints_in_full]), which the row ids of the table are; a statement
    about the text of a caller-supplied number is made within that range. *)
Definition string_of_Z (z : Z) : string := NilZero.string_of_int (Z.to_int z).

(** [l.slice(0, n)] for an integer [n]: a negative end counts from the end
    of the array. *)
Definition slice0 {A : Type} (l : list A) (n : Z) : list A :=
  if n <? 0
  then firstn (Z.to_nat (Z.max (Z.of_nat (length l) + n) 0)) l
  else firstn (Z.to_nat n) l.

(** [x.toFixed(2)] for a score [x >= 0]: the nearest multiple of 0.01, the
    larger one on a tie, printed with two decimals. *)
Definition toFixed2 (x : Q) : string :=
  let n := Qfloor (x * 100 + (1 # 2))%Q in
  let frac := n mod 100 in
  string_of_Z (n / 100) +:+ "." +:+
  (if frac <? 10 then "0" +:+ string_of_Z frac else string_of_Z frac).

(** The stable sort of [Array.prototype.sort] under a comparator
    [(a, b) => score(b) - score(a)]: descending scores, equal scores in
    their original order. *)
Fixpoint insert_desc {A : Type} (score : A -> Q) (x : A) (l : list A) : list A :=
  match l with
  | [] => [x]
  | y :: l' => if Qlt_bool (score x) (score y) then y :: insert_desc score x l' else x :: l
  end.

Definition sort_desc {A : Type} (score : A -> Q) (l : list A) : list A :=
  fold_right (insert_desc score) [] l.

(* ================================================================== *)
(** * 7. Account registry ([EmailAccountService]) *)
(* ================================================================== *)

(** [EmailAccountConfig] *)
Record EmailAccountConfig : Type := {
  cfg_accountName : string;
  cfg_email : string;
  cfg_provider : string;
  cfg_providerConfig : ProviderConfig;
  cfg_defaultMailbox : option string;
  cfg_includeSent : option bool;
  cfg_includeArchived : option bool;
  cfg_autoDetectPriority : option bool;
  cfg_customUrgentKeywords : option (list string);
  cfg_customImportantKeywords : option (list string)
}.

(** [Partial<EmailAccountConfig>], the argument of [updateAccount]. *)
Record AccountUpdates : Type := {
  upd_accountName : option string;
  upd_email : option string;
  upd_provider : option string;
  upd_providerConfig : option ProviderConfig;
  upd_defaultMailbox : option string;
  upd_includeSent : option bool;
  upd_includeArchived : option bool;
  upd_autoDetectPriority : option bool;
  upd_customUrgentKeywords : option (list string);
  upd_customImportantKeywords : option (list string)
}.

(** The row [a] with its [is_active] column set. *)
Definition set_isActive (b : bool) (a : EmailAccount) : EmailAccount :=
  {| acc_id := acc_id a;
     acc_accountName := acc_accountName a;
     acc_email := acc_email a;
     acc_provider := acc_provider a;
     acc_providerConfig := acc_providerConfig a;
     acc_isActive := b;
     acc_lastSyncAt := acc_lastSyncAt a;
     acc_syncError := acc_syncError a;
     acc_defaultMailbox := acc_defaultMailbox a;
     acc_includeSent := acc_includeSent a;
     acc_includeArchived := acc_includeArchived a;
     acc_autoDetectPriority := acc_autoDetectPriority a;
     acc_customUrgentKeywords := acc_customUrgentKeywords a;
     acc_customImportantKeywords := acc_customImportantKeywords a |}.

(** The row [a] after the SET clause [updateAccount] builds: a column is
    set when its field is provided (a string field: provided and not empty);
    [rename] says whether [account_name] is among the columns.  The columns
    [email], [provider] and [is_active] are never among them. *)
Definition apply_updates (rename : bool) (updates : AccountUpdates) (a : EmailAccount)
  : EmailAccount :=
  {| acc_id := acc_id a;
     acc_accountName :=
       if rename then default (acc_accountName a) (upd_accountName updates)
       else acc_accountName a;
     acc_email := acc_email a;
     acc_provider := acc_provider a;
     acc_providerConfig := default (acc_providerConfig a) (upd_providerConfig updates);
     acc_isActive := acc_isActive a;
     acc_lastSyncAt := acc_lastSyncAt a;
     acc_syncError := acc_syncError a;
     acc_defaultMailbox := str_or (upd_defaultMailbox updates) (acc_defaultMailbox a);
     acc_includeSent := default (acc_includeSent a) (upd_includeSent updates);
     acc_includeArchived := default (acc_includeArchived a) (upd_includeArchived updates);
     acc_autoDetectPriority :=
       default (acc_autoDetectPriority a) (upd_autoDetectPriority updates);
     acc_customUrgentKeywords :=
       default (acc_customUrgentKeywords a) (upd_customUrgentKeywords updates);
     acc_customImportantKeywords :=
       default (acc_customImportantKeywords a) (upd_customImportantKeywords updates) |}.

(** The world with the rows of [email_accounts] replaced. *)
Definition with_accounts (rows : list EmailAccount) (w : World) : World :=
  {| accounts := rows;
     account_seq := account_seq w;
     search_results := search_results w;
     client_calls := client_calls w;
     ticks := ticks w |}.

Module EmailAccountService.

Definition getAccountById (w : World) (id : Z) : option EmailAccount :=
  List.find (fun a => acc_id a =? id) (accounts w).

Definition getAccountByName (w : World) (name : string) : option EmailAccount :=
  List.find (fun a => String.eqb (acc_accountName a) name) (accounts w).

Definition listActiveAccounts (w : World) : list EmailAccount :=
  List.filter acc_isActive (accounts w).

Definition listAllAccounts (w : World) : list EmailAccount := accounts w.

(** The row the INSERT statement of [addAccount] writes, with the
    defaults of the schema for the columns it leaves out. *)
Definition new_row (id : Z) (config : EmailAccountConfig) : EmailAccount :=
  {| acc_id := id;
     acc_accountName := cfg_accountName config;
     acc_email := cfg_email config;
     acc_provider := cfg_provider config;
     acc_providerConfig := cfg_providerConfig config;
     acc_isActive := true;
     acc_lastSyncAt := None;
     acc_syncError := None;
     acc_defaultMailbox := str_or (cfg_defaultMailbox config) "INBOX";
     acc_includeSent := default false (cfg_includeSent config);
     acc_includeArchived := default false (cfg_includeArchived config);
     acc_autoDetectPriority := default true (cfg_autoDetectPriority config);
     acc_customUrgentKeywords := default [] (cfg_customUrgentKeywords config);
     acc_customImportantKeywords := default [] (cfg_customImportantKeywords config) |}.

(** [stmt.run(...)] of the INSERT: the constraints of the table
    ([CHECK(provider IN ('gmail', 'imap'))], then [UNIQUE] on
    [account_name]) and the new rowid.

    The new row is put first in [accounts].  [ORDER BY created_at DESC]
    lists it first when it was created in a later second than the rows
    before it; for rows created within one second the code fixes no order.
    The statements about a row that was just added speak of membership, not
    of its place. *)
Definition insert_row (config : EmailAccountConfig) (w : World) : outcome Z * World :=
  if negb (String.eqb (cfg_provider config) "gmail" || String.eqb (cfg_provider config) "imap")
  then (Throw (SqliteError "CHECK constraint failed: provider IN ('gmail', 'imap')"), w)
  else if existsb (fun a => String.eqb (acc_accountName a) (cfg_accountName config)) (accounts w)
  then (Throw (SqliteError "UNIQUE constraint failed: email_accounts.account_name"), w)
  else
    let id := account_seq w + 1 in
    (Ok id,
     {| accounts := new_row id config :: accounts w;
        account_seq := id;
        search_results := search_results w;
        client_calls := client_calls w;
        ticks := ticks w |}).

Definition addAccount (config : EmailAccountConfig) (w : World)
  : outcome (option EmailAccount) * World :=
  match insert_row config w with
  | (Ok id, w') => (Ok (getAccountById w' id), w')
  | (Throw e, w') =>
      if includes (exn_message e) "UNIQUE constraint"
      then (Throw (Error ("Account name " +:+ dquote +:+ cfg_accountName config
                          +:+ dquote +:+ " already exists")), w')
      else (Throw e, w')
  end.

(** [updateAccount].  The UPDATE statement writes the rows of the id; a new
    [account_name] that another row holds violates the UNIQUE constraint,
    and nothing here catches the error of the driver.  (The column
    [updated_at], which the statement also sets, is not part of the
    embedding.) *)
Definition updateAccount (id : Z) (updates : AccountUpdates) (w : World)
  : outcome (option EmailAccount) * World :=
  match getAccountById w id with
  | None => (Throw (Error ("Account with ID " +:+ string_of_Z id +:+ " not found")), w)
  | Some account =>
      let rename :=
        truthy_str (upd_accountName updates)
        && negb (String.eqb (default "" (upd_accountName updates)) (acc_accountName account)) in
      if rename
         && existsb (fun a => negb (acc_id a =? id)
                              && String.eqb (acc_accountName a)
                                   (default "" (upd_accountName updates)))
              (accounts w)
      then (Throw (SqliteError "UNIQUE constraint failed: email_accounts.account_name"), w)
      else
        let w' :=
          with_accounts
            (map (fun a => if acc_id a =? id then apply_updates rename updates a else a)
               (accounts w)) w in
        (Ok (getAccountById w' id), w')
  end.

(** [deleteAccount]: [result.changes > 0], and the state after the DELETE.
    The rows of [email_search_results] that refer to a deleted account go
    with it ([ON DELETE CASCADE] of the schema, foreign keys being enforced
    as the driver does by default). *)
Definition deleteAccount (id : Z) (w : World) : bool * World :=
  if existsb (fun a => acc_id a =? id) (accounts w)
  then (true,
        {| accounts := List.filter (fun a => negb (acc_id a =? id)) (accounts w);
           account_seq := account_seq w;
           search_results := filter (fun kv => fst (fst kv) <> id) (search_results w);
           client_calls := client_calls w;
           ticks := ticks w |})
  else (false, w).

(** [disableAccount] and [enableAccount]: the UPDATE of [is_active], then
    [getAccountById(id)!]. *)
Definition disableAccount (id : Z) (w : World) : option EmailAccount * World :=
  let w' := with_accounts
              (map (fun a => if acc_id a =? id then set_isActive false a else a)
                 (accounts w)) w in
  (getAccountById w' id, w').

Definition enableAccount (id : Z) (w : World) : option EmailAccount * World :=
  let w' := with_accounts
              (map (fun a => if acc_id a =? id then set_isActive true a else a)
                 (accounts w)) w in
  (getAccountById w' id, w').

End EmailAccountService.

(* ================================================================== *)
(** * 8. Provider clients *)
(* ================================================================== *)

Inductive EmailClient : Type :=
| ClientGmail (account : EmailAccount)
| ClientImap (account : EmailAccount).

(** The loop both [getUrgentEmails] methods share: the queries are run in
    turn, a query that throws is skipped, and a message is kept the first
    time its id is met. *)
Fixpoint keep_new (ms : list EmailMessage) (all : list EmailMessage) (seen : gset string)
  : list EmailMessage * gset string :=
  match ms with
  | [] => (all, seen)
  | msg :: ms' =>
      if decide (msg_id msg ∈ seen) then keep_new ms' all seen
      else keep_new ms' (all ++ [msg]) ({[msg_id msg]} ∪ seen)
  end.

Fixpoint urgent_queries (search : string -> outcome (list EmailMessage))
    (queries : list string) (all : list EmailMessage) (seen : gset string)
  : list EmailMessage :=
  match queries with
  | [] => all
  | query :: queries' =>
      match search query with
      | Ok ms => let '(all', seen') := keep_new ms all seen in
                 urgent_queries search queries' all' seen'
      | Throw _ => urgent_queries search queries' all seen
      end
  end.

Module GmailClient.

(** [search({query, maxResults})]: the request carries
    [maxResults || 10]. *)
Definition search (E : Env) (account : EmailAccount) (query : string) (maxResults : Z)
  : outcome (list EmailMessage) :=
  match gmail_searchMessages E account query (num_or maxResults 10) with
  | Ok ms => Ok ms
  | Throw e => Throw (Error ("Gmail search error: " +:+ exn_message e))
  end.

Definition getUrgentEmails (E : Env) (account : EmailAccount) (maxResults : Z)
  : list EmailMessage :=
  slice0
    (urgent_queries (fun query => search E account query maxResults)
       ["is:important"; "label:important"; "is:starred"; "has:red-star";
        "in:inbox newer_than:1d"]%string [] ∅)
    maxResults.

End GmailClient.

Module ImapClient.

(** [searchWithImap] is a placeholder that returns no message. *)
Definition searchWithImap (mailbox query : string) : list EmailMessage := [].

Definition search (account : EmailAccount) (query : string) (maxResults : Z)
    (mailbox : option string) : outcome (list EmailMessage) :=
  let mailbox := str_or mailbox (str_or (Some (acc_defaultMailbox account)) "INBOX") in
  Ok (slice0 (searchWithImap mailbox query) (num_or maxResults 10)).

Definition getUrgentEmails (account : EmailAccount) (maxResults : Z) : list EmailMessage :=
  slice0
    (urgent_queries (fun query => search account query (maxResults * 2) (Some "INBOX"%string))
       ["FLAGGED"; "ALL"; "UNSEEN"]%string [] ∅)
    maxResults.

(** [validateConnection]: no connection is made; the four fields of the
    configuration are looked at.  (A Gmail configuration read as an IMAP one
    has none of them.) *)
Definition validateConnection (account : EmailAccount) : bool :=
  match acc_providerConfig account with
  | ImapConfig host port username password _ =>
      truthy_str host && truthy_num port && truthy_str username && truthy_str password
  | GmailConfig _ _ => false
  end.

Definition listMailboxes : list string :=
  ["INBOX"; "Sent"; "Drafts"; "Trash"; "Junk"]%string.

End ImapClient.

Module EmailClientFactory.

Definition createClient (account : EmailAccount) : outcome EmailClient :=
  if String.eqb (acc_provider account) "gmail" then Ok (ClientGmail account)
  else if String.eqb (acc_provider account) "imap" then Ok (ClientImap account)
  else Throw (Error ("Unsupported email provider: " +:+ acc_provider account)).

End EmailClientFactory.

(** [client.search({query, maxResults})] and
    [client.getUrgentEmails(maxResults)] on either client. *)
Definition client_search (E : Env) (client : EmailClient) (query : string) (maxResults : Z)
  : outcome (list EmailMessage) :=
  match client with
  | ClientGmail account => GmailClient.search E account query maxResults
  | ClientImap account => ImapClient.search account query maxResults None
  end.

Definition client_getUrgentEmails (E : Env) (client : EmailClient) (maxResults : Z)
  : list EmailMessage :=
  match client with
  | ClientGmail account => GmailClient.getUrgentEmails E account maxResults
  | ClientImap account => ImapClient.getUrgentEmails account maxResults
  end.

(* ================================================================== *)
(** * 9. Search orchestrator ([EmailSearchService]) *)
(* ================================================================== *)

(** [SearchCriteria] *)
Record SearchCriteria : Type := {
  sc_query : string;
  sc_accounts : option (list Z);
  sc_mailboxes : option (list string);
  sc_maxResults : option Z;
  sc_minUrgencyScore : option Q;
  sc_minImportanceScore : option Q
}.

(** The local variables of the account loop of [searchEmails], with the
    state of the world. *)
Record SearchLoop : Type := {
  allResults : list ClassifiedEmail;
  seen : gset string;
  world : World
}.

(** The local variables of the account loop of
    [getUrgentAndImportantEmails], with the state of the world. *)
Record UrgentLoop : Type := {
  urgentEmails : list ClassifiedEmail;
  importantEmails : list ClassifiedEmail;
  useen : gset string;
  uworld : World
}.

Definition record_call (c : ClientCall) (w : World) : World :=
  {| accounts := accounts w;
     account_seq := account_seq w;
     search_results := search_results w;
     client_calls := client_calls w ++ [c];
     ticks := ticks w |}.

(** One reading of the clock has been taken. *)
Definition tick (w : World) : World :=
  {| accounts := accounts w;
     account_seq := account_seq w;
     search_results := search_results w;
     client_calls := client_calls w;
     ticks := S (ticks w) |}.

Module EmailSearchService.

(** [`${account.id}:${msg.id}`] *)
Definition composite_key (account : EmailAccount) (msg : EmailMessage) : string :=
  string_of_Z (acc_id account) +:+ ":" +:+ msg_id msg.

Definition classified (account : EmailAccount) (msg : EmailMessage) (c : Classification)
  : ClassifiedEmail :=
  {| ce_id := msg_id msg;
     ce_accountId := acc_id account;
     ce_accountName := acc_accountName account;
     ce_subject := msg_subject msg;
     ce_from := msg_from msg;
     ce_recipients := msg_to msg;
     ce_snippet := msg_snippet msg;
     ce_receivedAt := msg_receivedAt msg;
     ce_isRead := msg_isRead msg;
     ce_hasAttachments := msg_hasAttachments msg;
     ce_isUrgent := isUrgent c;
     ce_isImportant := isImportant c;
     ce_urgencyScore := urgencyScore c;
     ce_importanceScore := importanceScore c;
     ce_importanceReason := reasons c |}.

(** [INSERT OR REPLACE INTO email_search_results]: the row of the key
    [(account_id, message_id)] is written over. *)
Definition cacheSearchResult (accountId : Z) (msg : EmailMessage) (c : Classification)
    (w : World) : World :=
  {| accounts := accounts w;
     account_seq := account_seq w;
     search_results :=
       <[ (accountId, msg_id msg) :=
            {| row_search_query := "";
               row_subject := msg_subject msg;
               row_sender := msg_from msg;
               row_recipients := msg_to msg;
               row_snippet := msg_snippet msg;
               row_labels := msg_labels msg;
               row_is_urgent := isUrgent c;
               row_is_important := isImportant c;
               row_urgency_score := urgencyScore c;
               row_importance_score := importanceScore c;
               row_importance_reason := reasons c;
               row_received_at := msg_receivedAt msg;
               row_is_read := msg_isRead msg;
               row_has_attachments := msg_hasAttachments msg |} ]> (search_results w);
     client_calls := client_calls w;
     ticks := ticks w |}.

(** The message loop of [searchEmails] for one account.  An exception of
    [classifyEmail] leaves the loop: the [catch] of the account loop logs it
    and the next account follows.  What was pushed and marked before stays. *)
Fixpoint classify_messages (E : Env) (account : EmailAccount)
    (messages : list EmailMessage) (st : SearchLoop) : SearchLoop :=
  match messages with
  | [] => st
  | msg :: messages' =>
      let key := composite_key account msg in
      if decide (key ∈ seen st) then classify_messages E account messages' st
      else
        match classifyEmail E (clock E (ticks (world st))) msg account with
        | Throw _ =>
            {| allResults := allResults st; seen := {[key]} ∪ seen st; world := world st |}
        | Ok c =>
            classify_messages E account messages'
              {| allResults := allResults st ++ [classified account msg c];
                 seen := {[key]} ∪ seen st;
                 world := cacheSearchResult (acc_id account) msg c (tick (world st)) |}
        end
  end.

(** The body of the account loop of [searchEmails]: [try { ... } catch]. *)
Definition search_account (E : Env) (query : string) (maxResults : Z)
    (st : SearchLoop) (account : EmailAccount) : SearchLoop :=
  match EmailClientFactory.createClient account with
  | Throw _ => st
  | Ok client =>
      let st1 :=
        {| allResults := allResults st; seen := seen st;
           world := record_call (CallSearch (acc_id account) query (maxResults * 2)) (world st) |} in
      match client_search E client query (maxResults * 2) with
      | Throw _ => st1
      | Ok messages => classify_messages E account messages st1
      end
  end.

(** [accounts ? accounts.map(getAccountById).filter(Boolean) : listActiveAccounts()] *)
Definition accountsToSearch (criteria : SearchCriteria) (w : World) : list EmailAccount :=
  match sc_accounts criteria with
  | Some ids => omap (EmailAccountService.getAccountById w) ids
  | None => EmailAccountService.listActiveAccounts w
  end.

Definition rank_score (a : ClassifiedEmail) : Q :=
  (ce_urgencyScore a * 2 + ce_importanceScore a)%Q.

(** The merged results of the account loop, before they are ranked. *)
Definition search_loop (E : Env) (query : string) (maxResults : Z)
    (accts : list EmailAccount) (w : World) : SearchLoop :=
  fold_left (search_account E query maxResults) accts
    {| allResults := []; seen := ∅; world := w |}.

Definition searchEmails (E : Env) (criteria : SearchCriteria) (w : World)
  : outcome (list ClassifiedEmail) * World :=
  let maxResults := default 50 (sc_maxResults criteria) in
  let accts := accountsToSearch criteria w in
  if (length accts =? 0)%nat
  then (Throw (Error "No email accounts available for search"), w)
  else
    let st := search_loop E (sc_query criteria) maxResults accts w in
    (Ok (slice0 (sort_desc rank_score (allResults st)) maxResults), world st).

(** The message loop of [getUrgentAndImportantEmails] for one account. *)
Fixpoint bucket_messages (E : Env) (account : EmailAccount)
    (messages : list EmailMessage) (st : UrgentLoop) : UrgentLoop :=
  match messages with
  | [] => st
  | msg :: messages' =>
      let key := composite_key account msg in
      if decide (key ∈ useen st) then bucket_messages E account messages' st
      else
        match classifyEmail E (clock E (ticks (uworld st))) msg account with
        | Throw _ =>
            {| urgentEmails := urgentEmails st; importantEmails := importantEmails st;
               useen := {[key]} ∪ useen st; uworld := uworld st |}
        | Ok c =>
            let email := classified account msg c in
            bucket_messages E account messages'
              {| urgentEmails :=
                   if isUrgent c then urgentEmails st ++ [email] else urgentEmails st;
                 importantEmails :=
                   if isImportant c then importantEmails st ++ [email] else importantEmails st;
                 useen := {[key]} ∪ useen st;
                 uworld := tick (uworld st) |}
        end
  end.

Definition urgent_account (E : Env) (maxResults : Z)
    (st : UrgentLoop) (account : EmailAccount) : UrgentLoop :=
  match EmailClientFactory.createClient account with
  | Throw _ => st
  | Ok client =>
      let st1 :=
        {| urgentEmails := urgentEmails st; importantEmails := importantEmails st;
           useen := useen st;
           uworld := record_call (CallGetUrgentEmails (acc_id account) (maxResults * 2))
                       (uworld st) |} in
      bucket_messages E account (client_getUrgentEmails E client (maxResults * 2)) st1
  end.

Definition getUrgentAndImportantEmails (E : Env) (maxResults : Z) (w : World)
  : outcome (list ClassifiedEmail * list ClassifiedEmail) * World :=
  let accts := EmailAccountService.listActiveAccounts w in
  if (length accts =? 0)%nat
  then (Throw (Error "No email accounts configured"), w)
  else
    let st := fold_left (urgent_account E maxResults) accts
                {| urgentEmails := []; importantEmails := []; useen := ∅; uworld := w |} in
    (Ok (slice0 (sort_desc ce_urgencyScore (urgentEmails st)) maxResults,
         slice0 (sort_desc ce_importanceScore (importantEmails st)) maxResults),
     uworld st).

End EmailSearchService.

(* ================================================================== *)
(** * 10. Tool handlers ([createEmailToolsHandlers]) *)
(* ================================================================== *)

(** The parameters of [add_email_account]; an absent field is [None]. *)
Record AddAccountParams : Type := {
  p_accountName : option string;
  p_email : option string;
  p_provider : option string;
  p_refreshToken : option string;
  p_host : option string;
  p_port : option Z;
  p_username : option string;
  p_password : option string;
  p_defaultMailbox : option string;
  p_customUrgentKeywords : option (list string);
  p_customImportantKeywords : option (list string)
}.

Record AddAccountResponse : Type := {
  aar_success : bool;
  aar_accountId : Z;
  aar_accountName : string;
  aar_email : string;
  aar_provider : string;
  aar_message : string
}.

(** The parameters of [search_emails]. *)
Record SearchParams : Type := {
  sp_query : option string;
  sp_accounts : option (list Z);
  sp_mailboxes : option (list string);
  sp_maxResults : option Z;
  sp_minUrgencyScore : option Q;
  sp_minImportanceScore : option Q
}.

Record SearchResultView : Type := {
  srv_id : string;
  srv_accountName : string;
  srv_subject : string;
  srv_from : string;
  srv_recipients : list string;
  srv_snippet : string;
  srv_receivedAt : Z;
  srv_isRead : bool;
  srv_hasAttachments : bool;
  srv_isUrgent : bool;
  srv_isImportant : bool;
  srv_urgencyScore : string;
  srv_importanceScore : string;
  srv_importanceReason : list string
}.

Record SearchResponse : Type := {
  sr_success : bool;
  sr_query : string;
  sr_totalResults : nat;
  sr_results : list SearchResultView
}.

(** The parameters of [get_urgent_emails]. *)
Record UrgentParams : Type := {
  up_maxResults : option Z;
  up_accounts : option (list Z);
  up_onlyUnread : option bool
}.

(** An entry of either bucket; [bv_score] is the urgency score in the
    urgent bucket and the importance score in the important one. *)
Record BucketView : Type := {
  bv_id : string;
  bv_accountName : string;
  bv_subject : string;
  bv_from : string;
  bv_snippet : string;
  bv_receivedAt : Z;
  bv_isRead : bool;
  bv_hasAttachments : bool;
  bv_score : string;
  bv_importanceReason : list string
}.

Record UrgentResponse : Type := {
  ur_success : bool;
  ur_urgent_count : nat;
  ur_urgent_emails : list BucketView;
  ur_important_count : nat;
  ur_important_emails : list BucketView
}.

(** The parameters of [remove_email_account], [disable_email_account] and
    [enable_email_account]. *)
Record AccountIdParams : Type := {
  ap_accountId : option Z
}.

Record RemoveResponse : Type := {
  rr_success : bool;
  rr_message : string
}.


(** The parameters of [update_email_account]. *)
Record UpdateParams : Type := {
  upp_accountId : option Z;
  upp_defaultMailbox : option string;
  upp_customUrgentKeywords : option (list string);
  upp_customImportantKeywords : option (list string)
}.

Record UpdateResponse : Type := {
  upr_success : bool;
  upr_accountId : Z;
  upr_accountName : string;
  upr_defaultMailbox : string;
  upr_message : string
}.

Module Handlers.

Definition addEmailAccount (params : AddAccountParams) (w : World)
  : outcome AddAccountResponse * World :=
  if negb (truthy_str (p_accountName params)) || negb (truthy_str (p_email params))
     || negb (truthy_str (p_provider params))
  then (Throw (Error "Missing required fields: accountName, email, provider"), w)
  else
    let accountName := default "" (p_accountName params) in
    let email := default "" (p_email params) in
    let provider := default "" (p_provider params) in
    if String.eqb provider "gmail" && negb (truthy_str (p_refreshToken params))
    then (Throw (Error "Gmail provider requires refreshToken"), w)
    else if String.eqb provider "imap"
            && (negb (truthy_str (p_host params)) || negb (truthy_num (p_port params))
                || negb (truthy_str (p_username params))
                || negb (truthy_str (p_password params)))
    then (Throw (Error "IMAP provider requires host, port, username, password"), w)
    else
      let providerConfig :=
        if String.eqb provider "gmail"
        then GmailConfig (default "" (p_refreshToken params)) None
        else ImapConfig (p_host params) (p_port params) (p_username params)
               (p_password params) true in
      let config :=
        {| cfg_accountName := accountName;
           cfg_email := email;
           cfg_provider := provider;
           cfg_providerConfig := providerConfig;
           cfg_defaultMailbox := p_defaultMailbox params;
           cfg_includeSent := None;
           cfg_includeArchived := None;
           cfg_autoDetectPriority := None;
           cfg_customUrgentKeywords := p_customUrgentKeywords params;
           cfg_customImportantKeywords := p_customImportantKeywords params |} in
      match EmailAccountService.addAccount config w with
      | (Throw e, w') => (Throw e, w')
      | (Ok None, w') => (Throw TypeError, w')
      | (Ok (Some account), w') =>
          (Ok {| aar_success := true;
                 aar_accountId := acc_id account;
                 aar_accountName := acc_accountName account;
                 aar_email := acc_email account;
                 aar_provider := acc_provider account;
                 aar_message := "Email account " +:+ dquote +:+ accountName +:+ dquote
                                +:+ " added successfully" |}, w')
      end.

Definition search_view (email : ClassifiedEmail) : SearchResultView :=
  {| srv_id := ce_id email;
     srv_accountName := ce_accountName email;
     srv_subject := ce_subject email;
     srv_from := ce_from email;
     srv_recipients := ce_recipients email;
     srv_snippet := ce_snippet email;
     srv_receivedAt := ce_receivedAt email;
     srv_isRead := ce_isRead email;
     srv_hasAttachments := ce_hasAttachments email;
     srv_isUrgent := ce_isUrgent email;
     srv_isImportant := ce_isImportant email;
     srv_urgencyScore := toFixed2 (ce_urgencyScore email);
     srv_importanceScore := toFixed2 (ce_importanceScore email);
     srv_importanceReason := ce_importanceReason email |}.

(** The score floors of [search_emails]: a floor that is absent or zero
    filters nothing. *)
Definition passes_floors (minUrgencyScore minImportanceScore : option Q)
    (email : ClassifiedEmail) : bool :=
  negb (truthy_score minUrgencyScore
        && Qlt_bool (ce_urgencyScore email) (default 0%Q minUrgencyScore))
  && negb (truthy_score minImportanceScore
           && Qlt_bool (ce_importanceScore email) (default 0%Q minImportanceScore)).

(** The criteria the handler passes on to the search service. *)
Definition search_criteria (params : SearchParams) : SearchCriteria :=
  {| sc_query := default "" (sp_query params);
     sc_accounts := sp_accounts params;
     sc_mailboxes := sp_mailboxes params;
     sc_maxResults := Some (default 50 (sp_maxResults params));
     sc_minUrgencyScore := sp_minUrgencyScore params;
     sc_minImportanceScore := sp_minImportanceScore params |}.

Definition searchEmails (E : Env) (params : SearchParams) (w : World)
  : outcome SearchResponse * World :=
  let maxResults := default 50 (sp_maxResults params) in
  if negb (truthy_str (sp_query params))
  then (Throw (Error "Missing required field: query"), w)
  else if 500 <? maxResults
  then (Throw (Error "maxResults cannot exceed 500"), w)
  else
    let query := default "" (sp_query params) in
    match EmailSearchService.searchEmails E (search_criteria params) w with
    | (Throw e, w') => (Throw e, w')
    | (Ok results, w') =>
        let filtered :=
          List.filter (passes_floors (sp_minUrgencyScore params)
                         (sp_minImportanceScore params)) results in
        (Ok {| sr_success := true;
               sr_query := query;
               sr_totalResults := length filtered;
               sr_results := map search_view filtered |}, w')
    end.

Definition bucket_view (score : ClassifiedEmail -> Q) (email : ClassifiedEmail) : BucketView :=
  {| bv_id := ce_id email;
     bv_accountName := ce_accountName email;
     bv_subject := ce_subject email;
     bv_from := ce_from email;
     bv_snippet := ce_snippet email;
     bv_receivedAt := ce_receivedAt email;
     bv_isRead := ce_isRead email;
     bv_hasAttachments := ce_hasAttachments email;
     bv_score := toFixed2 (score email);
     bv_importanceReason := ce_importanceReason email |}.

Definition getUrgentEmails (E : Env) (params : UrgentParams) (w : World)
  : outcome UrgentResponse * World :=
  let maxResults := default 20 (up_maxResults params) in
  let onlyUnread := default false (up_onlyUnread params) in
  if 500 <? maxResults
  then (Throw (Error "maxResults cannot exceed 500"), w)
  else
    match EmailSearchService.getUrgentAndImportantEmails E maxResults w with
    | (Throw e, w') => (Throw e, w')
    | (Ok (urgent, important), w') =>
        let unread := List.filter (fun e => negb (ce_isRead e)) in
        let filteredUrgent := if onlyUnread then unread urgent else urgent in
        let filteredImportant := if onlyUnread then unread important else important in
        (Ok {| ur_success := true;
               ur_urgent_count := length filteredUrgent;
               ur_urgent_emails := map (bucket_view ce_urgencyScore) filteredUrgent;
               ur_important_count := length filteredImportant;
               ur_important_emails := map (bucket_view ce_importanceScore) filteredImportant |},
         w')
    end.

(** [new Error(`Account with ID ${accountId} not found`)]; the id is
    printed by [string_of_Z]. *)
Definition not_found (accountId : Z) : exn :=
  Error ("Account with ID " +:+ string_of_Z accountId +:+ " not found").

Definition removeEmailAccount (params : AccountIdParams) (w : World)
  : outcome RemoveResponse * World :=
  if negb (truthy_num (ap_accountId params))
  then (Throw (Error "Missing required field: accountId"), w)
  else
    let accountId := default 0 (ap_accountId params) in
    match EmailAccountService.getAccountById w accountId with
    | None => (Throw (not_found accountId), w)
    | Some account =>
        let '(deleted, w') := EmailAccountService.deleteAccount accountId w in
        if negb deleted then (Throw (Error "Failed to delete account"), w')
        else
          (Ok {| rr_success := true;
                 rr_message := "Email account " +:+ dquote +:+ acc_accountName account
                               +:+ dquote +:+ " removed successfully" |}, w')
    end.




(** The updates [updateEmailAccount] passes on: a mailbox that is provided
    and not empty, a keyword list that is provided (an empty one included). *)
Definition account_updates (params : UpdateParams) : AccountUpdates :=
  {| upd_accountName := None;
     upd_email := None;
     upd_provider := None;
     upd_providerConfig := None;
     upd_defaultMailbox :=
       if truthy_str (upp_defaultMailbox params) then upp_defaultMailbox params else None;
     upd_includeSent := None;
     upd_includeArchived := None;
     upd_autoDetectPriority := None;
     upd_customUrgentKeywords := upp_customUrgentKeywords params;
     upd_customImportantKeywords := upp_customImportantKeywords params |}.

Definition updateEmailAccount (params : UpdateParams) (w : World)
  : outcome UpdateResponse * World :=
  if negb (truthy_num (upp_accountId params))
  then (Throw (Error "Missing required field: accountId"), w)
  else
    let accountId := default 0 (upp_accountId params) in
    match EmailAccountService.getAccountById w accountId with
    | None => (Throw (not_found accountId), w)
    | Some _ =>
        match EmailAccountService.updateAccount accountId (account_updates params) w with
        | (Throw e, w') => (Throw e, w')
        | (Ok None, w') => (Throw TypeError, w')
        | (Ok (Some updated), w') =>
            (Ok {| upr_success := true;
                   upr_accountId := acc_id updated;
                   upr_accountName := acc_accountName updated;
                   upr_defaultMailbox := acc_defaultMailbox updated;
                   upr_message := "Account " +:+ dquote +:+ acc_accountName updated
                                  +:+ dquote +:+ " updated successfully" |}, w')
        end
    end.

End Handlers.

(* ================================================================== *)
(** * 11. Notions used in the statements *)
(* ================================================================== *)

(** The taxonomy of the specification, read on the messages the code
    throws: the code has one [Error] class and tells the cases apart by
    message only. *)
Definition is_ValidationError (e : exn) : Prop :=
  e = Error "Missing required fields: accountName, email, provider"
  \/ e = Error "Gmail provider requires refreshToken"
  \/ e = Error "IMAP provider requires host, port, username, password"
  \/ e = Error "Missing required field: query"
  \/ e = Error "maxResults cannot exceed 500".

Definition is_ConflictError (e : exn) : Prop :=
  exists name,
    e = Error ("Account name " +:+ dquote +:+ name +:+ dquote +:+ " already exists").

(** The key of a classified result. *)
Definition result_key (r : ClassifiedEmail) : Z * string := (ce_accountId r, ce_id r).

(** What the client of an account answers to the search of [searchEmails]. *)
Definition provider_messages (E : Env) (query : string) (maxResults : Z)
    (account : EmailAccount) : outcome (list EmailMessage) :=
  match EmailClientFactory.createClient account with
  | Ok client => client_search E client query (maxResults * 2)
  | Throw e => Throw e
  end.

(** [classifyEmail] returns for every message of the account. *)
Definition classifies (E : Env) (account : EmailAccount) : Prop :=
  forall now message, exists c, classifyEmail E now message account = Ok c.

(** The keywords of a list that have a match in the text, in list order. *)
Definition matching_keywords (E : Env) (text : string) (kws : list string) : list string :=
  List.filter
    (fun kw => match match_count E kw text with
               | Some n => (0 <? n)%nat
               | None => false
               end) kws.

(** The reasons of the steps after the keyword loops, in step order. *)
Definition signal_reasons (now : Z) (message : EmailMessage) (account : EmailAccount)
  : list string :=
  (if negb (msg_isRead message) then ["Email is unread"%string] else [])
  ++ (if msg_hasAttachments message then ["Email has attachments"%string] else [])
  ++ (if String.eqb (acc_provider account) "gmail"
         && (list_includes (msg_labels message) "IMPORTANT"
             || list_includes (msg_labels message) "STARRED")
      then ["Marked as important/starred in Gmail"%string] else [])
  ++ (if Qlt_bool (daysSinceReceived now message) 1
      then ["Received within last 24 hours"%string] else []).

(** Two messages with the same content, as far as [classifyEmail] reads
    it; two accounts with the same keyword lists and the same provider. *)
Definition same_content (m1 m2 : EmailMessage) : Prop :=
  msg_subject m1 = msg_subject m2 /\ msg_snippet m1 = msg_snippet m2
  /\ msg_receivedAt m1 = msg_receivedAt m2 /\ msg_isRead m1 = msg_isRead m2
  /\ msg_hasAttachments m1 = msg_hasAttachments m2 /\ msg_labels m1 = msg_labels m2.

Definition same_preferences (a1 a2 : EmailAccount) : Prop :=
  acc_customUrgentKeywords a1 = acc_customUrgentKeywords a2
  /\ acc_customImportantKeywords a1 = acc_customImportantKeywords a2
  /\ acc_provider a1 = acc_provider a2.

(** Every character of the string satisfies [P]. *)
Fixpoint all_chars (P : ascii -> bool) (s : string) : bool :=
  match s with
  | EmptyString => true
  | String c s' => P c && all_chars P s'
  end.

Fixpoint last_char (s : string) : option ascii :=
  match s with
  | EmptyString => None
  | String c EmptyString => Some c
  | String _ s' => last_char s'
  end.

(** A keyword of ordinary characters only (no syntax character, no dot)
    that begins and ends with a word character. *)
Definition plain_keyword (kw : string) : bool :=
  all_chars (fun c => negb (is_syntax_char c) && negb (Ascii.eqb c ".")) kw
  && is_word_opt (head_char kw) && is_word_opt (last_char kw).

(** The pattern of a keyword of ordinary characters. *)
Fixpoint literal_atoms (kw : string) : list atom :=
  match kw with
  | EmptyString => []
  | String c kw' => Lit c :: literal_atoms kw'
  end.

(** What a keyword loop adds to its score. *)
Fixpoint bonus_sum (E : Env) (text : string) (kws : list string) : Q :=
  match kws with
  | [] => 0%Q
  | kw :: kws' =>
      match match_count E kw text with
      | Some (S n) => (keyword_bonus (S n) + bonus_sum E text kws')%Q
      | _ => bonus_sum E text kws'
      end
  end.

(** The string key of a pair (account id, message id), and the pair of an
    account and one of its messages. *)
Definition key_string (k : Z * string) : string :=
  string_of_Z (fst k) +:+ ":" +:+ snd k.

Definition message_key (am : EmailAccount * EmailMessage) : Z * string :=
  (acc_id (fst am), msg_id (snd am)).

(** The fan-out of a search: the messages the clients of the accounts
    return, account by account; an account whose client throws gives none. *)
Definition fanout (E : Env) (query : string) (maxResults : Z)
    (accts : list EmailAccount) : list (EmailAccount * EmailMessage) :=
  flat_map
    (fun account =>
       match provider_messages E query maxResults account with
       | Ok messages => map (pair account) messages
       | Throw _ => []
       end) accts.

(** The spec's deduplication: a message is kept unless the pair of its
    account id and message id was met before (first occurrence wins). *)
Fixpoint dedup_from (met : list (Z * string)) (l : list (EmailAccount * EmailMessage))
  : list (EmailAccount * EmailMessage) :=
  match l with
  | [] => []
  | am :: l' =>
      if decide (message_key am ∈ met) then dedup_from met l'
      else am :: dedup_from (message_key am :: met) l'
  end.

Definition first_occurrences (l : list (EmailAccount * EmailMessage))
  : list (EmailAccount * EmailMessage) :=
  dedup_from [] l.

(** [r] is the classified result of the message [snd am] of the account
    [fst am], at some reading of the clock. *)
Definition classified_from (E : Env) (am : EmailAccount * EmailMessage)
    (r : ClassifiedEmail) : Prop :=
  exists n c,
    classifyEmail E (clock E n) (snd am) (fst am) = Ok c
    /\ r = EmailSearchService.classified (fst am) (snd am) c.

(** [classifyEmail] returns for every message of the fan-out. *)
Definition fanout_classifies (E : Env) (query : string) (maxResults : Z)
    (accts : list EmailAccount) : Prop :=
  forall am now,
    In am (fanout E query maxResults accts) ->
    exists c, classifyEmail E now (snd am) (fst am) = Ok c.

(** Descending rank. *)
Definition ranked_desc {A : Type} (score : A -> Q) : A -> A -> Prop :=
  fun a b => (score b <= score a)%Q.

(** The set of string keys [s] holds the keys of the pairs of [met], and
    no other. *)
Definition agrees (s : gset string) (met : list (Z * string)) : Prop :=
  forall k, key_string k ∈ s <-> k ∈ met.

(** What the account loop of [searchEmails] keeps true: the results have
    distinct keys, the key of every result is marked as seen, and every
    result is the classified result of a message of the fan-out [l]. *)
Definition loop_invariant (E : Env) (l : list (EmailAccount * EmailMessage))
    (st : SearchLoop) : Prop :=
  List.NoDup (map result_key (allResults st))
  /\ (forall r, In r (allResults st) -> key_string (result_key r) ∈ seen st)
  /\ (forall r, In r (allResults st) -> exists am, In am l /\ classified_from E am r).

(** A text without a colon. *)
Definition no_colon (s : string) : Prop :=
  all_chars (fun c => negb (Ascii.eqb c ":")) s = true.

(** The provider fields of an IMAP request are all present (and truthy). *)
Definition imap_fields_complete (params : AddAccountParams) : bool :=
  truthy_str (p_host params) && truthy_num (p_port params)
  && truthy_str (p_username params) && truthy_str (p_password params).

(** The request passes the field validation of [addEmailAccount]. *)
Definition request_valid (params : AddAccountParams) : bool :=
  truthy_str (p_accountName params) && truthy_str (p_email params)
  && ((String.eqb (default "" (p_provider params)) "gmail"
       && truthy_str (p_refreshToken params))
      || (String.eqb (default "" (p_provider params)) "imap"
          && imap_fields_complete params)).

(** The friendly name is the name of a stored account. *)
Definition name_taken (name : string) (w : World) : bool :=
  existsb (fun a => String.eqb (acc_accountName a) name) (accounts w).

(** The factory has a client for the provider of the account. *)
Definition has_client (account : EmailAccount) : bool :=
  match EmailClientFactory.createClient account with
  | Ok _ => true
  | Throw _ => false
  end.

(** The empty answers of the two query handlers. *)
Definition empty_search_response (query : string) : SearchResponse :=
  {| sr_success := true; sr_query := query; sr_totalResults := 0; sr_results := [] |}.

Definition empty_urgent_response : UrgentResponse :=
  {| ur_success := true; ur_urgent_count := 0; ur_urgent_emails := [];
     ur_important_count := 0; ur_important_emails := [] |}.


(** ** Notions of the further properties *)

(** A pattern character in lower case. *)
Definition lower_atom (a : atom) : atom :=
  match a with
  | Lit c => Lit (lower_char c)
  | AnyChar => AnyChar
  end.

(** The cache row [row] holds the classified result [r]. *)
Definition cached_as (r : ClassifiedEmail) (row : CacheRow) : Prop :=
  row_subject row = ce_subject r /\ row_sender row = ce_from r
  /\ row_recipients row = ce_recipients r /\ row_snippet row = ce_snippet r
  /\ row_is_urgent row = ce_isUrgent r /\ row_is_important row = ce_isImportant r
  /\ row_urgency_score row = ce_urgencyScore r
  /\ row_importance_score row = ce_importanceScore r
  /\ row_importance_reason row = ce_importanceReason r
  /\ row_received_at row = ce_receivedAt r /\ row_is_read row = ce_isRead r
  /\ row_has_attachments row = ce_hasAttachments r.

(** The merged results of [searchEmails], before they are ranked and cut. *)
Definition merged_results (E : Env) (criteria : SearchCriteria) (w : World)
  : list ClassifiedEmail :=
  allResults
    (EmailSearchService.search_loop E (sc_query criteria)
       (default 50 (sc_maxResults criteria))
       (EmailSearchService.accountsToSearch criteria w) w).

(** What the account loop of [searchEmails] keeps true of the cache, from
    the world [w0] it started in. *)
Definition cache_invariant (w0 : World) (st : SearchLoop) : Prop :=
  (forall r, In r (allResults st) -> key_string (result_key r) ∈ seen st)
  /\ accounts (world st) = accounts w0
  /\ account_seq (world st) = account_seq w0
  /\ (forall r, In r (allResults st) ->
        exists row, search_results (world st) !! result_key r = Some row /\ cached_as r row)
  /\ (forall k, (forall r, In r (allResults st) -> result_key r <> k) ->
        search_results (world st) !! k = search_results w0 !! k).

(** What the account loop of [getUrgentAndImportantEmails] keeps true, from
    the world [w0] it started in. *)
Definition bucket_invariant (w0 : World) (st : UrgentLoop) : Prop :=
  List.NoDup (map result_key (urgentEmails st))
  /\ List.NoDup (map result_key (importantEmails st))
  /\ (forall r, In r (urgentEmails st) \/ In r (importantEmails st) ->
        key_string (result_key r) ∈ useen st)
  /\ Forall (fun r => ce_isUrgent r = true) (urgentEmails st)
  /\ Forall (fun r => ce_isImportant r = true) (importantEmails st)
  /\ accounts (uworld st) = accounts w0
  /\ account_seq (uworld st) = account_seq w0
  /\ search_results (uworld st) = search_results w0.


(** The five queries of [GmailClient.getUrgentEmails]. *)
Definition gmail_urgent_queries : list string :=
  ["is:important"; "label:important"; "is:starred"; "has:red-star";
   "in:inbox newer_than:1d"]%string.

(** What the query loop of [getUrgentEmails] keeps true: the messages kept
    have distinct ids, and [seen] holds exactly their ids. *)
Definition kept_invariant (all : list EmailMessage) (seen : gset string) : Prop :=
  List.NoDup (map msg_id all) /\ (forall id, id ∈ seen <-> In id (map msg_id all)).

(** A well-formed state of the two tables: the ids of the accounts are
    distinct, positive and at most the rowid sequence; the friendly names
    are distinct ([UNIQUE]); every provider is one of the two the table
    admits ([CHECK]); every cache row belongs to a stored account
    ([FOREIGN KEY]). *)
Definition registry_ok (w : World) : Prop :=
  List.NoDup (map acc_id (accounts w))
  /\ List.NoDup (map acc_accountName (accounts w))
  /\ 0 <= account_seq w
  /\ (forall a, In a (accounts w) -> 0 < acc_id a <= account_seq w)
  /\ (forall a, In a (accounts w) ->
        acc_provider a = "gmail"%string \/ acc_provider a = "imap"%string)
  /\ (forall k row, search_results w !! k = Some row ->
        exists a, In a (accounts w) /\ acc_id a = fst k).

(** The database before the first account is added. *)
Definition empty_world : World :=
  {| accounts := []; account_seq := 0; search_results := ∅; client_calls := []; ticks := 0 |}.

(** A character of the ASCII range.  On such characters the case mappings
    of the embedding are those of [String.prototype.toLowerCase] and of the
    [i] flag. *)
Definition is_ascii (c : ascii) : bool := (nat_of_ascii c <? 128)%nat.



(** Splits the goal on every [Qmin] in it, with the case lemma [cases]. *)
Ltac min_cases cases :=
  repeat match goal with
         | |- context [Qmin ?x ?y] =>
             let Heq := fresh "Heq" in
             let H := fresh "Hm" in
             destruct (cases x y) as [[Heq H]|[Heq H]]; rewrite !Heq in *; clear Heq
         | H0 : context [Qmin ?x ?y] |- _ =>
             let Heq := fresh "Heq" in
             let H := fresh "Hm" in
             destruct (cases x y) as [[Heq H]|[Heq H]]; rewrite !Heq in *; clear Heq
         end.

(** ** Inputs of the examples *)

(** An environment in which every pattern outside the modelled fragment is
    rejected, the Gmail API answers with [answer], and the clock stands at
    [now]. *)
Definition example_env (answer : EmailAccount -> outcome (list EmailMessage)) (now : Z) : Env :=
  {| regexp_general := fun _ _ => None;
     gmail_searchMessages := fun account _ _ => answer account;
     clock := fun _ => now |}.

Definition example_message (id subject : string) (receivedAt : Z) (isRead : bool)
  : EmailMessage :=
  {| msg_id := id; msg_subject := subject; msg_from := "sender@example.com";
     msg_to := ["me@example.com"%string]; msg_snippet := "";
     msg_receivedAt := receivedAt; msg_isRead := isRead;
     msg_hasAttachments := false; msg_labels := [] |}.

Definition example_account (id : Z) (name provider : string) (urgent : list string)
  : EmailAccount :=
  {| acc_id := id; acc_accountName := name; acc_email := "me@example.com";
     acc_provider := provider; acc_providerConfig := GmailConfig "token" None;
     acc_isActive := true; acc_lastSyncAt := None; acc_syncError := None;
     acc_defaultMailbox := "INBOX"; acc_includeSent := false;
     acc_includeArchived := false; acc_autoDetectPriority := true;
     acc_customUrgentKeywords := urgent; acc_customImportantKeywords := [] |}.

Definition example_world (accts : list EmailAccount) : World :=
  {| accounts := accts; account_seq := Z.of_nat (length accts);
     search_results := ∅; client_calls := []; ticks := 0 |}.

(** One day, in milliseconds. *)
Definition day : Z := 1000 * 60 * 60 * 24.

(* ================================================================== *)
(** * 12. Rational arithmetic of the scores *)
(* ================================================================== *)

Lemma Qmin_cases (x y : Q) :
  (Qmin x y = x /\ (x <= y)%Q) \/ (Qmin x y = y /\ (y <= x)%Q).
Proof.
  unfold Qmin, GenericMinMax.gmin.
  destruct (x ?= y)%Q eqn:Hc.
  - left. split; [reflexivity|]. apply Qeq_alt in Hc. rewrite Hc. apply Qle_refl.
  - left. split; [reflexivity|]. apply Qlt_alt in Hc. apply Qlt_le_weak, Hc.
  - right. split; [reflexivity|]. apply Qgt_alt in Hc. apply Qlt_le_weak, Hc.
Qed.

Lemma Qof_nat_nonneg (n : nat) : (0 <= Qof_nat n)%Q.
Proof. unfold Qof_nat, Qle. simpl. lia. Qed.

Lemma keyword_bonus_nonneg (n : nat) : (0 <= keyword_bonus n)%Q.
Proof.
  unfold keyword_bonus.
  pose proof (Qof_nat_nonneg n) as Hn.
  destruct (Qmin_cases (Qof_nat n * 0.15) 0.5) as [[-> _]|[-> _]]; [|lra].
  nra.
Qed.

Lemma keyword_bonus_le_half (n : nat) : (keyword_bonus n <= 0.5)%Q.
Proof.
  unfold keyword_bonus.
  destruct (Qmin_cases (Qof_nat n * 0.15) 0.5) as [[-> H]|[-> _]]; [exact H|lra].
Qed.

(** One match at least is worth 0.15 at least. *)
Lemma keyword_bonus_ge (n : nat) : (0 < n)%nat -> (0.15 <= keyword_bonus n)%Q.
Proof.
  intros Hn. unfold keyword_bonus.
  assert (1 <= Qof_nat n)%Q as H1.
  { unfold Qof_nat, Qle. simpl. lia. }
  destruct (Qmin_cases (Qof_nat n * 0.15) 0.5) as [[-> _]|[-> _]]; lra.
Qed.

(** The clamp and the threshold of the last step of [classifyEmail]. *)
Lemma clamp_threshold (u : Q) :
  (0 <= u)%Q ->
  (0 <= Qmin u 1)%Q /\ (Qmin u 1 <= 1)%Q
  /\ (Qle_bool 0.3 u = true <-> (0.3 <= Qmin u 1)%Q).
Proof.
  intros Hu. rewrite Qle_bool_iff.
  destruct (Qmin_cases u 1) as [[-> H]|[-> H]]; repeat split; intros; lra.
Qed.

Lemma keyword_loop_nonneg E mk text kws :
  forall score rs score' rs',
    (0 <= score)%Q ->
    keyword_loop E mk text kws score rs = Ok (score', rs') ->
    (0 <= score')%Q.
Proof.
  induction kws as [|kw kws IH]; intros score rs score' rs' Hs Hl; simpl in Hl.
  - injection Hl as <- _. exact Hs.
  - destruct (match_count E kw text) as [n|]; [|discriminate].
    destruct (0 <? n)%nat.
    + eapply IH; [|exact Hl]. pose proof (keyword_bonus_nonneg n). lra.
    + eapply IH; eauto.
Qed.

(* ================================================================== *)
(** * 13. The classification engine *)
(* ================================================================== *)

Lemma classify_signals_scores now m a u0 i0 rs :
  (0 <= u0)%Q -> (0 <= i0)%Q ->
  let c := classify_signals now m a u0 i0 rs in
  ((0 <= urgencyScore c)%Q /\ (urgencyScore c <= 1)%Q
   /\ (isUrgent c = true <-> (0.3 <= urgencyScore c)%Q))
  /\ ((0 <= importanceScore c)%Q /\ (importanceScore c <= 1)%Q
      /\ (isImportant c = true <-> (0.3 <= importanceScore c)%Q)).
Proof.
  intros Hu Hi. unfold classify_signals.
  destruct (negb (msg_isRead m));
    destruct (msg_hasAttachments m);
    destruct (String.eqb (acc_provider a) "gmail"
              && (list_includes (msg_labels m) "IMPORTANT"
                  || list_includes (msg_labels m) "STARRED"));
    destruct (Qlt_bool (daysSinceReceived now m) 1);
    cbn [isUrgent isImportant urgencyScore importanceScore];
    split; apply clamp_threshold;
    repeat match goal with
           | |- context [Qmin ?x 1] =>
               destruct (Qmin_cases x 1) as [[-> _]|[-> _]]
           end; lra.
Qed.

Lemma classify_signals_reasons now m a u0 i0 rs :
  reasons (classify_signals now m a u0 i0 rs) = rs ++ signal_reasons now m a.
Proof.
  unfold classify_signals, signal_reasons.
  destruct (negb (msg_isRead m));
    destruct (msg_hasAttachments m);
    destruct (String.eqb (acc_provider a) "gmail"
              && (list_includes (msg_labels m) "IMPORTANT"
                  || list_includes (msg_labels m) "STARRED"));
    destruct (Qlt_bool (daysSinceReceived now m) 1);
    cbn [reasons]; rewrite <- ?app_assoc; simpl; rewrite ?app_nil_r; reflexivity.
Qed.

Lemma keyword_loop_reasons E mk text kws :
  forall score rs score' rs',
    keyword_loop E mk text kws score rs = Ok (score', rs') ->
    rs' = rs ++ map mk (matching_keywords E text kws).
Proof.
  induction kws as [|kw kws IH]; intros score rs score' rs' Hl; simpl in Hl.
  - injection Hl as _ <-. simpl. now rewrite app_nil_r.
  - unfold matching_keywords. simpl.
    destruct (match_count E kw text) as [n|]; [|discriminate].
    destruct (0 <? n)%nat.
    + apply IH in Hl. rewrite Hl. simpl. now rewrite <- app_assoc.
    + now apply IH in Hl.
Qed.

(** The shape of a successful classification. *)
Lemma classifyEmail_Ok E now m a c :
  classifyEmail E now m a = Ok c ->
  exists u0 i0 rs_u rs_i,
    keyword_loop E urgent_reason (classify_text m) (urgentKeywords a) 0%Q [] = Ok (u0, rs_u)
    /\ keyword_loop E important_reason (classify_text m) (importantKeywords a) 0%Q rs_u
       = Ok (i0, rs_i)
    /\ c = classify_signals now m a u0 i0 rs_i.
Proof.
  unfold classifyEmail. intros H.
  destruct (keyword_loop E urgent_reason _ _ _ _) as [[u0 rs_u]|e] eqn:Hu; [|discriminate].
  destruct (keyword_loop E important_reason _ _ _ _) as [[i0 rs_i]|e] eqn:Hi; [|discriminate].
  injection H as <-. exists u0, i0, rs_u, rs_i. repeat split. exact Hi.
Qed.

(** C1. Whatever the message and the keyword configuration of the account,
    the scores [classifyEmail] returns lie in [0,1], [isUrgent] holds exactly
    when the returned urgency score is at least 0.3, and [isImportant] holds
    exactly when the returned importance score is at least 0.3. *)
Theorem classifyEmail_scores_and_flags E now message account c :
  classifyEmail E now message account = Ok c ->
  (0 <= urgencyScore c)%Q /\ (urgencyScore c <= 1)%Q
  /\ (0 <= importanceScore c)%Q /\ (importanceScore c <= 1)%Q
  /\ (isUrgent c = true <-> (0.3 <= urgencyScore c)%Q)
  /\ (isImportant c = true <-> (0.3 <= importanceScore c)%Q).
Proof.
  intros H. apply classifyEmail_Ok in H as (u0 & i0 & rs_u & rs_i & Hu & Hi & ->).
  apply keyword_loop_nonneg in Hu; [|lra].
  apply keyword_loop_nonneg in Hi; [|lra].
  destruct (classify_signals_scores now message account u0 i0 rs_i Hu Hi)
    as [(U1 & U2 & U3) (I1 & I2 & I3)].
  repeat split; try assumption; try apply U3; try apply I3.
Qed.

(** The classifier returns whenever the keywords of the account lie in the
    modelled fragment (the default keywords do). *)
Lemma keyword_loop_returns E mk text kws :
  Forall (fun kw => parse_keyword kw <> None) kws ->
  forall score rs, exists r, keyword_loop E mk text kws score rs = Ok r.
Proof.
  induction 1 as [|kw kws Hkw _ IH]; intros score rs; simpl.
  - eauto.
  - unfold match_count. destruct (parse_keyword kw); [|congruence].
    destruct (0 <? _)%nat; apply IH.
Qed.

Lemma classifies_parsed E account :
  Forall (fun kw => parse_keyword kw <> None) (urgentKeywords account) ->
  Forall (fun kw => parse_keyword kw <> None) (importantKeywords account) ->
  classifies E account.
Proof.
  intros Hu Hi now m. unfold classifyEmail.
  destruct (keyword_loop_returns E urgent_reason (classify_text m) _ Hu 0%Q [])
    as [[u0 rs_u] ->].
  destruct (keyword_loop_returns E important_reason (classify_text m) _ Hi 0%Q rs_u)
    as [[i0 rs_i] ->].
  eauto.
Qed.

Lemma default_keywords_parse :
  Forall (fun kw => parse_keyword kw <> None) DEFAULT_URGENT_KEYWORDS
  /\ Forall (fun kw => parse_keyword kw <> None) DEFAULT_IMPORTANT_KEYWORDS.
Proof. split; repeat constructor; discriminate. Qed.

Lemma classifyEmail_scores_and_flags_witness :
  exists c,
    classifyEmail (example_env (fun _ => Ok []) 0) day
      (example_message "m1" "URGENT: deadline moved" 0 false)
      (example_account 1 "Work" "gmail" []) = Ok c
    /\ (0 <= urgencyScore c)%Q /\ (urgencyScore c <= 1)%Q
    /\ (0 <= importanceScore c)%Q /\ (importanceScore c <= 1)%Q
    /\ (isUrgent c = true <-> (0.3 <= urgencyScore c)%Q)
    /\ (isImportant c = true <-> (0.3 <= importanceScore c)%Q).
Proof.
  eexists. split; [vm_compute; reflexivity|].
  apply (classifyEmail_scores_and_flags (example_env (fun _ => Ok []) 0) day
           (example_message "m1" "URGENT: deadline moved" 0 false)
           (example_account 1 "Work" "gmail" [])).
  vm_compute. reflexivity.
Defined.

(** The text, the keyword lists and the later signals are all that
    [classifyEmail] reads of the message and of the account. *)
Lemma classify_text_same m1 m2 : same_content m1 m2 -> classify_text m1 = classify_text m2.
Proof. intros (Hs & Hn & _). unfold classify_text. now rewrite Hs, Hn. Qed.

Lemma classify_signals_same now m1 m2 a1 a2 u i rs :
  same_content m1 m2 -> same_preferences a1 a2 ->
  classify_signals now m1 a1 u i rs = classify_signals now m2 a2 u i rs.
Proof.
  intros (_ & _ & Ht & Hr & Ha & Hl) (_ & _ & Hp).
  unfold classify_signals, daysSinceReceived. now rewrite Ht, Hr, Ha, Hl, Hp.
Qed.

(** The reason list of a classification, in the fixed step order. *)
Lemma classifyEmail_reasons E now m a c :
  classifyEmail E now m a = Ok c ->
  reasons c =
    map urgent_reason (matching_keywords E (classify_text m) (urgentKeywords a))
    ++ map important_reason (matching_keywords E (classify_text m) (importantKeywords a))
    ++ signal_reasons now m a.
Proof.
  intros H. apply classifyEmail_Ok in H as (u0 & i0 & rs_u & rs_i & Hu & Hi & ->).
  apply keyword_loop_reasons in Hu, Hi. simpl in Hu. subst rs_u rs_i.
  rewrite classify_signals_reasons. now rewrite <- app_assoc.
Qed.

(** C2, as amended.  Two calls of [classifyEmail] made at the same reading of
    the clock, on messages with the same content and for accounts with the
    same keyword lists and the same provider, have the same outcome: the same
    scores, flags and ordered reason list.  The reason list holds the
    reasons of the matching urgent keywords in keyword-list order, then those
    of the matching important keywords in keyword-list order, then the
    unread, attachment, Gmail-label and recency reasons. *)
Theorem classifyEmail_deterministic E now m1 m2 a1 a2 :
  same_content m1 m2 ->
  same_preferences a1 a2 ->
  classifyEmail E now m1 a1 = classifyEmail E now m2 a2
  /\ forall c,
       classifyEmail E now m1 a1 = Ok c ->
       reasons c =
         map urgent_reason (matching_keywords E (classify_text m1) (urgentKeywords a1))
         ++ map important_reason
              (matching_keywords E (classify_text m1) (importantKeywords a1))
         ++ signal_reasons now m1 a1.
Proof.
  intros Hm Ha. split; [|intros c; apply classifyEmail_reasons].
  unfold classifyEmail, urgentKeywords, importantKeywords.
  rewrite (classify_text_same m1 m2 Hm).
  destruct Ha as (Hu & Hi & Hp). rewrite Hu, Hi.
  destruct (keyword_loop E urgent_reason _ _ _ _) as [[u0 rs_u]|e]; [|reflexivity].
  destruct (keyword_loop E important_reason _ _ _ _) as [[i0 rs_i]|e]; [|reflexivity].
  f_equal. apply classify_signals_same; [exact Hm|]. now repeat split.
Qed.

(** The same message shown by two accounts that differ in identifier and
    name only, classified at the same time. *)
Lemma classifyEmail_deterministic_witness :
  let E := example_env (fun _ => Ok []) 0 in
  let m := example_message "m1" "Contract review: deadline today" 0 false in
  let a1 := example_account 1 "Work" "gmail" ["deadline"%string] in
  let a2 := example_account 2 "Home" "gmail" ["deadline"%string] in
  classifyEmail E (day - 1) m a1 = classifyEmail E (day - 1) m a2
  /\ forall c,
       classifyEmail E (day - 1) m a1 = Ok c ->
       reasons c =
         [urgent_reason "deadline"; important_reason "contract"; important_reason "review";
          "Email is unread"; "Received within last 24 hours"]%string.
Proof.
  intros E m a1 a2.
  destruct (classifyEmail_deterministic E (day - 1) m m a1 a2) as [Heq Hrs].
  - repeat split.
  - repeat split.
  - split; [exact Heq|]. intros c Hc. rewrite (Hrs c Hc). vm_compute. reflexivity.
Defined.

(** C2 as stated fails: the recency step reads the clock, so the same
    message under the same account is classified differently by a call made
    within a day of its receipt and by a later call. *)
Lemma classifyEmail_depends_on_clock :
  let E := example_env (fun _ => Ok []) 0 in
  let m := example_message "m1" "Quarterly report" 0 true in
  let a := example_account 1 "Work" "imap" [] in
  exists c1 c2,
    classifyEmail E (day - 1) m a = Ok c1
    /\ classifyEmail E day m a = Ok c2
    /\ reasons c1 = ["Received within last 24 hours"%string]
    /\ reasons c2 = []
    /\ (urgencyScore c1 == 0.15)%Q
    /\ (urgencyScore c2 == 0)%Q.
Proof.
  do 2 eexists.
  split; [vm_compute; reflexivity|].
  split; [vm_compute; reflexivity|].
  repeat split.
Qed.

(* ================================================================== *)
(** * 14. Keyword matching *)
(* ================================================================== *)

(** What a keyword loop adds: [min(count * 0.15, 0.5)] for each keyword
    that has a match. *)
Lemma keyword_loop_score E mk text kws :
  forall score rs score' rs',
    keyword_loop E mk text kws score rs = Ok (score', rs') ->
    (score' == score + bonus_sum E text kws)%Q.
Proof.
  induction kws as [|kw kws IH]; intros score rs score' rs' Hl; simpl in Hl |- *.
  - injection Hl as <- _. lra.
  - destruct (match_count E kw text) as [[|n]|]; [| |discriminate]; simpl in Hl.
    + now apply IH in Hl.
    + apply IH in Hl. rewrite Hl. lra.
Qed.

Lemma is_word_upper_char (c : ascii) : is_word_char (upper_char c) = is_word_char c.
Proof. destruct c as [[] [] [] [] [] [] [] []]; reflexivity. Qed.

Lemma canonical_word_char (k c : ascii) :
  Ascii.eqb (upper_char k) (upper_char c) = true -> is_word_char c = is_word_char k.
Proof.
  intros H. apply Ascii.eqb_eq in H.
  rewrite <- (is_word_upper_char c), <- (is_word_upper_char k). now rewrite H.
Qed.

Lemma parse_keyword_literal (kw : string) :
  all_chars (fun c => negb (is_syntax_char c) && negb (Ascii.eqb c ".")) kw = true ->
  parse_keyword kw = Some (literal_atoms kw).
Proof.
  induction kw as [|c kw IH]; simpl; [reflexivity|].
  intros H. apply andb_prop in H as [Hc Hkw]. apply andb_prop in Hc as [Hs Hd].
  apply negb_true_iff in Hs, Hd. rewrite Hs, (IH Hkw), Hd. reflexivity.
Qed.

Lemma literal_atoms_length (kw : string) : length (literal_atoms kw) = String.length kw.
Proof. induction kw; simpl; congruence. Qed.

Lemma last_char_cons (k : ascii) (kw : string) :
  exists k', last_char (String k kw) = Some k'.
Proof.
  revert k. induction kw as [|c kw IH]; intros k; [now exists k|].
  destruct (IH c) as [k' Hk']. exists k'. exact Hk'.
Qed.

(** The atoms of a keyword match where the keyword occurs, and the last
    character they consume is a word character exactly when the last
    character of the keyword is one. *)
Lemma match_atoms_literal (kw : string) :
  forall last s,
    match occurs_at kw s with
    | Some rest =>
        exists l, match_atoms (literal_atoms kw) last s = Some (l, rest)
                  /\ is_word_opt l = match last_char kw with
                                     | Some k => is_word_char k
                                     | None => is_word_opt last
                                     end
    | None => match_atoms (literal_atoms kw) last s = None
    end.
Proof.
  induction kw as [|k kw IH]; intros last s; simpl.
  - eauto.
  - destruct s as [|c s]; [reflexivity|].
    destruct (Ascii.eqb (upper_char k) (upper_char c)) eqn:Hkc; [|reflexivity].
    specialize (IH (Some c) s).
    destruct (occurs_at kw s) as [rest|]; [|exact IH].
    destruct IH as (l & Hl & Hw). exists l. split; [exact Hl|].
    rewrite Hw. destruct kw as [|k' kw'].
    + simpl. now apply canonical_word_char.
    + destruct (last_char_cons k' kw') as [k0 Hk0].
      change (last_char (String k (String k' kw'))) with (last_char (String k' kw')).
      now rewrite Hk0.
Qed.

Lemma occurs_at_head (k : ascii) (kw s rest : string) :
  occurs_at (String k kw) s = Some rest ->
  is_word_opt (head_char s) = is_word_char k.
Proof.
  destruct s as [|c s]; simpl; [discriminate|].
  destruct (Ascii.eqb (upper_char k) (upper_char c)) eqn:Hkc; [|discriminate].
  intros _. now apply canonical_word_char.
Qed.

(** For a plain keyword the regular expression matches at a position
    exactly when the keyword stands there as a whole word. *)
Lemma matches_at_whole_word (kw : string) (prev : option ascii) (s : string) :
  plain_keyword kw = true ->
  matches_at (literal_atoms kw) prev s = whole_word_at kw prev s.
Proof.
  unfold plain_keyword, matches_at, whole_word_at, boundary.
  intros H. apply andb_prop in H as [H Hlast]. apply andb_prop in H as [_ Hhead].
  destruct kw as [|k kw]; [discriminate|]. simpl in Hhead.
  pose proof (match_atoms_literal (String k kw) prev s) as Hm.
  pose proof (occurs_at_head k kw s) as Hh.
  destruct (occurs_at (String k kw) s) as [rest|].
  - destruct Hm as (l & -> & Hl). rewrite (Hh rest eq_refl), Hhead, Hl.
    destruct (last_char (String k kw)) as [k'|] eqn:Hk'.
    + simpl in Hlast. rewrite Hlast.
      destruct (is_word_opt prev), (is_word_opt (head_char rest)); reflexivity.
    + discriminate.
  - rewrite Hm. now rewrite !andb_false_r.
Qed.

Lemma count_from_whole_word (kw : string) :
  plain_keyword kw = true ->
  forall s prev skip,
    count_from (literal_atoms kw) prev s skip = whole_word_from kw prev s skip.
Proof.
  intros Hkw. induction s as [|c s IH]; intros prev skip.
  - destruct skip; simpl; [|reflexivity].
    rewrite matches_at_whole_word by exact Hkw. reflexivity.
  - destruct skip; simpl.
    + rewrite matches_at_whole_word by exact Hkw.
      rewrite literal_atoms_length, !IH. reflexivity.
    + apply IH.
Qed.

(** For a keyword of ordinary characters that begins and ends with a word
    character, the count [classifyEmail] works with is the number of
    whole-word occurrences of the keyword in the text. *)
Lemma match_count_plain_keyword (E : Env) (kw text : string) :
  plain_keyword kw = true ->
  match_count E kw text = Some (whole_word_occurrences kw text).
Proof.
  intros Hkw. unfold match_count, count_matches, whole_word_occurrences.
  assert (Hp := Hkw). unfold plain_keyword in Hp.
  apply andb_prop in Hp as [Hp _]. apply andb_prop in Hp as [Hp _].
  rewrite (parse_keyword_literal kw Hp). f_equal. now apply count_from_whole_word.
Qed.

Lemma default_keywords_plain :
  forallb plain_keyword DEFAULT_URGENT_KEYWORDS = true
  /\ forallb plain_keyword DEFAULT_IMPORTANT_KEYWORDS = true.
Proof. split; vm_compute; reflexivity. Qed.

(** The steps after the keyword loops do not lower the urgency score below
    what the urgent keywords gave it, up to the clamp. *)
Lemma classify_signals_urgency_ge now m a u0 i0 rs (x : Q) :
  (x <= 1)%Q -> (x <= u0)%Q ->
  (x <= urgencyScore (classify_signals now m a u0 i0 rs))%Q.
Proof.
  intros Hx Hu. unfold classify_signals.
  destruct (negb (msg_isRead m));
    destruct (msg_hasAttachments m);
    destruct (String.eqb (acc_provider a) "gmail"
              && (list_includes (msg_labels m) "IMPORTANT"
                  || list_includes (msg_labels m) "STARRED"));
    destruct (Qlt_bool (daysSinceReceived now m) 1);
    cbn [urgencyScore];
    repeat match goal with
           | |- context [Qmin ?y 1] =>
               destruct (Qmin_cases y 1) as [[-> _]|[-> _]]
           end; lra.
Qed.

Lemma bonus_sum_ge E text kw kws n :
  match_count E kw text = Some (S n) ->
  (0.15 <= bonus_sum E text (kw :: kws))%Q.
Proof.
  intros H. simpl. rewrite H.
  assert (0 <= bonus_sum E text kws)%Q as Hrest.
  { clear. induction kws as [|k kws IH]; simpl; [lra|].
    destruct (match_count E k text) as [[|m]|]; try exact IH.
    pose proof (keyword_bonus_nonneg (S m)). lra. }
  pose proof (keyword_bonus_ge (S n) ltac:(lia)). lra.
Qed.

(** No reason of the later steps reads as the reason of an urgent keyword. *)
Lemma later_reasons_not_urgent E now m a :
  Forall (fun r => string_prefix "Contains urgent keyword" r = false)
    (map important_reason (matching_keywords E (classify_text m) (importantKeywords a))
     ++ signal_reasons now m a).
Proof.
  apply Forall_app. split.
  - apply List.Forall_forall. intros r Hr. apply in_map_iff in Hr as (kw & <- & _). reflexivity.
  - unfold signal_reasons.
    destruct (negb (msg_isRead m));
      destruct (msg_hasAttachments m);
      destruct (String.eqb (acc_provider a) "gmail"
                && (list_includes (msg_labels m) "IMPORTANT"
                    || list_includes (msg_labels m) "STARRED"));
      destruct (Qlt_bool (daysSinceReceived now m) 1);
      simpl; repeat constructor.
Qed.

(** The scenario of the specification.  For an account with
    [customUrgentKeywords = ["asap"]] and a message with the subject
    "Need this ASAP please", whatever the snippet and the other signals, the
    urgency score is at least 0.15 and the reason list holds exactly one
    urgent-keyword reason, that of "asap". *)
Lemma asap_scenario E now message account c :
  msg_subject message = "Need this ASAP please"%string ->
  acc_customUrgentKeywords account = ["asap"%string] ->
  classifyEmail E now message account = Ok c ->
  (0.15 <= urgencyScore c)%Q
  /\ exists rest,
       reasons c = urgent_reason "asap" :: rest
       /\ Forall (fun r => string_prefix "Contains urgent keyword" r = false) rest.
Proof.
  intros Hsubject Hkws Hc.
  assert (exists n, match_count E "asap" (classify_text message) = Some (S n)) as [n Hn].
  { unfold classify_text. rewrite Hsubject. eexists. vm_compute. reflexivity. }
  assert (urgentKeywords account = ["asap"%string]) as Hu.
  { unfold urgentKeywords. now rewrite Hkws. }
  split.
  - apply classifyEmail_Ok in Hc as (u0 & i0 & rs_u & rs_i & Hku & _ & ->).
    apply keyword_loop_score in Hku. rewrite Hu in Hku.
    pose proof (bonus_sum_ge E (classify_text message) "asap" [] n Hn) as Hb.
    apply classify_signals_urgency_ge; lra.
  - rewrite (classifyEmail_reasons E now message account c Hc), Hu.
    unfold matching_keywords at 1. cbn [List.filter]. rewrite Hn.
    cbn [Nat.ltb Nat.leb map app].
    eexists. split; [reflexivity|]. apply later_reasons_not_urgent.
Qed.

Lemma asap_scenario_witness :
  exists c,
    classifyEmail (example_env (fun _ => Ok []) 0) (2 * day)
      (example_message "m1" "Need this ASAP please" 0 true)
      (example_account 1 "Work" "imap" ["asap"%string]) = Ok c
    /\ (urgencyScore c == 0.15)%Q
    /\ reasons c = [urgent_reason "asap"].
Proof.
  eexists. split; [vm_compute; reflexivity|].
  split; reflexivity.
Qed.

(** C3 at the failing input.  The keyword is spliced into the pattern
    unescaped: for the custom urgent keyword "a.c" and the subject "abc", in
    which the keyword does not occur, [classifyEmail] counts a match, raises
    the urgency score by 0.15 and records the reason of the keyword. *)
Theorem classifyEmail_keyword_read_as_pattern (E : Env) (now : Z) :
  whole_word_occurrences "a.c"
    (classify_text (example_message "m1" "abc" 0 true)) = 0%nat
  /\ match_count E "a.c" (classify_text (example_message "m1" "abc" 0 true)) = Some 1%nat
  /\ exists c,
       classifyEmail E now (example_message "m1" "abc" 0 true)
         (example_account 1 "Work" "imap" ["a.c"%string]) = Ok c
       /\ (0.15 <= urgencyScore c)%Q
       /\ exists rest, reasons c = urgent_reason "a.c" :: rest.
Proof.
  split; [vm_compute; reflexivity|].
  split; [vm_compute; reflexivity|].
  destruct (classifies_parsed E (example_account 1 "Work" "imap" ["a.c"%string]))
    with (now := now) (message := example_message "m1" "abc" 0 true) as [c Hc].
  - repeat constructor; discriminate.
  - apply default_keywords_parse.
  - exists c. split; [exact Hc|]. split.
    + apply classifyEmail_Ok in Hc as (u0 & i0 & rs_u & rs_i & Hku & _ & ->).
      apply keyword_loop_score in Hku.
      pose proof (bonus_sum_ge E (classify_text (example_message "m1" "abc" 0 true))
                    "a.c" [] 0 ltac:(vm_compute; reflexivity)) as Hb.
      apply classify_signals_urgency_ge; [lra|].
      change (urgentKeywords (example_account 1 "Work" "imap" ["a.c"%string]))
        with ["a.c"%string] in Hku. lra.
    + rewrite (classifyEmail_reasons _ _ _ _ _ Hc). eexists. reflexivity.
Qed.

(* ================================================================== *)
(** * 15. Sorting and slicing *)
(* ================================================================== *)

Lemma Qlt_bool_true (a b : Q) : Qlt_bool a b = true <-> (a < b)%Q.
Proof.
  unfold Qlt_bool. rewrite negb_true_iff. split.
  - intros H. apply Qnot_le_lt. intros Hle. apply Qle_bool_iff in Hle. congruence.
  - intros H. destruct (Qle_bool b a) eqn:Hb; [|reflexivity].
    apply Qle_bool_iff in Hb. lra.
Qed.

Lemma Qlt_bool_false (a b : Q) : Qlt_bool a b = false <-> (b <= a)%Q.
Proof.
  unfold Qlt_bool. rewrite negb_false_iff. apply Qle_bool_iff.
Qed.

Section Sorting.

Context {A : Type} (score : A -> Q).

Lemma insert_desc_perm (x : A) (l : list A) :
  Permutation (insert_desc score x l) (x :: l).
Proof.
  induction l as [|y l IH]; simpl; [reflexivity|].
  destruct (Qlt_bool (score x) (score y)); [|reflexivity].
  rewrite IH. apply perm_swap.
Qed.

Lemma sort_desc_perm (l : list A) : Permutation (sort_desc score l) l.
Proof.
  induction l as [|x l IH]; simpl; [reflexivity|].
  rewrite insert_desc_perm. now constructor.
Qed.

Lemma insert_desc_sorted (x : A) (l : list A) :
  StronglySorted (ranked_desc score) l ->
  StronglySorted (ranked_desc score) (insert_desc score x l).
Proof.
  induction 1 as [|y l Hs IH Hy]; simpl.
  - repeat constructor.
  - destruct (Qlt_bool (score x) (score y)) eqn:Hxy.
    + constructor; [exact IH|].
      apply Qlt_bool_true in Hxy.
      eapply Permutation_Forall; [apply Permutation_sym, insert_desc_perm|].
      constructor; [unfold ranked_desc; lra|exact Hy].
    + apply Qlt_bool_false in Hxy.
      constructor; [now constructor|].
      constructor; [exact Hxy|].
      eapply List.Forall_impl; [|exact Hy]. unfold ranked_desc. intros z Hz. simpl in Hz. lra.
Qed.

Lemma sort_desc_sorted (l : list A) : StronglySorted (ranked_desc score) (sort_desc score l).
Proof.
  induction l as [|x l IH]; simpl; [constructor|]. now apply insert_desc_sorted.
Qed.



End Sorting.

Lemma slice0_firstn {A : Type} (l : list A) (n : Z) :
  0 <= n -> slice0 l n = firstn (Z.to_nat n) l.
Proof. intros Hn. unfold slice0. destruct (Z.ltb_spec n 0); [lia|reflexivity]. Qed.

Lemma slice0_all {A : Type} (l : list A) (n : Z) :
  Z.of_nat (length l) <= n -> slice0 l n = l.
Proof.
  intros Hn. rewrite slice0_firstn by lia. apply firstn_all2. lia.
Qed.

(** Whatever the count, a slice from the start is a prefix. *)
Lemma slice0_prefix {A : Type} (l : list A) (n : Z) :
  exists rest, l = slice0 l n ++ rest.
Proof.
  unfold slice0. destruct (n <? 0).
  - eexists. symmetry. apply firstn_skipn.
  - eexists. symmetry. apply firstn_skipn.
Qed.

(* ================================================================== *)
(** * 16. Ranking of the merged results *)
(* ================================================================== *)

Lemma accountsToSearch_nonempty criteria w :
  EmailSearchService.accountsToSearch criteria w <> [] ->
  (length (EmailSearchService.accountsToSearch criteria w) =? 0)%nat = false.
Proof.
  intros H. destruct (EmailSearchService.accountsToSearch criteria w); [congruence|reflexivity].
Qed.

(** What [searchEmails] returns once there is an account to search. *)
Lemma searchEmails_returns E criteria w :
  EmailSearchService.accountsToSearch criteria w <> [] ->
  EmailSearchService.searchEmails E criteria w =
    (let maxResults := default 50 (sc_maxResults criteria) in
     let st := EmailSearchService.search_loop E (sc_query criteria) maxResults
                 (EmailSearchService.accountsToSearch criteria w) w in
     (Ok (slice0 (sort_desc EmailSearchService.rank_score (allResults st)) maxResults),
      world st)).
Proof.
  intros H. unfold EmailSearchService.searchEmails.
  now rewrite (accountsToSearch_nonempty criteria w H).
Qed.



(* ================================================================== *)
(** * 17. The composite key *)
(* ================================================================== *)

Lemma string_of_uint_no_colon (d : uint) : no_colon (NilEmpty.string_of_uint d).
Proof. unfold no_colon. induction d; simpl; auto. Qed.

Lemma string_of_uint_zero_no_colon (d : uint) : no_colon (NilZero.string_of_uint d).
Proof.
  destruct d; [reflexivity|..]; unfold NilZero.string_of_uint;
    apply string_of_uint_no_colon.
Qed.

Lemma string_of_Z_no_colon (z : Z) : no_colon (string_of_Z z).
Proof.
  unfold string_of_Z, NilZero.string_of_int.
  destruct (Z.to_int z) as [d|d].
  - apply string_of_uint_zero_no_colon.
  - unfold no_colon. cbn [all_chars]. apply string_of_uint_zero_no_colon.
Qed.

Lemma to_int_not_nil (z : Z) : Z.to_int z <> Pos Nil /\ Z.to_int z <> Neg Nil.
Proof.
  destruct z as [|p|p]; simpl; split; try discriminate;
    intros [= H]; now apply (Unsigned.to_uint_nonnil p).
Qed.

Lemma string_of_Z_inj (a b : Z) : string_of_Z a = string_of_Z b -> a = b.
Proof.
  unfold string_of_Z. intros H.
  apply (f_equal NilZero.int_of_string) in H.
  destruct (to_int_not_nil a) as [Ha1 Ha2], (to_int_not_nil b) as [Hb1 Hb2].
  rewrite !NilZero.isi in H by assumption.
  injection H as H. now apply DecimalZ.to_int_inj.
Qed.

(** A text without a colon, a colon and any text: the colon found first
    splits the whole in one way only. *)
Lemma append_colon_inj (s1 : string) :
  forall s2 m1 m2,
    no_colon s1 -> no_colon s2 ->
    s1 +:+ String ":" m1 = s2 +:+ String ":" m2 -> s1 = s2 /\ m1 = m2.
Proof.
  unfold no_colon.
  induction s1 as [|c s1 IH]; intros [|c' s2] m1 m2 H1 H2 Heq;
    cbn [all_chars] in H1, H2.
  - change (String ":" m1 = String ":" m2) in Heq. injection Heq as <-. auto.
  - change (String ":" m1 = String c' (s2 +:+ String ":" m2)) in Heq.
    injection Heq as <- _. discriminate.
  - change (String c (s1 +:+ String ":" m1) = String ":" m2) in Heq.
    injection Heq as -> _. discriminate.
  - change (String c (s1 +:+ String ":" m1) = String c' (s2 +:+ String ":" m2)) in Heq.
    injection Heq as <- Heq.
    apply andb_prop in H1 as [_ H1]. apply andb_prop in H2 as [_ H2].
    destruct (IH s2 m1 m2 H1 H2 Heq) as [-> ->]. auto.
Qed.

(** Two pairs with the same string key are the same pair. *)
Lemma key_string_inj (k1 k2 : Z * string) : key_string k1 = key_string k2 -> k1 = k2.
Proof.
  destruct k1 as [a1 m1], k2 as [a2 m2]. unfold key_string. cbn [fst snd]. intros H.
  change (string_of_Z a1 +:+ String ":" m1 = string_of_Z a2 +:+ String ":" m2) in H.
  apply append_colon_inj in H as [Ha ->]; try apply string_of_Z_no_colon.
  apply string_of_Z_inj in Ha. now subst.
Qed.

Lemma composite_key_string account msg :
  EmailSearchService.composite_key account msg = key_string (message_key (account, msg)).
Proof. reflexivity. Qed.

Lemma result_key_classified account msg c :
  result_key (EmailSearchService.classified account msg c) = message_key (account, msg).
Proof. reflexivity. Qed.

(* ================================================================== *)
(** * 18. First occurrences *)
(* ================================================================== *)

Lemma dedup_from_ext (l : list (EmailAccount * EmailMessage)) :
  forall met met' : list (Z * string),
    (forall k, k ∈ met <-> k ∈ met') -> dedup_from met l = dedup_from met' l.
Proof.
  induction l as [|am l IH]; intros met met' Hext; simpl; [reflexivity|].
  destruct (decide (message_key am ∈ met)) as [Hin|Hout];
    destruct (decide (message_key am ∈ met')) as [Hin'|Hout'].
  - now apply IH.
  - exfalso. apply Hout'. now apply Hext.
  - exfalso. apply Hout. now apply Hext.
  - f_equal. apply IH. intros k. rewrite !elem_of_cons, Hext. reflexivity.
Qed.

Lemma dedup_from_app (l1 l2 : list (EmailAccount * EmailMessage)) :
  forall met,
    dedup_from met (l1 ++ l2)
    = dedup_from met l1 ++ dedup_from (map message_key l1 ++ met) l2.
Proof.
  induction l1 as [|am l1 IH]; intros met; simpl; [reflexivity|].
  destruct (decide (message_key am ∈ met)) as [Hin|Hout].
  - rewrite IH. f_equal. apply dedup_from_ext. intros k.
    rewrite elem_of_cons, !elem_of_app. split; [tauto|].
    intros [->|H]; tauto.
  - simpl. f_equal. rewrite IH. f_equal. apply dedup_from_ext. intros k.
    rewrite elem_of_cons, !elem_of_app, elem_of_cons. tauto.
Qed.

Lemma dedup_from_subset (l : list (EmailAccount * EmailMessage)) :
  forall met am, In am (dedup_from met l) -> In am l.
Proof.
  induction l as [|x l IH]; intros met am; simpl; [tauto|].
  destruct (decide (message_key x ∈ met)).
  - intros H. right. eapply IH, H.
  - intros [->|H]; [now left|]. right. eapply IH, H.
Qed.

(** Every pair of the list is met before or has a first occurrence. *)
Lemma dedup_from_covers (l : list (EmailAccount * EmailMessage)) :
  forall met am,
    In am l ->
    message_key am ∈ met
    \/ exists am', In am' (dedup_from met l) /\ message_key am' = message_key am.
Proof.
  induction l as [|x l IH]; intros met am; simpl; [tauto|].
  intros [->|Hin].
  - destruct (decide (message_key am ∈ met)); [now left|].
    right. exists am. split; [now left|reflexivity].
  - destruct (decide (message_key x ∈ met)) as [Hx|Hx].
    + now apply IH.
    + destruct (IH (message_key x :: met) am Hin) as [Hmet|(am' & Ham' & Hk)].
      * apply elem_of_cons in Hmet as [Heq|Hmet]; [|now left].
        right. exists x. split; [now left|now symmetry].
      * right. exists am'. split; [now right|exact Hk].
Qed.

(** The pairs that are kept have distinct keys, none of them met before. *)
Lemma dedup_from_NoDup (l : list (EmailAccount * EmailMessage)) :
  forall met,
    List.NoDup (map message_key (dedup_from met l))
    /\ forall am, In am (dedup_from met l) -> message_key am ∉ met.
Proof.
  induction l as [|x l IH]; intros met; simpl.
  - split; [constructor|tauto].
  - destruct (decide (message_key x ∈ met)) as [Hx|Hx]; [apply IH|].
    destruct (IH (message_key x :: met)) as [Hnd Hout].
    split.
    + simpl. constructor; [|exact Hnd].
      intros Hin. apply in_map_iff in Hin as (am & Hk & Ham).
      apply (Hout am Ham). rewrite Hk. now left.
    + intros am [<-|Ham]; [exact Hx|].
      intros Hmet. apply (Hout am Ham). now right.
Qed.

(* ================================================================== *)
(** * 19. The account loop of [searchEmails] *)
(* ================================================================== *)

Lemma NoDup_snoc {A : Type} (x : A) (l : list A) :
  List.NoDup l -> ~ In x l -> List.NoDup (l ++ [x]).
Proof.
  intros Hl Hx. apply (Permutation_NoDup (l := x :: l)).
  - apply Permutation_cons_append.
  - now constructor.
Qed.

(** The message loop keeps the invariant, whether [classifyEmail] throws or not. *)
Lemma classify_messages_invariant E l account messages :
  (forall msg, In msg messages -> In (account, msg) l) ->
  forall st,
    loop_invariant E l st ->
    loop_invariant E l (EmailSearchService.classify_messages E account messages st).
Proof.
  induction messages as [|msg messages IH]; intros Hl st Hinv; simpl; [exact Hinv|].
  assert (forall m, In m messages -> In (account, m) l) as Hl' by (intros m Hm; apply Hl; now right).
  destruct (decide (EmailSearchService.composite_key account msg ∈ seen st)) as [Hseen|Hnew];
    [now apply IH|].
  destruct Hinv as (Hnd & Hkeys & Hfrom).
  destruct (classifyEmail E _ msg account) as [c|e] eqn:Hc.
  - apply IH; [exact Hl'|]. unfold loop_invariant. cbn [allResults seen].
    split; [|split].
    + rewrite map_app. cbn [map]. apply NoDup_snoc; [exact Hnd|].
      intros Hin. apply in_map_iff in Hin as (r & Hr & Hin).
      apply Hnew. rewrite composite_key_string, <- result_key_classified with (c := c), <- Hr.
      now apply Hkeys.
    + intros r Hin. apply in_app_or in Hin as [Hin|[<-|[]]].
      * apply elem_of_union_r. now apply Hkeys.
      * apply elem_of_union_l, elem_of_singleton. reflexivity.
    + intros r Hin. apply in_app_or in Hin as [Hin|[<-|[]]]; [now apply Hfrom|].
      exists (account, msg). split; [apply Hl; now left|].
      eexists _, c. split; [exact Hc|reflexivity].
  - unfold loop_invariant. cbn [allResults seen].
    split; [exact Hnd|]. split; [|exact Hfrom].
    intros r Hin. apply elem_of_union_r. now apply Hkeys.
Qed.

Lemma search_account_invariant E l query maxResults account :
  (forall msgs msg,
      provider_messages E query maxResults account = Ok msgs ->
      In msg msgs -> In (account, msg) l) ->
  forall st,
    loop_invariant E l st ->
    loop_invariant E l (EmailSearchService.search_account E query maxResults st account).
Proof.
  intros Hl st Hinv.
  unfold EmailSearchService.search_account, provider_messages in *.
  destruct (EmailClientFactory.createClient account) as [client|e]; [|exact Hinv].
  destruct (client_search E client query (maxResults * 2)) as [msgs|e].
  - apply classify_messages_invariant; [|exact Hinv].
    intros msg Hmsg. now apply (Hl msgs).
  - exact Hinv.
Qed.

Lemma in_fanout E query maxResults accts account msgs msg :
  In account accts ->
  provider_messages E query maxResults account = Ok msgs ->
  In msg msgs ->
  In (account, msg) (fanout E query maxResults accts).
Proof.
  intros Ha Hp Hm. unfold fanout. apply in_flat_map.
  exists account. split; [exact Ha|]. rewrite Hp. now apply in_map.
Qed.

Lemma fold_search_account_invariant E l query maxResults accts :
  (forall account msgs msg,
      In account accts ->
      provider_messages E query maxResults account = Ok msgs ->
      In msg msgs -> In (account, msg) l) ->
  forall st,
    loop_invariant E l st ->
    loop_invariant E l
      (fold_left (EmailSearchService.search_account E query maxResults) accts st).
Proof.
  induction accts as [|account accts IH]; intros Hl st Hinv; simpl; [exact Hinv|].
  apply IH.
  - intros a msgs msg Ha. apply Hl. now right.
  - apply search_account_invariant; [|exact Hinv].
    intros msgs msg. apply Hl. now left.
Qed.

Lemma search_loop_invariant E query maxResults accts w :
  loop_invariant E (fanout E query maxResults accts)
    (EmailSearchService.search_loop E query maxResults accts w).
Proof.
  apply fold_search_account_invariant.
  - intros account msgs msg. apply in_fanout.
  - repeat split; cbn [allResults]; try constructor; intros r [].
Qed.

(** When [classifyEmail] returns for the messages of the account, the
    message loop pushes the classified results of the first occurrences. *)
Lemma classify_messages_dedup E account messages :
  (forall msg now, In msg messages -> exists c, classifyEmail E now msg account = Ok c) ->
  forall st met,
    agrees (seen st) met ->
    exists rs,
      allResults (EmailSearchService.classify_messages E account messages st)
      = allResults st ++ rs
      /\ Forall2 (classified_from E) (dedup_from met (map (pair account) messages)) rs
      /\ agrees (seen (EmailSearchService.classify_messages E account messages st))
           (map message_key (map (pair account) messages) ++ met).
Proof.
  induction messages as [|msg messages IH]; intros Hret st met Hag; simpl.
  - exists []. rewrite app_nil_r. repeat split; [constructor|apply Hag|apply Hag].
  - assert (forall m now, In m messages -> exists c, classifyEmail E now m account = Ok c)
      as Hret' by (intros m now Hm; apply Hret; now right).
    rewrite composite_key_string.
    destruct (decide (key_string (message_key (account, msg)) ∈ seen st)) as [Hseen|Hnew].
    + assert (message_key (account, msg) ∈ met) as Hmet by now apply Hag.
      destruct (decide (message_key (account, msg) ∈ met)); [|contradiction].
      destruct (IH Hret' st met Hag) as (rs & Hrs & Hf & Hag').
      exists rs. split; [exact Hrs|]. split; [exact Hf|].
      intros k. rewrite (Hag' k), elem_of_cons, !elem_of_app. split; [tauto|].
      intros [->|H]; tauto.
    + assert (message_key (account, msg) ∉ met) as Hmet by (intros H; now apply Hnew, Hag).
      destruct (decide (message_key (account, msg) ∈ met)); [contradiction|].
      destruct (Hret msg (clock E (ticks (world st))) (or_introl eq_refl)) as [c Hc].
      rewrite Hc.
      match goal with
      | |- context [EmailSearchService.classify_messages E account messages ?s] =>
          destruct (IH Hret' s (message_key (account, msg) :: met)) as (rs & Hrs & Hf & Hag')
      end.
      * intros k. cbn [seen]. rewrite elem_of_union, elem_of_singleton, elem_of_cons, (Hag k).
        split; [|intros [->|H]; tauto].
        intros [Hk|H]; [left; now apply key_string_inj|tauto].
      * exists (EmailSearchService.classified account msg c :: rs).
        split; [rewrite Hrs; cbn [allResults]; now rewrite <- app_assoc|].
        split.
        -- constructor; [|exact Hf]. eexists _, c. split; [exact Hc|reflexivity].
        -- intros k. rewrite (Hag' k), elem_of_cons, !elem_of_app, elem_of_cons. tauto.
Qed.

(** The pairs one account adds to the fan-out. *)
Lemma fanout_cons E query maxResults account accts :
  fanout E query maxResults (account :: accts)
  = match provider_messages E query maxResults account with
    | Ok messages => map (pair account) messages
    | Throw _ => []
    end ++ fanout E query maxResults accts.
Proof. reflexivity. Qed.

Lemma search_account_dedup E query maxResults account :
  (forall msgs msg now,
      provider_messages E query maxResults account = Ok msgs ->
      In msg msgs -> exists c, classifyEmail E now msg account = Ok c) ->
  forall st met,
    agrees (seen st) met ->
    exists rs,
      allResults (EmailSearchService.search_account E query maxResults st account)
      = allResults st ++ rs
      /\ Forall2 (classified_from E)
           (dedup_from met (fanout E query maxResults [account])) rs
      /\ agrees (seen (EmailSearchService.search_account E query maxResults st account))
           (map message_key (fanout E query maxResults [account]) ++ met).
Proof.
  intros Hret st met Hag.
  rewrite fanout_cons. cbn [fanout flat_map]. rewrite app_nil_r.
  unfold EmailSearchService.search_account, provider_messages in *.
  destruct (EmailClientFactory.createClient account) as [client|e].
  - destruct (client_search E client query (maxResults * 2)) as [msgs|e].
    + match goal with
      | |- context [EmailSearchService.classify_messages E account msgs ?s] =>
          destruct (classify_messages_dedup E account msgs
                      (fun msg now => Hret msgs msg now eq_refl) s met Hag)
            as (rs & Hrs & Hf & Hag')
      end.
      exists rs. auto.
    + exists []. cbn [allResults seen dedup_from map app]. rewrite app_nil_r.
      repeat split; [constructor|apply Hag|apply Hag].
  - exists []. cbn [dedup_from map app]. rewrite app_nil_r.
    repeat split; [constructor|apply Hag|apply Hag].
Qed.

Lemma fold_search_account_dedup E query maxResults accts :
  fanout_classifies E query maxResults accts ->
  forall st met,
    agrees (seen st) met ->
    exists rs,
      allResults (fold_left (EmailSearchService.search_account E query maxResults) accts st)
      = allResults st ++ rs
      /\ Forall2 (classified_from E) (dedup_from met (fanout E query maxResults accts)) rs.
Proof.
  induction accts as [|account accts IH]; intros Hret st met Hag.
  - exists []. simpl. rewrite app_nil_r. split; [reflexivity|constructor].
  - simpl fold_left. rewrite fanout_cons.
    destruct (search_account_dedup E query maxResults account) with (st := st) (met := met)
      as (rs1 & Hrs1 & Hf1 & Hag1); [|exact Hag|].
    { intros msgs msg now Hp Hm.
      apply (Hret (account, msg) now). eapply in_fanout; [now left|exact Hp|exact Hm]. }
    destruct (IH) with
      (st := EmailSearchService.search_account E query maxResults st account)
      (met := map message_key (fanout E query maxResults [account]) ++ met)
      as (rs2 & Hrs2 & Hf2); [|exact Hag1|].
    { intros am now Ham. apply Hret. rewrite fanout_cons. apply in_or_app. now right. }
    exists (rs1 ++ rs2). split.
    + rewrite Hrs2, Hrs1. now rewrite app_assoc.
    + rewrite dedup_from_app. apply Forall2_app.
      * rewrite fanout_cons in Hf1. cbn [fanout flat_map] in Hf1.
        rewrite app_nil_r in Hf1. exact Hf1.
      * rewrite fanout_cons in Hf2. cbn [fanout flat_map] in Hf2.
        rewrite app_nil_r in Hf2. exact Hf2.
Qed.

(** The merged results are the classified results of the first occurrences
    of the fan-out, in fan-out order. *)
Lemma search_loop_first_occurrences E query maxResults accts w :
  fanout_classifies E query maxResults accts ->
  Forall2 (classified_from E)
    (first_occurrences (fanout E query maxResults accts))
    (allResults (EmailSearchService.search_loop E query maxResults accts w)).
Proof.
  intros Hret.
  destruct (fold_search_account_dedup E query maxResults accts Hret
              {| allResults := []; seen := ∅; world := w |} [])
    as (rs & Hrs & Hf).
  - intros k. cbn [seen]. rewrite elem_of_nil. split; [|tauto].
    apply not_elem_of_empty.
  - unfold EmailSearchService.search_loop, first_occurrences. rewrite Hrs. exact Hf.
Qed.

(* ================================================================== *)
(** * 20. Deduplication and partial failure *)
(* ================================================================== *)

Lemma Forall2_in_left {A B : Type} (R : A -> B -> Prop) (l1 : list A) (l2 : list B) (x : A) :
  Forall2 R l1 l2 -> In x l1 -> exists y, In y l2 /\ R x y.
Proof.
  induction 1 as [|a b l1 l2 Hab _ IH]; simpl; [tauto|].
  intros [<-|Hx].
  - exists b. auto.
  - destruct (IH Hx) as (y & Hy & Hxy). exists y. auto.
Qed.

Lemma classified_from_key E am r : classified_from E am r -> result_key r = message_key am.
Proof. destruct am as [account msg]. intros (n & c & _ & ->). reflexivity. Qed.

(** Every pair of the fan-out has a result with its key among the merged
    results, when [classifyEmail] returns on the fan-out. *)
Lemma merged_covers_fanout E query maxResults accts w :
  fanout_classifies E query maxResults accts ->
  forall am,
    In am (fanout E query maxResults accts) ->
    exists r,
      In r (allResults (EmailSearchService.search_loop E query maxResults accts w))
      /\ result_key r = message_key am.
Proof.
  intros Hret am Ham.
  destruct (dedup_from_covers _ [] am Ham) as [Hmet|(am' & Ham' & Hk)].
  - now apply elem_of_nil in Hmet.
  - destruct (Forall2_in_left _ _ _ am'
                (search_loop_first_occurrences E query maxResults accts w Hret) Ham')
      as (r & Hr & Hfrom).
    exists r. split; [exact Hr|]. rewrite <- Hk. now apply (classified_from_key E).
Qed.

(** The results returned are among the merged results, and they are all
    of them when the merged results number at most [maxResults]. *)
Lemma ranked_slice_incl {A : Type} (score : A -> Q) (l : list A) (n : Z) (x : A) :
  In x (slice0 (sort_desc score l) n) -> In x l.
Proof.
  intros Hx. destruct (slice0_prefix (sort_desc score l) n) as [rest Hrest].
  eapply Permutation_in; [apply sort_desc_perm|].
  rewrite Hrest. apply in_or_app. now left.
Qed.

Lemma ranked_slice_all {A : Type} (score : A -> Q) (l : list A) (n : Z) :
  Z.of_nat (length l) <= n -> Permutation (slice0 (sort_desc score l) n) l.
Proof.
  intros Hn. rewrite slice0_all; [apply sort_desc_perm|].
  now rewrite (Permutation_length (sort_desc_perm score l)).
Qed.

Lemma ranked_slice_NoDup {A K : Type} (key : A -> K) (score : A -> Q) (l : list A) (n : Z) :
  List.NoDup (map key l) -> List.NoDup (map key (slice0 (sort_desc score l) n)).
Proof.
  intros Hnd. destruct (slice0_prefix (sort_desc score l) n) as [rest Hrest].
  apply (Permutation_NoDup (Permutation_map key (Permutation_sym (sort_desc_perm score l))))
    in Hnd.
  rewrite Hrest, map_app in Hnd. eapply NoDup_app_remove_r, Hnd.
Qed.

(** C4, as amended.  [searchEmails] deduplicates the fan-out by the pair
    (account id, message id): its output never holds two results with the
    same pair.  When [classifyEmail] returns on the fan-out, the merged
    results are the classified results of the first occurrences of the pairs
    of the fan-out, in fan-out order; and when they number at most
    [maxResults], every message an account returned has a result with its
    pair in the output. *)
Theorem searchEmails_deduplicates E criteria w :
  EmailSearchService.accountsToSearch criteria w <> [] ->
  let maxResults := default 50 (sc_maxResults criteria) in
  let accts := EmailSearchService.accountsToSearch criteria w in
  let st := EmailSearchService.search_loop E (sc_query criteria) maxResults accts w in
  let pairs := fanout E (sc_query criteria) maxResults accts in
  exists out,
    EmailSearchService.searchEmails E criteria w = (Ok out, world st)
    /\ List.NoDup (map result_key out)
    /\ (fanout_classifies E (sc_query criteria) maxResults accts ->
        Forall2 (classified_from E) (first_occurrences pairs) (allResults st)
        /\ (Z.of_nat (length (allResults st)) <= maxResults ->
            forall am, In am pairs -> In (message_key am) (map result_key out))).
Proof.
  intros Haccts maxResults accts st pairs.
  eexists. split; [apply (searchEmails_returns E criteria w Haccts)|].
  cbv zeta. fold maxResults accts st.
  destruct (search_loop_invariant E (sc_query criteria) maxResults accts w) as (Hnd & _ & _).
  split; [now apply ranked_slice_NoDup|].
  intros Hret. split; [now apply search_loop_first_occurrences|].
  intros Hfit am Ham.
  destruct (merged_covers_fanout E (sc_query criteria) maxResults accts w Hret am Ham)
    as (r & Hr & Hk).
  rewrite <- Hk. apply in_map.
  eapply Permutation_in; [apply Permutation_sym, ranked_slice_all, Hfit|exact Hr].
Qed.


(** [classifyEmail] returns on the fan-out of accounts it returns for, and
    it returns for an account without custom keywords. *)
Lemma fanout_account E query maxResults accts am :
  In am (fanout E query maxResults accts) -> In (fst am) accts.
Proof.
  unfold fanout. intros H. apply in_flat_map in H as (account & Ha & Hin).
  destruct (provider_messages E query maxResults account); [|destruct Hin].
  apply in_map_iff in Hin as (msg & <- & _). exact Ha.
Qed.

Lemma fanout_classifies_accounts E query maxResults accts :
  List.Forall (classifies E) accts -> fanout_classifies E query maxResults accts.
Proof.
  intros Hall am now Ham. apply fanout_account in Ham.
  rewrite List.Forall_forall in Hall. apply (Hall (fst am) Ham).
Qed.

Lemma classifies_default E account :
  acc_customUrgentKeywords account = [] ->
  acc_customImportantKeywords account = [] ->
  classifies E account.
Proof.
  intros Hu Hi. apply classifies_parsed.
  - unfold urgentKeywords. rewrite Hu. apply default_keywords_parse.
  - unfold importantKeywords. rewrite Hi. apply default_keywords_parse.
Qed.

(** Two accounts whose clients both return the message "m", twice each:
    one result for each account. *)
Lemma searchEmails_deduplicates_witness :
  let E := example_env
             (fun _ => Ok [example_message "m" "Invoice overdue" 0 true;
                           example_message "m" "Invoice overdue (resent)" 0 true]) (2 * day) in
  let w := example_world [example_account 1 "Work" "gmail" [];
                          example_account 2 "Home" "gmail" []] in
  let criteria := {| sc_query := "invoice"; sc_accounts := None; sc_mailboxes := None;
                     sc_maxResults := None; sc_minUrgencyScore := None;
                     sc_minImportanceScore := None |} in
  exists out w',
    EmailSearchService.searchEmails E criteria w = (Ok out, w')
    /\ List.NoDup (map result_key out)
    /\ In (1, "m"%string) (map result_key out)
    /\ In (2, "m"%string) (map result_key out).
Proof.
  intros E w criteria.
  destruct (searchEmails_deduplicates E criteria w) as (out & Hrun & Hnd & Hrest).
  - vm_compute. discriminate.
  - exists out. eexists. split; [exact Hrun|]. split; [exact Hnd|].
    destruct Hrest as [_ Hin].
    + apply fanout_classifies_accounts.
      repeat constructor; apply classifies_default; reflexivity.
    + assert (Z.of_nat
                (length
                   (allResults
                      (EmailSearchService.search_loop E (sc_query criteria)
                         (default 50 (sc_maxResults criteria))
                         (EmailSearchService.accountsToSearch criteria w) w)))
              <= default 50 (sc_maxResults criteria)) as Hfit
        by (vm_compute; discriminate).
      split.
      * apply (Hin Hfit (example_account 1 "Work" "gmail" [],
                         example_message "m" "Invoice overdue" 0 true)).
        vm_compute. auto.
      * apply (Hin Hfit (example_account 2 "Home" "gmail" [],
                         example_message "m" "Invoice overdue" 0 true)).
        vm_compute. auto.
Defined.

(** C4 as stated fails: two accounts return a message with the same id, the
    caller asks for one result, and the output holds the result of the first
    account only. *)
Lemma searchEmails_cut_keeps_one_of_two :
  let E := example_env
             (fun _ => Ok [example_message "m" "Invoice overdue" 0 true]) (2 * day) in
  let a1 := example_account 1 "Work" "gmail" [] in
  let a2 := example_account 2 "Home" "gmail" [] in
  let criteria := {| sc_query := "invoice"; sc_accounts := None; sc_mailboxes := None;
                     sc_maxResults := Some 1; sc_minUrgencyScore := None;
                     sc_minImportanceScore := None |} in
  exists out w',
    provider_messages E "invoice" 1 a1 = Ok [example_message "m" "Invoice overdue" 0 true]
    /\ provider_messages E "invoice" 1 a2 = Ok [example_message "m" "Invoice overdue" 0 true]
    /\ EmailSearchService.searchEmails E criteria (example_world [a1; a2]) = (Ok out, w')
    /\ map result_key out = [(1, "m"%string)].
Proof.
  do 2 eexists. split; [reflexivity|]. split; [reflexivity|].
  split; [vm_compute; reflexivity|]. reflexivity.
Qed.



(* ================================================================== *)
(** * 21. No account to search, and accounts that cannot be reached *)
(* ================================================================== *)

Lemma slice0_nil {A : Type} (n : Z) : slice0 (@nil A) n = [].
Proof. unfold slice0. destruct (n <? 0); now rewrite firstn_nil. Qed.

Lemma search_account_throw E query maxResults st account e :
  provider_messages E query maxResults account = Throw e ->
  allResults (EmailSearchService.search_account E query maxResults st account) = allResults st.
Proof.
  unfold provider_messages, EmailSearchService.search_account.
  destruct (EmailClientFactory.createClient account) as [client|]; [|reflexivity].
  intros ->. reflexivity.
Qed.

Lemma fold_search_account_all_throw E query maxResults accts :
  (forall a, In a accts -> exists e, provider_messages E query maxResults a = Throw e) ->
  forall st,
    allResults (fold_left (EmailSearchService.search_account E query maxResults) accts st)
    = allResults st.
Proof.
  induction accts as [|a accts IH]; intros Hall st; simpl; [reflexivity|].
  rewrite IH by (intros b Hb; apply Hall; now right).
  destruct (Hall a (or_introl eq_refl)) as [e He].
  now apply search_account_throw with (e := e).
Qed.

(** A client whose queries all throw or find nothing has no urgent email. *)
Lemma urgent_queries_nothing (search : string -> outcome (list EmailMessage)) queries :
  (forall q, search q = Ok [] \/ exists e, search q = Throw e) ->
  forall all met, urgent_queries search queries all met = all.
Proof.
  intros Hs. induction queries as [|q queries IH]; intros all met; simpl; [reflexivity|].
  destruct (Hs q) as [->|[e ->]]; simpl; apply IH.
Qed.

Lemma client_getUrgentEmails_unreachable E client account maxResults :
  EmailClientFactory.createClient account = Ok client ->
  (forall q n, exists e, gmail_searchMessages E account q n = Throw e) ->
  client_getUrgentEmails E client maxResults = [].
Proof.
  unfold EmailClientFactory.createClient.
  intros Hclient Hthrow.
  assert (client = ClientGmail account \/ client = ClientImap account) as [->| ->].
  { destruct (String.eqb (acc_provider account) "gmail"); [left; congruence|].
    destruct (String.eqb (acc_provider account) "imap"); [right; congruence|discriminate]. }
  - unfold client_getUrgentEmails, GmailClient.getUrgentEmails.
    rewrite urgent_queries_nothing; [apply slice0_nil|].
    intros q. right. unfold GmailClient.search.
    destruct (Hthrow q (num_or maxResults 10)) as [e ->]. eauto.
  - unfold client_getUrgentEmails, ImapClient.getUrgentEmails.
    rewrite urgent_queries_nothing; [apply slice0_nil|].
    intros q. left. unfold ImapClient.search, ImapClient.searchWithImap.
    now rewrite slice0_nil.
Qed.

Lemma fold_urgent_account_unreachable E maxResults accts :
  (forall a q n, In a accts -> exists e, gmail_searchMessages E a q n = Throw e) ->
  forall st,
    urgentEmails (fold_left (EmailSearchService.urgent_account E maxResults) accts st)
    = urgentEmails st
    /\ importantEmails (fold_left (EmailSearchService.urgent_account E maxResults) accts st)
       = importantEmails st.
Proof.
  induction accts as [|a accts IH]; intros Hall st; simpl; [auto|].
  destruct (IH (fun b q n Hb => Hall b q n (or_intror Hb))
              (EmailSearchService.urgent_account E maxResults st a)) as [-> ->].
  unfold EmailSearchService.urgent_account.
  destruct (EmailClientFactory.createClient a) as [client|] eqn:Hclient; [|auto].
  rewrite (client_getUrgentEmails_unreachable E client a (maxResults * 2) Hclient
             (fun q n => Hall a q n (or_introl eq_refl))).
  simpl. auto.
Qed.

(** C7, as amended.  A request for [searchEmails] or [getUrgentEmails] that
    passes the checks of its handler and resolves no account throws an
    [Error] with a fixed message ("No email accounts available for search",
    "No email accounts configured"), the same whether no account is stored,
    none is active or no listed id resolves.  When accounts are resolved and
    the search of every one of them fails, the call returns the ordinary
    empty answer. *)
Theorem empty_scope_throws_unreachable_returns_empty E w sparams uparams :
  truthy_str (sp_query sparams) = true ->
  default 50 (sp_maxResults sparams) <= 500 ->
  default 20 (up_maxResults uparams) <= 500 ->
  let criteria := Handlers.search_criteria sparams in
  let accts := EmailSearchService.accountsToSearch criteria w in
  (accts = [] ->
   Handlers.searchEmails E sparams w
   = (Throw (Error "No email accounts available for search"), w))
  /\ (EmailAccountService.listActiveAccounts w = [] ->
      Handlers.getUrgentEmails E uparams w
      = (Throw (Error "No email accounts configured"), w))
  /\ (accts <> [] ->
      (forall a, In a accts ->
                 exists e, provider_messages E (sc_query criteria)
                             (default 50 (sp_maxResults sparams)) a = Throw e) ->
      exists w',
        Handlers.searchEmails E sparams w
        = (Ok (empty_search_response (sc_query criteria)), w'))
  /\ (EmailAccountService.listActiveAccounts w <> [] ->
      (forall a q n, In a (EmailAccountService.listActiveAccounts w) ->
                     exists e, gmail_searchMessages E a q n = Throw e) ->
      exists w',
        Handlers.getUrgentEmails E uparams w = (Ok empty_urgent_response, w')).
Proof.
  intros Hq Hs Hu criteria accts.
  apply Z.ltb_ge in Hs, Hu.
  split; [|split; [|split]].
  - intros Hnil. unfold Handlers.searchEmails. rewrite Hq, Hs. cbn [negb].
    unfold EmailSearchService.searchEmails. fold criteria accts. now rewrite Hnil.
  - intros Hnil. unfold Handlers.getUrgentEmails. rewrite Hu.
    unfold EmailSearchService.getUrgentAndImportantEmails. now rewrite Hnil.
  - intros Hsome Hthrow. unfold Handlers.searchEmails. rewrite Hq, Hs. cbn [negb].
    fold criteria. rewrite (searchEmails_returns E criteria w Hsome). cbv zeta.
    unfold EmailSearchService.search_loop.
    change (default 50 (sc_maxResults criteria)) with (default 50 (sp_maxResults sparams)).
    rewrite (fold_search_account_all_throw E _ _ _ Hthrow). cbn [allResults sort_desc fold_right].
    rewrite slice0_nil. eexists. reflexivity.
  - intros Hsome Hthrow. unfold Handlers.getUrgentEmails. rewrite Hu.
    unfold EmailSearchService.getUrgentAndImportantEmails.
    destruct (EmailAccountService.listActiveAccounts w) as [|a active] eqn:Hactive;
      [congruence|].
    cbn [length Nat.eqb].
    match goal with
    | |- context [fold_left ?f ?l ?s] =>
        destruct (fold_urgent_account_unreachable E
                    (default 20 (up_maxResults uparams)) l Hthrow s) as [Hue Hie]
    end.
    rewrite Hue, Hie. cbn [urgentEmails importantEmails sort_desc fold_right].
    rewrite !slice0_nil. destruct (default false (up_onlyUnread uparams)); eexists; reflexivity.
Qed.

(** An empty registry, and a registry of one account that cannot be reached. *)
Lemma empty_scope_throws_unreachable_returns_empty_witness :
  let E := example_env (fun _ => Throw (Error "503 Service Unavailable")) (2 * day) in
  let sparams := {| sp_query := Some "invoice"%string; sp_accounts := None;
                    sp_mailboxes := None; sp_maxResults := None;
                    sp_minUrgencyScore := None; sp_minImportanceScore := None |} in
  let uparams := {| up_maxResults := None; up_accounts := None; up_onlyUnread := None |} in
  let w := example_world [example_account 1 "Work" "gmail" []] in
  (Handlers.searchEmails E sparams (example_world [])
   = (Throw (Error "No email accounts available for search"), example_world [])
   /\ Handlers.getUrgentEmails E uparams (example_world [])
      = (Throw (Error "No email accounts configured"), example_world []))
  /\ (exists w', Handlers.searchEmails E sparams w = (Ok (empty_search_response "invoice"), w'))
  /\ (exists w', Handlers.getUrgentEmails E uparams w = (Ok empty_urgent_response, w')).
Proof.
  intros E sparams uparams w.
  split; [|split].
  - destruct (empty_scope_throws_unreachable_returns_empty E (example_world []) sparams uparams)
      as (H1 & H2 & _); [reflexivity|discriminate|discriminate|].
    split; [now apply H1|now apply H2].
  - destruct (empty_scope_throws_unreachable_returns_empty E w sparams uparams)
      as (_ & _ & H3 & _); [reflexivity|discriminate|discriminate|].
    apply H3; [discriminate|].
    intros a [<-|[]]. eexists. reflexivity.
  - destruct (empty_scope_throws_unreachable_returns_empty E w sparams uparams)
      as (_ & _ & _ & H4); [reflexivity|discriminate|discriminate|].
    apply H4; [discriminate|].
    intros a q n _. eexists. reflexivity.
Defined.

(** C7 as stated fails: with one active account whose provider call throws,
    [searchEmails] and [getUrgentEmails] return their ordinary empty answers;
    and with no account stored and with no active account the error is the
    same. *)
Lemma unreachable_accounts_give_empty_answer :
  let E := example_env (fun _ => Throw (Error "503 Service Unavailable")) (2 * day) in
  let sparams := {| sp_query := Some "invoice"%string; sp_accounts := None;
                    sp_mailboxes := None; sp_maxResults := None;
                    sp_minUrgencyScore := None; sp_minImportanceScore := None |} in
  let uparams := {| up_maxResults := None; up_accounts := None; up_onlyUnread := None |} in
  let a := example_account 1 "Work" "gmail" [] in
  provider_messages E "invoice" 50 a
  = Throw (Error "Gmail search error: 503 Service Unavailable")
  /\ fst (Handlers.searchEmails E sparams (example_world [a]))
     = Ok (empty_search_response "invoice")
  /\ fst (Handlers.getUrgentEmails E uparams (example_world [a]))
     = Ok empty_urgent_response.
Proof. vm_compute. auto. Qed.

(* ================================================================== *)
(** * 22. Adding an account *)
(* ================================================================== *)

Lemma eqb_default_Some (o : option string) (s : string) :
  s <> ""%string -> String.eqb (default ""%string o) s = true -> o = Some s.
Proof.
  intros Hs H. apply String.eqb_eq in H. destruct o as [x|]; simpl in H; congruence.
Qed.

(** The INSERT of a row with a supported provider and a free name. *)
Lemma insert_row_fresh config w :
  String.eqb (cfg_provider config) "gmail" || String.eqb (cfg_provider config) "imap" = true ->
  name_taken (cfg_accountName config) w = false ->
  EmailAccountService.addAccount config w
  = (Ok (Some (EmailAccountService.new_row (account_seq w + 1) config)),
     {| accounts := EmailAccountService.new_row (account_seq w + 1) config :: accounts w;
        account_seq := account_seq w + 1;
        search_results := search_results w;
        client_calls := client_calls w;
        ticks := ticks w |}).
Proof.
  intros Hp Hn. unfold EmailAccountService.addAccount, EmailAccountService.insert_row.
  unfold name_taken in Hn. rewrite Hp, Hn. cbn [negb].
  unfold EmailAccountService.getAccountById. cbn [accounts List.find].
  cbn [EmailAccountService.new_row acc_id]. now rewrite Z.eqb_refl.
Qed.

(** The INSERT of a row whose name is taken. *)
Lemma insert_row_taken config w :
  String.eqb (cfg_provider config) "gmail" || String.eqb (cfg_provider config) "imap" = true ->
  name_taken (cfg_accountName config) w = true ->
  EmailAccountService.addAccount config w
  = (Throw (Error ("Account name " +:+ dquote +:+ cfg_accountName config +:+ dquote
                   +:+ " already exists")), w).
Proof.
  intros Hp Hn. unfold EmailAccountService.addAccount, EmailAccountService.insert_row.
  unfold name_taken in Hn. rewrite Hp, Hn. reflexivity.
Qed.

(** The checks of the handler, on a request that passes them. *)
Lemma addEmailAccount_valid params w :
  request_valid params = true ->
  exists config,
    cfg_accountName config = default ""%string (p_accountName params)
    /\ String.eqb (cfg_provider config) "gmail" || String.eqb (cfg_provider config) "imap" = true
    /\ Handlers.addEmailAccount params w =
       match EmailAccountService.addAccount config w with
       | (Throw e, w') => (Throw e, w')
       | (Ok None, w') => (Throw TypeError, w')
       | (Ok (Some account), w') =>
           (Ok {| aar_success := true;
                  aar_accountId := acc_id account;
                  aar_accountName := acc_accountName account;
                  aar_email := acc_email account;
                  aar_provider := acc_provider account;
                  aar_message := "Email account " +:+ dquote
                                 +:+ default ""%string (p_accountName params) +:+ dquote
                                 +:+ " added successfully" |}, w')
       end.
Proof.
  unfold request_valid, imap_fields_complete. intros H.
  apply andb_prop in H as [H Hprov]. apply andb_prop in H as [Hname Hemail].
  unfold Handlers.addEmailAccount. rewrite Hname, Hemail. cbn [negb orb].
  apply orb_prop in Hprov as [Hg|Hi].
  - apply andb_prop in Hg as [Hg Htoken].
    rewrite (eqb_default_Some _ "gmail" ltac:(discriminate) Hg).
    rewrite Htoken. cbn -[EmailAccountService.addAccount].
    eexists. split; [|split; [|reflexivity]]; reflexivity.
  - apply andb_prop in Hi as [Hi Hfields].
    rewrite (eqb_default_Some _ "imap" ltac:(discriminate) Hi).
    apply andb_prop in Hfields as [Hfields Hpw]. apply andb_prop in Hfields as [Hfields Huser].
    apply andb_prop in Hfields as [Hhost Hport].
    rewrite Hhost, Hport, Huser, Hpw. cbn -[EmailAccountService.addAccount].
    eexists. split; [|split; [|reflexivity]]; reflexivity.
Qed.

(** What [addEmailAccount] does with a request whose name, address and
    provider are present but whose provider is neither [gmail] nor [imap]:
    the handler checks no field of it, and the INSERT fails on the CHECK
    constraint of the table, before the UNIQUE constraint is looked at. *)
Lemma addEmailAccount_other_provider params w :
  truthy_str (p_accountName params) = true ->
  truthy_str (p_email params) = true ->
  truthy_str (p_provider params) = true ->
  String.eqb (default ""%string (p_provider params)) "gmail" = false ->
  String.eqb (default ""%string (p_provider params)) "imap" = false ->
  exists msg, Handlers.addEmailAccount params w = (Throw (SqliteError msg), w).
Proof.
  intros Hname Hemail Hprov Hg Hi. unfold Handlers.addEmailAccount.
  rewrite Hname, Hemail, Hprov, Hg, Hi. cbn [negb orb andb].
  unfold EmailAccountService.addAccount, EmailAccountService.insert_row.
  cbn [cfg_provider]. rewrite Hg, Hi. cbn [orb negb].
  eexists. reflexivity.
Qed.

(** C8, as amended.  [addEmailAccount] validates the provider fields before
    anything is stored: an IMAP request that lacks one of host, port,
    username and password, and a Gmail request that lacks the refresh token,
    fail with a validation error and leave the state as it was.  A request
    with name, address and a provider other than [gmail] and [imap] fails
    with the error of the driver (the CHECK constraint), whether its name is
    taken or not, and leaves the state as it was.  A request that passes the
    validation for [gmail] or [imap] and whose friendly name is free
    succeeds: the id it returns is the id under which the account is stored,
    and the stored accounts are the account and those stored before.  One
    whose friendly name is taken fails with the conflict error and leaves
    the state as it was. *)
Theorem addEmailAccount_validates_then_stores params w :
  (p_provider params = Some "imap"%string -> imap_fields_complete params = false ->
   exists e, Handlers.addEmailAccount params w = (Throw e, w) /\ is_ValidationError e)
  /\ (p_provider params = Some "gmail"%string -> truthy_str (p_refreshToken params) = false ->
      exists e, Handlers.addEmailAccount params w = (Throw e, w) /\ is_ValidationError e)
  /\ (truthy_str (p_accountName params) = true ->
      truthy_str (p_email params) = true ->
      truthy_str (p_provider params) = true ->
      p_provider params <> Some "gmail"%string ->
      p_provider params <> Some "imap"%string ->
      exists msg,
        Handlers.addEmailAccount params w = (Throw (SqliteError msg), w)
        /\ ~ is_ValidationError (SqliteError msg)
        /\ ~ is_ConflictError (SqliteError msg))
  /\ (request_valid params = true ->
      name_taken (default ""%string (p_accountName params)) w = false ->
      exists response w' account,
        Handlers.addEmailAccount params w = (Ok response, w')
        /\ aar_accountId response = account_seq w + 1
        /\ EmailAccountService.getAccountById w' (aar_accountId response) = Some account
        /\ acc_accountName account = default ""%string (p_accountName params)
        /\ (forall a, In a (accounts w') <-> a = account \/ In a (accounts w))
        /\ search_results w' = search_results w)
  /\ (request_valid params = true ->
      name_taken (default ""%string (p_accountName params)) w = true ->
      exists e, Handlers.addEmailAccount params w = (Throw e, w) /\ is_ConflictError e).
Proof.
  split; [|split; [|split; [|split]]].
  - intros Hp Hfields. unfold Handlers.addEmailAccount, is_ValidationError.
    destruct (negb (truthy_str (p_accountName params)) || negb (truthy_str (p_email params))
              || negb (truthy_str (p_provider params))); [eauto 10|].
    rewrite Hp. cbn [default String.eqb Ascii.eqb Bool.eqb andb].
    unfold imap_fields_complete in Hfields.
    destruct (truthy_str (p_host params)), (truthy_num (p_port params)),
      (truthy_str (p_username params)), (truthy_str (p_password params));
      try discriminate; cbn [negb orb]; eauto 10.
  - intros Hp Htoken. unfold Handlers.addEmailAccount, is_ValidationError.
    destruct (negb (truthy_str (p_accountName params)) || negb (truthy_str (p_email params))
              || negb (truthy_str (p_provider params))); [eauto 10|].
    rewrite Hp, Htoken. cbn [default String.eqb Ascii.eqb Bool.eqb andb negb]. eauto 10.
  - intros Hname Hemail Hprov Hg Hi.
    destruct (addEmailAccount_other_provider params w Hname Hemail Hprov) as (msg & Hrun).
    + destruct (p_provider params) as [p|]; [|discriminate]. simpl.
      apply String.eqb_neq. congruence.
    + destruct (p_provider params) as [p|]; [|discriminate]. simpl.
      apply String.eqb_neq. congruence.
    + exists msg. split; [exact Hrun|]. split.
      * unfold is_ValidationError. intros [H|[H|[H|[H|H]]]]; discriminate.
      * intros (name & H). discriminate.
  - intros Hvalid Hfree.
    destruct (addEmailAccount_valid params w Hvalid) as (config & Hname & Hprov & ->).
    rewrite <- Hname in Hfree. rewrite (insert_row_fresh config w Hprov Hfree).
    eexists _, _, (EmailAccountService.new_row (account_seq w + 1) config).
    split; [reflexivity|]. cbn [aar_accountId accounts search_results].
    split; [reflexivity|].
    split; [|split; [exact Hname|split; [|reflexivity]]].
    + unfold EmailAccountService.getAccountById. cbn [accounts List.find].
      cbn [EmailAccountService.new_row acc_id]. now rewrite Z.eqb_refl.
    + intros a. simpl. split; intros [H|H]; auto.
  - intros Hvalid Htaken.
    destruct (addEmailAccount_valid params w Hvalid) as (config & Hname & Hprov & ->).
    rewrite <- Hname in Htaken. rewrite (insert_row_taken config w Hprov Htaken).
    eexists. split; [reflexivity|]. now exists (cfg_accountName config).
Qed.

(** An IMAP request without a host, the same request with the host, and
    the same request once more. *)
Lemma addEmailAccount_validates_then_stores_witness :
  let request host :=
    {| p_accountName := Some "Work"%string; p_email := Some "me@example.com"%string;
       p_provider := Some "imap"%string; p_refreshToken := None; p_host := host;
       p_port := Some 993; p_username := Some "me"%string;
       p_password := Some "secret"%string; p_defaultMailbox := None;
       p_customUrgentKeywords := None; p_customImportantKeywords := None |} in
  let w0 := example_world [] in
  (exists e, Handlers.addEmailAccount (request None) w0 = (Throw e, w0)
             /\ is_ValidationError e)
  /\ exists response w1,
       Handlers.addEmailAccount (request (Some "imap.example.com"%string)) w0
       = (Ok response, w1)
       /\ aar_accountId response = 1
       /\ exists e,
            Handlers.addEmailAccount (request (Some "imap.example.com"%string)) w1
            = (Throw e, w1)
            /\ is_ConflictError e.
Proof.
  intros request w0. split.
  - destruct (addEmailAccount_validates_then_stores (request None) w0) as (Hreject & _).
    apply Hreject; reflexivity.
  - destruct (addEmailAccount_validates_then_stores
                (request (Some "imap.example.com"%string)) w0)
      as (_ & _ & _ & Hstore & _).
    destruct Hstore as (response & w1 & account & Hrun & Hid & _ & Hname & Haccounts & _);
      [reflexivity|reflexivity|].
    exists response, w1. split; [exact Hrun|]. split; [exact Hid|].
    destruct (addEmailAccount_validates_then_stores
                (request (Some "imap.example.com"%string)) w1)
      as (_ & _ & _ & _ & Hconflict).
    apply Hconflict; [reflexivity|].
    unfold name_taken. apply existsb_exists. exists account.
    split; [apply Haccounts; now left|]. rewrite Hname. reflexivity.
Defined.

(** C8 as stated fails: the name of the request is the name of a stored
    account, its provider is neither [gmail] nor [imap], and the request
    fails with the error of the driver, which is neither the conflict error
    nor a validation error. *)
Lemma addEmailAccount_taken_name_other_provider :
  let w := example_world [example_account 1 "Work" "gmail" []] in
  let params :=
    {| p_accountName := Some "Work"%string; p_email := Some "me@example.com"%string;
       p_provider := Some "yahoo"%string; p_refreshToken := None;
       p_host := Some "imap.mail.yahoo.com"%string; p_port := Some 993;
       p_username := Some "me"%string; p_password := Some "secret"%string;
       p_defaultMailbox := None; p_customUrgentKeywords := None;
       p_customImportantKeywords := None |} in
  name_taken "Work" w = true
  /\ exists msg,
       Handlers.addEmailAccount params w = (Throw (SqliteError msg), w)
       /\ includes msg "UNIQUE constraint" = false
       /\ ~ is_ConflictError (SqliteError msg)
       /\ ~ is_ValidationError (SqliteError msg).
Proof.
  intros w params. split; [reflexivity|].
  eexists. split; [reflexivity|]. split; [reflexivity|]. split.
  - intros (name & H). discriminate.
  - unfold is_ValidationError. intros [H|[H|[H|[H|H]]]]; discriminate.
Qed.

(* ================================================================== *)
(** * 23. The limit on [maxResults] *)
(* ================================================================== *)

(** C9. A [searchEmails] or [getUrgentEmails] request with [maxResults]
    above 500 is rejected with a validation error, and the state is the one
    the request found: no call on a provider client is recorded, the result
    cache and the account rows are untouched. *)
Theorem maxResults_above_500_is_rejected E w sparams uparams :
  500 < default 50 (sp_maxResults sparams) ->
  500 < default 20 (up_maxResults uparams) ->
  (exists e, Handlers.searchEmails E sparams w = (Throw e, w) /\ is_ValidationError e)
  /\ Handlers.getUrgentEmails E uparams w
     = (Throw (Error "maxResults cannot exceed 500"), w)
  /\ client_calls (snd (Handlers.searchEmails E sparams w)) = client_calls w
  /\ client_calls (snd (Handlers.getUrgentEmails E uparams w)) = client_calls w
  /\ search_results (snd (Handlers.searchEmails E sparams w)) = search_results w
  /\ accounts (snd (Handlers.searchEmails E sparams w)) = accounts w.
Proof.
  intros Hs Hu. apply Z.ltb_lt in Hs, Hu.
  unfold Handlers.searchEmails, Handlers.getUrgentEmails, is_ValidationError.
  rewrite Hs, Hu.
  destruct (negb (truthy_str (sp_query sparams))); cbn [snd]; repeat split; eauto 10.
Qed.

(** A request for 501 results, against a registry whose account would
    answer. *)
Lemma maxResults_above_500_is_rejected_witness :
  let E := example_env (fun _ => Ok [example_message "m1" "Urgent" 0 false]) day in
  let w := example_world [example_account 1 "Work" "gmail" []] in
  let sparams := {| sp_query := Some "invoice"%string; sp_accounts := None;
                    sp_mailboxes := None; sp_maxResults := Some 501;
                    sp_minUrgencyScore := None; sp_minImportanceScore := None |} in
  let uparams := {| up_maxResults := Some 501; up_accounts := None; up_onlyUnread := None |} in
  (exists e, Handlers.searchEmails E sparams w = (Throw e, w) /\ is_ValidationError e)
  /\ Handlers.getUrgentEmails E uparams w
     = (Throw (Error "maxResults cannot exceed 500"), w).
Proof.
  intros E w sparams uparams.
  destruct (maxResults_above_500_is_rejected E w sparams uparams) as (Hs & Hu & _);
    [reflexivity|reflexivity|].
  split; [exact Hs|exact Hu].
Defined.

(** A request within the limit does call the clients: one search on the
    client of every resolved account. *)
Lemma classify_messages_calls E account messages :
  forall st,
    client_calls (world (EmailSearchService.classify_messages E account messages st))
    = client_calls (world st).
Proof.
  induction messages as [|msg messages IH]; intros st; simpl; [reflexivity|].
  destruct (decide (EmailSearchService.composite_key account msg ∈ seen st)); [apply IH|].
  destruct (classifyEmail E _ msg account); [|reflexivity].
  rewrite IH. reflexivity.
Qed.

Lemma search_loop_calls E query maxResults accts :
  forall st,
    client_calls (world (fold_left (EmailSearchService.search_account E query maxResults)
                           accts st))
    = client_calls (world st)
      ++ map (fun a => CallSearch (acc_id a) query (maxResults * 2))
           (List.filter has_client accts).
Proof.
  induction accts as [|a accts IH]; intros st; simpl; [now rewrite app_nil_r|].
  rewrite IH. unfold EmailSearchService.search_account, has_client.
  destruct (EmailClientFactory.createClient a) as [client|]; [|reflexivity].
  destruct (client_search E client query (maxResults * 2)).
  - rewrite classify_messages_calls. cbn [world record_call client_calls map].
    now rewrite <- app_assoc.
  - cbn [world record_call client_calls map]. now rewrite <- app_assoc.
Qed.

(* ================================================================== *)
(** * 24. The account list of [getUrgentEmails] *)
(* ================================================================== *)

Lemma bucket_messages_calls E account messages :
  forall st,
    client_calls (uworld (EmailSearchService.bucket_messages E account messages st))
    = client_calls (uworld st).
Proof.
  induction messages as [|msg messages IH]; intros st; simpl; [reflexivity|].
  destruct (decide (EmailSearchService.composite_key account msg ∈ useen st)); [apply IH|].
  destruct (classifyEmail E _ msg account); [|reflexivity].
  rewrite IH. reflexivity.
Qed.

Lemma fold_urgent_account_calls E maxResults accts :
  forall st,
    client_calls (uworld (fold_left (EmailSearchService.urgent_account E maxResults) accts st))
    = client_calls (uworld st)
      ++ map (fun a => CallGetUrgentEmails (acc_id a) (maxResults * 2))
           (List.filter has_client accts).
Proof.
  induction accts as [|a accts IH]; intros st; simpl; [now rewrite app_nil_r|].
  rewrite IH. unfold EmailSearchService.urgent_account, has_client.
  destruct (EmailClientFactory.createClient a) as [client|]; [|reflexivity].
  rewrite bucket_messages_calls. cbn [uworld record_call client_calls map].
  now rewrite <- app_assoc.
Qed.

(** C10. [getUrgentEmails] does not read its [accounts] parameter: two
    requests that differ in it only have the same outcome and leave the same
    state, and the clients called are those of all the active accounts, in
    their order, whatever ids the request lists. *)
Theorem getUrgentEmails_ignores_accounts E w params1 params2 :
  up_maxResults params1 = up_maxResults params2 ->
  up_onlyUnread params1 = up_onlyUnread params2 ->
  Handlers.getUrgentEmails E params1 w = Handlers.getUrgentEmails E params2 w
  /\ (default 20 (up_maxResults params1) <= 500 ->
      client_calls (snd (Handlers.getUrgentEmails E params1 w))
      = client_calls w
        ++ map (fun a => CallGetUrgentEmails (acc_id a)
                           (default 20 (up_maxResults params1) * 2))
             (List.filter has_client (EmailAccountService.listActiveAccounts w))).
Proof.
  intros Hmax Hunread. split.
  - unfold Handlers.getUrgentEmails. now rewrite Hmax, Hunread.
  - intros Hle. apply Z.ltb_ge in Hle.
    unfold Handlers.getUrgentEmails. rewrite Hle.
    unfold EmailSearchService.getUrgentAndImportantEmails.
    destruct (EmailAccountService.listActiveAccounts w) as [|a active] eqn:Hactive.
    + cbn [length Nat.eqb snd List.filter map]. now rewrite app_nil_r.
    + cbn [length Nat.eqb snd]. apply fold_urgent_account_calls.
Qed.

(** Two active accounts; one request lists the first of them, the other
    lists none: both clients are called either way. *)
Lemma getUrgentEmails_ignores_accounts_witness :
  let E := example_env (fun _ => Ok [example_message "m1" "Urgent: reply today" 0 false])
             (2 * day) in
  let w := example_world [example_account 1 "Work" "gmail" [];
                          example_account 2 "Home" "imap" []] in
  let listed := {| up_maxResults := Some 5; up_accounts := Some [1]; up_onlyUnread := None |} in
  let unlisted := {| up_maxResults := Some 5; up_accounts := None; up_onlyUnread := None |} in
  Handlers.getUrgentEmails E listed w = Handlers.getUrgentEmails E unlisted w
  /\ client_calls (snd (Handlers.getUrgentEmails E listed w))
     = [CallGetUrgentEmails 1 10; CallGetUrgentEmails 2 10].
Proof.
  intros E w listed unlisted.
  destruct (getUrgentEmails_ignores_accounts E w listed unlisted) as [Hsame Hcalls];
    [reflexivity|reflexivity|].
  split; [exact Hsame|]. rewrite Hcalls; [reflexivity|discriminate].
Defined.

(* ================================================================== *)
(** * 25. More on the classification engine *)
(* ================================================================== *)

(** [labels.includes(s)] is membership. *)
Lemma list_includes_In (l : list string) (s : string) :
  list_includes l s = true <-> In s l.
Proof.
  unfold list_includes. rewrite existsb_exists. split.
  - intros (x & Hin & Heq). apply String.eqb_eq in Heq. now subst.
  - intros Hin. exists s. split; [assumption|apply String.eqb_refl].
Qed.

(** The recency test of [classifyEmail], on the time values: less than one
    day has passed on the clock since the message was received. *)
Lemma recent_iff (now : Z) (m : EmailMessage) :
  Qlt_bool (daysSinceReceived now m) 1 = true <-> now - msg_receivedAt m < day.
Proof.
  rewrite Qlt_bool_true. unfold daysSinceReceived, day.
  generalize (now - msg_receivedAt m). intros d.
  change (1000 * 60 * 60 * 24) with 86400000.
  unfold Qlt, Qdiv, Qmult, Qinv, inject_Z. simpl. lia.
Qed.

(** What the keyword loops hand over to the steps that follow them. *)
Lemma classifyEmail_base E now m a c :
  classifyEmail E now m a = Ok c ->
  exists u0 i0 rs,
    (0 <= u0)%Q /\ (0 <= i0)%Q
    /\ (u0 == bonus_sum E (classify_text m) (urgentKeywords a))%Q
    /\ (i0 == bonus_sum E (classify_text m) (importantKeywords a))%Q
    /\ c = classify_signals now m a u0 i0 rs.
Proof.
  intros H. apply classifyEmail_Ok in H as (u0 & i0 & rs_u & rs_i & Hu & Hi & ->).
  exists u0, i0, rs_i. repeat split.
  - eapply keyword_loop_nonneg; [|exact Hu]. lra.
  - eapply keyword_loop_nonneg; [|exact Hi]. lra.
  - apply keyword_loop_score in Hu. rewrite Hu. lra.
  - apply keyword_loop_score in Hi. rewrite Hi. lra.
Qed.

(** X1. A message of a Gmail account that carries the label IMPORTANT or
    STARRED is classified as urgent and as important, whatever else it
    holds, and the reason list says so. *)
Theorem gmail_marked_message_is_flagged E now message account c :
  acc_provider account = "gmail"%string ->
  In "IMPORTANT"%string (msg_labels message) \/ In "STARRED"%string (msg_labels message) ->
  classifyEmail E now message account = Ok c ->
  isUrgent c = true /\ isImportant c = true
  /\ In "Marked as important/starred in Gmail"%string (reasons c).
Proof.
  intros Hp Hl Hc.
  assert (Hcond : String.eqb (acc_provider account) "gmail"
                  && (list_includes (msg_labels message) "IMPORTANT"
                      || list_includes (msg_labels message) "STARRED") = true).
  { rewrite Hp. simpl. apply orb_true_iff.
    destruct Hl as [Hl|Hl]; [left|right]; now apply list_includes_In. }
  split; [|split].
  3: { rewrite (classifyEmail_reasons _ _ _ _ _ Hc). unfold signal_reasons.
       rewrite Hcond. rewrite !in_app_iff. right. right. right. right. left. now left. }
  all: apply classifyEmail_base in Hc as (u0 & i0 & rs & Hu & Hi & _ & _ & ->).
  all: unfold classify_signals; rewrite Hcond.
  all: destruct (negb (msg_isRead message)), (msg_hasAttachments message),
         (Qlt_bool (daysSinceReceived now message) 1);
       cbn [isUrgent isImportant]; apply Qle_bool_iff; min_cases Qmin_cases; lra.
Qed.

(** X2. An unread message received less than a day before the clock reading
    is urgent, with an urgency score of at least 0.35, whatever its text and
    whatever the account. *)
Theorem unread_message_of_the_last_day_is_urgent E now message account c :
  msg_isRead message = false ->
  now - msg_receivedAt message < day ->
  classifyEmail E now message account = Ok c ->
  isUrgent c = true /\ (0.35 <= urgencyScore c)%Q.
Proof.
  intros Hr Hd Hc. apply recent_iff in Hd.
  apply classifyEmail_base in Hc as (u0 & i0 & rs & Hu & Hi & _ & _ & ->).
  unfold classify_signals. rewrite Hr, Hd. cbn [negb].
  split.
  all: destruct (msg_hasAttachments message),
         (String.eqb (acc_provider account) "gmail"
          && (list_includes (msg_labels message) "IMPORTANT"
              || list_includes (msg_labels message) "STARRED"));
       cbn [isUrgent urgencyScore]; rewrite ?Qle_bool_iff; min_cases Qmin_cases; lra.
Qed.

(** No keyword reason is the reason of the recency step. *)
Lemma reason_not_recent (mk : string -> string) (kws : list string) :
  (forall kw, head_char (mk kw) = Some "C"%char) ->
  ~ In "Received within last 24 hours"%string (map mk kws).
Proof.
  intros Hmk Hin. apply in_map_iff in Hin as (kw & Heq & _).
  specialize (Hmk kw). rewrite Heq in Hmk. discriminate.
Qed.

(** X3. The reason [Received within last 24 hours] is given exactly when the
    clock reading minus the receipt time is less than one day: a message
    dated after the clock reading counts as recent. *)
Theorem recency_counts_from_the_clock E now message account c :
  classifyEmail E now message account = Ok c ->
  (In "Received within last 24 hours"%string (reasons c)
   <-> now - msg_receivedAt message < day).
Proof.
  intros Hc. rewrite (classifyEmail_reasons _ _ _ _ _ Hc), <- recent_iff.
  rewrite !in_app_iff. unfold signal_reasons. rewrite !in_app_iff.
  split.
  - intros [H|[H|H]].
    + exfalso. revert H. apply reason_not_recent. reflexivity.
    + exfalso. revert H. apply reason_not_recent. reflexivity.
    + destruct (Qlt_bool (daysSinceReceived now message) 1); [reflexivity|].
      destruct H as [H|[H|[H|H]]].
      * destruct (negb (msg_isRead message)); simpl in H; [destruct H as [H|[]]; discriminate|destruct H].
      * destruct (msg_hasAttachments message); simpl in H; [destruct H as [H|[]]; discriminate|destruct H].
      * destruct (_ && _); simpl in H; [destruct H as [H|[]]; discriminate|destruct H].
      * destruct H.
  - intros ->. right. right. right. right. right. now left.
Qed.

(** A keyword loop adds nothing negative. *)
Lemma bonus_sum_nonneg E text kws : (0 <= bonus_sum E text kws)%Q.
Proof.
  induction kws as [|k kws IH]; simpl; [lra|].
  destruct (match_count E k text) as [[|m]|]; try exact IH.
  pose proof (keyword_bonus_nonneg (S m)). lra.
Qed.

(** A keyword loop adds nothing when no keyword matches, and at least 0.15
    when one does. *)
Lemma bonus_sum_cases E text kws :
  (matching_keywords E text kws = [] /\ (bonus_sum E text kws == 0)%Q)
  \/ (matching_keywords E text kws <> [] /\ (0.15 <= bonus_sum E text kws)%Q).
Proof.
  induction kws as [|k kws IH]; simpl.
  - left. split; [reflexivity|lra].
  - destruct (match_count E k text) as [[|m]|]; simpl; try exact IH.
    right. split; [discriminate|].
    pose proof (keyword_bonus_ge (S m) ltac:(lia)).
    pose proof (bonus_sum_nonneg E text kws). lra.
Qed.

(** X4. Every point of score has a reason: the reason list is empty exactly
    when both scores are 0, and then the message is neither urgent nor
    important. *)
Theorem no_reason_exactly_when_no_score E now message account c :
  classifyEmail E now message account = Ok c ->
  (reasons c = [] <-> (urgencyScore c == 0)%Q /\ (importanceScore c == 0)%Q)
  /\ (reasons c = [] -> isUrgent c = false /\ isImportant c = false).
Proof.
  intros Hc. pose proof (classifyEmail_reasons _ _ _ _ _ Hc) as Hr.
  apply classifyEmail_base in Hc as (u0 & i0 & rs & Hu & Hi & Hbu & Hbi & ->).
  rewrite Hr. clear Hr. unfold signal_reasons.
  assert (Hnil : forall (A : Type) (l1 l2 : list A), l1 ++ l2 = [] <-> l1 = [] /\ l2 = []).
  { intros A l1 l2. split; [apply app_eq_nil|now intros [-> ->]]. }
  assert (Hmap : forall (f : string -> string) l, map f l = [] <-> l = []).
  { intros f l. destruct l; simpl; split; congruence. }
  rewrite !Hnil, !Hmap.
  destruct (bonus_sum_cases E (classify_text message) (urgentKeywords account))
    as [[Hku Hsu]|[Hku Hsu]];
  destruct (bonus_sum_cases E (classify_text message) (importantKeywords account))
    as [[Hki Hsi]|[Hki Hsi]];
  rewrite Hsu in Hbu || rewrite <- Hbu in Hsu;
  rewrite Hsi in Hbi || rewrite <- Hbi in Hsi.
  all: unfold classify_signals.
  all: destruct (negb (msg_isRead message)), (msg_hasAttachments message),
         (String.eqb (acc_provider account) "gmail"
          && (list_includes (msg_labels message) "IMPORTANT"
              || list_includes (msg_labels message) "STARRED")),
         (Qlt_bool (daysSinceReceived now message) 1);
       cbn [isUrgent isImportant urgencyScore importanceScore].
  all: split; [split|].
  all: try (intros (? & ? & ? & ? & ? & ?); congruence).
  all: try (intros [? ?]; exfalso; min_cases Qmin_cases; lra).
  all: try (intros _; split; min_cases Qmin_cases; lra).
  all: try (intros _; split; apply not_true_is_false; rewrite Qle_bool_iff; lra).
  all: try (intros _; repeat split; assumption).

Qed.

(** X5. For an account whose provider is not [gmail], the labels of the
    message are not read: two messages that differ in their labels only
    (and in what [classifyEmail] never reads) are classified alike. *)
Theorem labels_count_for_gmail_accounts_only E now m1 m2 account :
  acc_provider account <> "gmail"%string ->
  msg_subject m1 = msg_subject m2 ->
  msg_snippet m1 = msg_snippet m2 ->
  msg_receivedAt m1 = msg_receivedAt m2 ->
  msg_isRead m1 = msg_isRead m2 ->
  msg_hasAttachments m1 = msg_hasAttachments m2 ->
  classifyEmail E now m1 account = classifyEmail E now m2 account.
Proof.
  intros Hp Hs Hn Hr Hi Ha.
  apply String.eqb_neq in Hp.
  unfold classifyEmail, classify_text. rewrite Hs, Hn.
  destruct (keyword_loop E urgent_reason _ _ _ _) as [[u0 rs_u]|e]; [|reflexivity].
  destruct (keyword_loop E important_reason _ _ _ _) as [[i0 rs_i]|e]; [|reflexivity].
  unfold classify_signals, daysSinceReceived. rewrite Hp, Hr, Hi, Ha. reflexivity.
Qed.

(** Lowering the case of a character changes neither its role in a pattern
    nor its canonical form. *)
Lemma is_syntax_lower_char (c : ascii) : is_syntax_char (lower_char c) = is_syntax_char c.
Proof. destruct c as [[] [] [] [] [] [] [] []]; reflexivity. Qed.

Lemma is_dot_lower_char (c : ascii) : Ascii.eqb (lower_char c) "." = Ascii.eqb c ".".
Proof. destruct c as [[] [] [] [] [] [] [] []]; reflexivity. Qed.

Lemma upper_lower_char (c : ascii) : upper_char (lower_char c) = upper_char c.
Proof. destruct c as [[] [] [] [] [] [] [] []]; reflexivity. Qed.

(** The pattern of the lower-cased keyword. *)
Lemma parse_keyword_toLowerCase (kw : string) :
  parse_keyword (toLowerCase kw) = option_map (map lower_atom) (parse_keyword kw).
Proof.
  induction kw as [|c kw IH]; simpl; [reflexivity|].
  rewrite is_syntax_lower_char, is_dot_lower_char, IH.
  destruct (is_syntax_char c); [reflexivity|].
  destruct (parse_keyword kw); [|reflexivity]. simpl.
  destruct (Ascii.eqb c "."); reflexivity.
Qed.

Lemma atom_matches_lower (a : atom) (c : ascii) :
  atom_matches (lower_atom a) c = atom_matches a c.
Proof. destruct a; simpl; [now rewrite upper_lower_char|reflexivity]. Qed.

Lemma match_atoms_lower (p : list atom) :
  forall last s, match_atoms (map lower_atom p) last s = match_atoms p last s.
Proof.
  induction p as [|a p IH]; intros last s; simpl; [reflexivity|].
  destruct s as [|c s]; [reflexivity|].
  rewrite atom_matches_lower, IH. reflexivity.
Qed.

Lemma count_from_lower (p : list atom) :
  forall s prev skip,
    count_from (map lower_atom p) prev s skip = count_from p prev s skip.
Proof.
  induction s as [|c s IH]; intros prev skip.
  - destruct skip; simpl; [|reflexivity].
    unfold matches_at. rewrite match_atoms_lower. reflexivity.
  - destruct skip; simpl; [|apply IH].
    unfold matches_at. rewrite match_atoms_lower, length_map, !IH. reflexivity.
Qed.

(** X6. The letter case of a keyword does not count: for a keyword of
    ASCII characters in the modelled fragment, the keyword and its
    lower-case form have the same number of matches in every text. *)
Theorem keyword_case_is_ignored (E : Env) (kw text : string) :
  all_chars is_ascii kw = true ->
  parse_keyword kw <> None ->
  match_count E (toLowerCase kw) text = match_count E kw text.
Proof.
  intros _ Hp. unfold match_count. rewrite parse_keyword_toLowerCase.
  destruct (parse_keyword kw) as [p|]; [|congruence]. simpl.
  unfold count_matches. now rewrite count_from_lower.
Qed.

(** The custom keyword [ASAP] of the tool description. *)
Lemma keyword_case_is_ignored_witness :
  let E := example_env (fun _ => Ok []) 0 in
  all_chars is_ascii "ASAP" = true
  /\ parse_keyword "ASAP" <> None
  /\ match_count E "asap" "reply asap, Asap!" = match_count E "ASAP" "reply asap, Asap!"
  /\ match_count E "ASAP" "reply asap, Asap!" = Some 2%nat.
Proof.
  split; [reflexivity|]. split; [discriminate|]. split; [|reflexivity].
  apply (keyword_case_is_ignored (example_env (fun _ => Ok []) 0) "ASAP" "reply asap, Asap!").
  - reflexivity.
  - discriminate.
Defined.

(** A read, month-old message without any keyword, starred in Gmail. *)
Lemma gmail_marked_message_is_flagged_witness :
  let E := example_env (fun _ => Ok []) (30 * day) in
  let message := {| msg_id := "m1"; msg_subject := "Lunch on Friday";
                    msg_from := "sender@example.com"; msg_to := ["me@example.com"%string];
                    msg_snippet := ""; msg_receivedAt := 0; msg_isRead := true;
                    msg_hasAttachments := false; msg_labels := ["INBOX"; "STARRED"]%string |} in
  let account := example_account 1 "Work" "gmail" [] in
  exists c,
    classifyEmail E (30 * day) message account = Ok c
    /\ isUrgent c = true /\ isImportant c = true
    /\ reasons c = ["Marked as important/starred in Gmail"%string].
Proof.
  intros E message account.
  assert (Hrun : exists c, classifyEmail E (30 * day) message account = Ok c
                           /\ reasons c = ["Marked as important/starred in Gmail"%string]).
  { vm_compute. eexists. split; reflexivity. }
  destruct Hrun as (c & Hrun & Hreasons). exists c. split; [exact Hrun|].
  destruct (gmail_marked_message_is_flagged E (30 * day) message account c)
    as (Hu & Hi & _); [reflexivity|right; right; now left|exact Hrun|].
  repeat split; assumption.
Defined.

(** An unread message of an IMAP account without any keyword, dated after
    the clock reading. *)
Lemma unread_message_of_the_last_day_is_urgent_witness :
  let E := example_env (fun _ => Ok []) day in
  let message := example_message "m1" "Lunch on Friday" (day + 1) false in
  let account := example_account 1 "Home" "imap" [] in
  exists c,
    classifyEmail E day message account = Ok c
    /\ isUrgent c = true /\ (0.35 <= urgencyScore c)%Q.
Proof.
  intros E message account.
  assert (Hrun : exists c, classifyEmail E day message account = Ok c).
  { vm_compute. eexists. reflexivity. }
  destruct Hrun as (c & Hrun). exists c. split; [exact Hrun|].
  apply (unread_message_of_the_last_day_is_urgent E day message account c);
    [reflexivity|vm_compute; reflexivity|exact Hrun].
Defined.

(** A message dated a year after the clock reading. *)
Lemma recency_counts_from_the_clock_witness :
  let E := example_env (fun _ => Ok []) 0 in
  let message := example_message "m1" "Lunch on Friday" (365 * day) true in
  let account := example_account 1 "Home" "imap" [] in
  exists c,
    classifyEmail E 0 message account = Ok c
    /\ In "Received within last 24 hours"%string (reasons c).
Proof.
  intros E message account.
  assert (Hrun : exists c, classifyEmail E 0 message account = Ok c).
  { vm_compute. eexists. reflexivity. }
  destruct Hrun as (c & Hrun). exists c. split; [exact Hrun|].
  apply (recency_counts_from_the_clock E 0 message account c Hrun).
  vm_compute. reflexivity.
Defined.

(** A read message of two days ago without keyword, attachment or label. *)
Lemma no_reason_exactly_when_no_score_witness :
  let E := example_env (fun _ => Ok []) (2 * day) in
  let message := example_message "m1" "Lunch on Friday" 0 true in
  let account := example_account 1 "Home" "imap" [] in
  exists c,
    classifyEmail E (2 * day) message account = Ok c
    /\ reasons c = [] /\ (urgencyScore c == 0)%Q /\ (importanceScore c == 0)%Q
    /\ isUrgent c = false /\ isImportant c = false.
Proof.
  intros E message account.
  assert (Hrun : exists c, classifyEmail E (2 * day) message account = Ok c
                           /\ reasons c = []).
  { vm_compute. eexists. split; reflexivity. }
  destruct Hrun as (c & Hrun & Hreasons). exists c. split; [exact Hrun|].
  destruct (no_reason_exactly_when_no_score E (2 * day) message account c Hrun)
    as (Hiff & Hflags).
  split; [exact Hreasons|].
  destruct (proj1 Hiff Hreasons) as [Hu Hi]. destruct (Hflags Hreasons) as [Hfu Hfi].
  repeat split; assumption.
Defined.

(** The label STARRED changes nothing for an IMAP account, and changes the
    classification for a Gmail account. *)
Lemma labels_count_for_gmail_accounts_only_witness :
  let E := example_env (fun _ => Ok []) (2 * day) in
  let plain := example_message "m1" "Lunch on Friday" 0 true in
  let starred := {| msg_id := "m1"; msg_subject := "Lunch on Friday";
                    msg_from := "sender@example.com"; msg_to := ["me@example.com"%string];
                    msg_snippet := ""; msg_receivedAt := 0; msg_isRead := true;
                    msg_hasAttachments := false; msg_labels := ["STARRED"%string] |} in
  classifyEmail E (2 * day) starred (example_account 1 "Home" "imap" [])
  = classifyEmail E (2 * day) plain (example_account 1 "Home" "imap" [])
  /\ classifyEmail E (2 * day) starred (example_account 1 "Work" "gmail" [])
     <> classifyEmail E (2 * day) plain (example_account 1 "Work" "gmail" []).
Proof.
  intros E plain starred. split.
  - apply (labels_count_for_gmail_accounts_only E (2 * day) starred plain
             (example_account 1 "Home" "imap" [])); [discriminate|reflexivity..].
  - vm_compute. discriminate.
Defined.

(** X7. For each of the default keywords, the number of matches
    [classifyEmail] counts is the number of whole-word occurrences of the
    keyword in the text, letter case apart, counted from left to right
    without overlap. *)
Theorem default_keywords_count_whole_words (E : Env) (kw text : string) :
  In kw DEFAULT_URGENT_KEYWORDS \/ In kw DEFAULT_IMPORTANT_KEYWORDS ->
  match_count E kw text = Some (whole_word_occurrences kw text).
Proof.
  intros Hin. apply match_count_plain_keyword.
  destruct default_keywords_plain as [Hu Hi].
  destruct Hin as [Hin|Hin].
  - rewrite forallb_forall in Hu. now apply Hu.
  - rewrite forallb_forall in Hi. now apply Hi.
Qed.

(** [deal] inside [ideal] and [dealing] does not count. *)
Lemma default_keywords_count_whole_words_witness :
  let E := example_env (fun _ => Ok []) 0 in
  In "deal"%string DEFAULT_IMPORTANT_KEYWORDS
  /\ match_count E "deal" "ideal deal, dealing; a DEAL" = Some 2%nat.
Proof.
  intros E.
  assert (Hin : In "deal"%string DEFAULT_IMPORTANT_KEYWORDS)
    by (do 4 right; now left).
  split; [exact Hin|].
  rewrite (default_keywords_count_whole_words E "deal" "ideal deal, dealing; a DEAL");
    [reflexivity|now right].
Defined.

(* ================================================================== *)
(** * 26. The cache, the origin of the results, and the two buckets *)
(* ================================================================== *)

(** X8. The string key [`${account.id}:${msg.id}`] of the two account loops
    tells the pairs (account id, message id) apart: two keys are equal
    exactly when the ids of the accounts and the ids of the messages are.
    A colon in a message id cannot make two pairs collide. *)
Theorem composite_key_is_injective (a1 a2 : EmailAccount) (m1 m2 : EmailMessage) :
  EmailSearchService.composite_key a1 m1 = EmailSearchService.composite_key a2 m2
  <-> acc_id a1 = acc_id a2 /\ msg_id m1 = msg_id m2.
Proof.
  rewrite !composite_key_string. split.
  - intros H. apply key_string_inj in H. unfold message_key in H. simpl in H.
    now inversion H.
  - intros [H1 H2]. unfold message_key. simpl. now rewrite H1, H2.
Qed.

(** [cacheSearchResult] writes the row of the result that is pushed. *)
Lemma cached_as_classified account msg c w :
  exists row,
    search_results (EmailSearchService.cacheSearchResult (acc_id account) msg c w)
      !! result_key (EmailSearchService.classified account msg c) = Some row
    /\ cached_as (EmailSearchService.classified account msg c) row.
Proof.
  eexists. split.
  - unfold EmailSearchService.cacheSearchResult, result_key. simpl.
    apply lookup_insert_eq.
  - unfold cached_as. simpl. repeat split; reflexivity.
Qed.

(** The message loop, the account body and the account loop keep
    [cache_invariant]. *)
Lemma classify_messages_cache E w0 account messages :
  forall st,
    cache_invariant w0 st ->
    cache_invariant w0 (EmailSearchService.classify_messages E account messages st).
Proof.
  induction messages as [|msg messages IH]; intros st Hst; simpl; [exact Hst|].
  destruct (decide (EmailSearchService.composite_key account msg ∈ seen st)) as [Hin|Hnin];
    [now apply IH|].
  destruct (classifyEmail E _ msg account) as [c|e].
  - apply IH. destruct Hst as (Hseen & Hacc & Hseq & Hrow & Hframe).
    assert (Hfresh : forall r, In r (allResults st) ->
                               result_key r <> (acc_id account, msg_id msg)).
    { intros r Hr Heq. apply Hnin. rewrite composite_key_string.
      unfold message_key. simpl. rewrite <- Heq. now apply Hseen. }
    unfold cache_invariant. cbn [allResults seen world].
    split; [|split; [|split; [|split]]].
    + intros r Hr. apply in_app_iff in Hr as [Hr|[<-|[]]].
      * apply elem_of_union_r, Hseen, Hr.
      * apply elem_of_union_l, elem_of_singleton.
        rewrite composite_key_string, result_key_classified. reflexivity.
    + exact Hacc.
    + exact Hseq.
    + intros r Hr. apply in_app_iff in Hr as [Hr|[<-|[]]].
      * destruct (Hrow r Hr) as (row & Hl & Hc). exists row. split; [|exact Hc].
        unfold EmailSearchService.cacheSearchResult. simpl.
        rewrite lookup_insert_ne; [exact Hl|]. intros Heq. now apply (Hfresh r Hr).
      * apply cached_as_classified.
    + intros k Hk. unfold EmailSearchService.cacheSearchResult. simpl.
      rewrite lookup_insert_ne.
      * apply Hframe. intros r Hr. apply Hk, in_app_iff. now left.
      * intros Heq. apply (Hk (EmailSearchService.classified account msg c)).
        -- apply in_app_iff. right. now left.
        -- rewrite <- Heq. reflexivity.
  - destruct Hst as (Hseen & Hrest). split; [|exact Hrest].
    cbn [allResults seen]. intros r Hr. apply elem_of_union_r, Hseen, Hr.
Qed.

Lemma search_account_cache E w0 query maxResults account :
  forall st,
    cache_invariant w0 st ->
    cache_invariant w0 (EmailSearchService.search_account E query maxResults st account).
Proof.
  intros st Hst. unfold EmailSearchService.search_account.
  destruct (EmailClientFactory.createClient account) as [client|e]; [|exact Hst].
  destruct (client_search E client query (maxResults * 2)) as [messages|e].
  - apply classify_messages_cache. exact Hst.
  - exact Hst.
Qed.

Lemma search_loop_cache E query maxResults accts w :
  cache_invariant w (EmailSearchService.search_loop E query maxResults accts w).
Proof.
  unfold EmailSearchService.search_loop.
  assert (H0 : cache_invariant w {| allResults := []; seen := ∅; world := w |}).
  { unfold cache_invariant. simpl. repeat split; try reflexivity; intros r []. }
  revert H0. generalize {| allResults := []; seen := ∅; world := w |}.
  induction accts as [|account accts IH]; intros st Hst; simpl; [exact Hst|].
  apply IH, search_account_cache, Hst.
Qed.

(** X9. [searchEmails] leaves in the cache, under the pair (account id,
    message id), the classification of every merged result, those that the
    cut to [maxResults] drops included; every returned result is among them.
    It changes no other cache row, and it changes no account row: neither
    [last_sync_at] nor [sync_error] is ever written by a search. *)
Theorem searchEmails_caches_every_merged_result E criteria w :
  (forall out r,
      fst (EmailSearchService.searchEmails E criteria w) = Ok out ->
      In r out -> In r (merged_results E criteria w))
  /\ (forall r,
      In r (merged_results E criteria w) ->
      exists row,
        search_results (snd (EmailSearchService.searchEmails E criteria w)) !! result_key r
          = Some row
        /\ cached_as r row)
  /\ (forall k,
        (forall r, In r (merged_results E criteria w) -> result_key r <> k) ->
        search_results (snd (EmailSearchService.searchEmails E criteria w)) !! k
          = search_results w !! k)
  /\ accounts (snd (EmailSearchService.searchEmails E criteria w)) = accounts w
  /\ account_seq (snd (EmailSearchService.searchEmails E criteria w)) = account_seq w.
Proof.
  pose proof (search_loop_cache E (sc_query criteria) (default 50 (sc_maxResults criteria))
                (EmailSearchService.accountsToSearch criteria w) w)
    as (_ & Hacc & Hseq & Hrow & Hframe).
  unfold merged_results.
  destruct (EmailSearchService.accountsToSearch criteria w) as [|a accts] eqn:Haccts.
  - unfold EmailSearchService.searchEmails. rewrite Haccts. simpl.
    repeat split; try reflexivity; [discriminate|intros r []].
  - rewrite searchEmails_returns by (rewrite Haccts; discriminate).
    cbv zeta. rewrite Haccts. cbn [fst snd]. repeat split; try assumption.
    intros out r [= <-] Hr. eapply ranked_slice_incl, Hr.
Qed.

(** [slice(0, n)] with [n >= 0] keeps at most [n] elements. *)
Lemma slice0_length {A : Type} (l : list A) (n : Z) :
  0 <= n -> Z.of_nat (length (slice0 l n)) <= n.
Proof.
  intros Hn. rewrite slice0_firstn by exact Hn. rewrite length_firstn. lia.
Qed.

Lemma StronglySorted_app_l {A : Type} (R : A -> A -> Prop) (l1 l2 : list A) :
  StronglySorted R (l1 ++ l2) -> StronglySorted R l1.
Proof.
  induction l1 as [|x l1 IH]; simpl; intros H; [constructor|].
  inversion H as [|? ? Hs Hf]; subst. constructor; [now apply IH|].
  apply List.Forall_forall. intros y Hy.
  eapply List.Forall_forall in Hf; [exact Hf|]. apply in_app_iff. now left.
Qed.

(** A ranked list that is cut stays ranked, and keeps what held of all. *)
Lemma ranked_slice_sorted {A : Type} (score : A -> Q) (l : list A) (n : Z) :
  StronglySorted (ranked_desc score) (slice0 (sort_desc score l) n).
Proof.
  destruct (slice0_prefix (sort_desc score l) n) as [rest Hrest].
  apply StronglySorted_app_l with (l2 := rest). rewrite <- Hrest.
  apply sort_desc_sorted.
Qed.

Lemma ranked_slice_Forall {A : Type} (P : A -> Prop) (score : A -> Q) (l : list A) (n : Z) :
  List.Forall P l -> List.Forall P (slice0 (sort_desc score l) n).
Proof.
  intros H. apply List.Forall_forall. intros x Hx.
  eapply List.Forall_forall in H; [exact H|]. eapply ranked_slice_incl, Hx.
Qed.

(** The message loop, the account body and the account loop of
    [getUrgentAndImportantEmails] keep [bucket_invariant]. *)
Lemma bucket_messages_invariant E w0 account messages :
  forall st,
    bucket_invariant w0 st ->
    bucket_invariant w0 (EmailSearchService.bucket_messages E account messages st).
Proof.
  induction messages as [|msg messages IH]; intros st Hst; simpl; [exact Hst|].
  destruct (decide (EmailSearchService.composite_key account msg ∈ useen st)) as [Hin|Hnin];
    [now apply IH|].
  destruct Hst as (Hnu & Hni & Hseen & Hfu & Hfi & Hacc & Hseq & Hres).
  assert (Hfresh : forall r, In r (urgentEmails st) \/ In r (importantEmails st) ->
                             result_key r <> message_key (account, msg)).
  { intros r Hr Heq. apply Hnin. rewrite composite_key_string, <- Heq. now apply Hseen. }
  destruct (classifyEmail E _ msg account) as [c|e].
  - apply IH. unfold bucket_invariant.
    cbn [urgentEmails importantEmails useen uworld].
    split; [|split; [|split; [|split; [|split; [|split; [|split]]]]]];
      try assumption.
    + destruct (isUrgent c); [|exact Hnu].
      rewrite map_app. simpl. apply NoDup_snoc; [exact Hnu|].
      rewrite result_key_classified. intros Hk.
      apply in_map_iff in Hk as (r & Hk & Hr). apply (Hfresh r); [now left|exact Hk].
    + destruct (isImportant c); [|exact Hni].
      rewrite map_app. simpl. apply NoDup_snoc; [exact Hni|].
      rewrite result_key_classified. intros Hk.
      apply in_map_iff in Hk as (r & Hk & Hr). apply (Hfresh r); [now right|exact Hk].
    + assert (Hnew : key_string (result_key (EmailSearchService.classified account msg c))
                     ∈ {[EmailSearchService.composite_key account msg]} ∪ useen st).
      { apply elem_of_union_l, elem_of_singleton.
        rewrite composite_key_string, result_key_classified. reflexivity. }
      intros r [Hr|Hr].
      * destruct (isUrgent c).
        -- apply in_app_iff in Hr as [Hr|[<-|[]]]; [|exact Hnew].
           apply elem_of_union_r, Hseen. now left.
        -- apply elem_of_union_r, Hseen. now left.
      * destruct (isImportant c).
        -- apply in_app_iff in Hr as [Hr|[<-|[]]]; [|exact Hnew].
           apply elem_of_union_r, Hseen. now right.
        -- apply elem_of_union_r, Hseen. now right.
    + destruct (isUrgent c) eqn:Hu; [|exact Hfu].
      apply Forall_app. split; [exact Hfu|]. constructor; [exact Hu|constructor].
    + destruct (isImportant c) eqn:Hi; [|exact Hfi].
      apply Forall_app. split; [exact Hfi|]. constructor; [exact Hi|constructor].
  - unfold bucket_invariant. cbn [urgentEmails importantEmails useen uworld].
    repeat split; try assumption.
    intros r Hr. apply elem_of_union_r, Hseen, Hr.
Qed.

Lemma urgent_account_invariant E w0 maxResults account :
  forall st,
    bucket_invariant w0 st ->
    bucket_invariant w0 (EmailSearchService.urgent_account E maxResults st account).
Proof.
  intros st Hst. unfold EmailSearchService.urgent_account.
  destruct (EmailClientFactory.createClient account) as [client|e]; [|exact Hst].
  apply bucket_messages_invariant. exact Hst.
Qed.

Lemma fold_urgent_account_invariant E w0 maxResults accts :
  forall st,
    bucket_invariant w0 st ->
    bucket_invariant w0 (fold_left (EmailSearchService.urgent_account E maxResults) accts st).
Proof.
  induction accts as [|account accts IH]; intros st Hst; simpl; [exact Hst|].
  apply IH, urgent_account_invariant, Hst.
Qed.

(** What [getUrgentAndImportantEmails] returns when it returns. *)
Lemma getUrgentAndImportantEmails_returns E maxResults w urgent important w' :
  EmailSearchService.getUrgentAndImportantEmails E maxResults w = (Ok (urgent, important), w') ->
  exists st,
    bucket_invariant w st
    /\ urgent = slice0 (sort_desc ce_urgencyScore (urgentEmails st)) maxResults
    /\ important = slice0 (sort_desc ce_importanceScore (importantEmails st)) maxResults
    /\ w' = uworld st.
Proof.
  unfold EmailSearchService.getUrgentAndImportantEmails.
  destruct (length (EmailAccountService.listActiveAccounts w) =? 0)%nat; [discriminate|].
  intros [= <- <- <-]. eexists. split; [|repeat split].
  apply fold_urgent_account_invariant.
  unfold bucket_invariant. simpl.
  repeat split; try constructor. intros r [[]|[]].
Qed.

(** X10. The two lists of [getUrgentAndImportantEmails]: the urgent one
    holds results flagged urgent only, in descending order of urgency score,
    with distinct pairs (account id, message id), and at most [maxResults]
    of them when [maxResults >= 0]; likewise the important one with the
    importance score.  The call writes nothing to the cache and changes no
    account row. *)
Theorem urgent_and_important_buckets E maxResults w urgent important w' :
  EmailSearchService.getUrgentAndImportantEmails E maxResults w = (Ok (urgent, important), w') ->
  (List.Forall (fun r => ce_isUrgent r = true) urgent
   /\ StronglySorted (ranked_desc ce_urgencyScore) urgent
   /\ List.NoDup (map result_key urgent)
   /\ (0 <= maxResults -> Z.of_nat (length urgent) <= maxResults))
  /\ (List.Forall (fun r => ce_isImportant r = true) important
      /\ StronglySorted (ranked_desc ce_importanceScore) important
      /\ List.NoDup (map result_key important)
      /\ (0 <= maxResults -> Z.of_nat (length important) <= maxResults))
  /\ search_results w' = search_results w
  /\ accounts w' = accounts w.
Proof.
  intros Hrun.
  apply getUrgentAndImportantEmails_returns in Hrun
    as (st & (Hnu & Hni & _ & Hfu & Hfi & Hacc & _ & Hres) & -> & -> & ->).
  split; [|split; [|split]]; try assumption.
  - split; [|split; [|split]].
    + apply ranked_slice_Forall, Hfu.
    + apply ranked_slice_sorted.
    + apply ranked_slice_NoDup, Hnu.
    + apply slice0_length.
  - split; [|split; [|split]].
    + apply ranked_slice_Forall, Hfi.
    + apply ranked_slice_sorted.
    + apply ranked_slice_NoDup, Hni.
    + apply slice0_length.
Qed.

(** An unread message that names a keyword, and a read one that does not. *)
Lemma urgent_and_important_buckets_witness :
  let E := example_env
             (fun _ => Ok [example_message "m1" "Urgent: reply today" 0 false;
                           example_message "m2" "Lunch on Friday" 0 true]) (2 * day) in
  let w := example_world [example_account 1 "Work" "gmail" []] in
  exists urgent important w',
    EmailSearchService.getUrgentAndImportantEmails E 5 w = (Ok (urgent, important), w')
    /\ map ce_id urgent = ["m1"%string] /\ important = []
    /\ search_results w' = search_results w.
Proof.
  intros E w.
  assert (Hrun : exists urgent important w',
             EmailSearchService.getUrgentAndImportantEmails E 5 w
             = (Ok (urgent, important), w')
             /\ map ce_id urgent = ["m1"%string] /\ important = []).
  { vm_compute. do 3 eexists. repeat split. }
  destruct Hrun as (urgent & important & w' & Hrun & Hu & Hi).
  exists urgent, important, w'. repeat split; try assumption.
  apply (urgent_and_important_buckets E 5 w urgent important w' Hrun).
Defined.

(** [ImapClient.search] returns no message. *)
Lemma imap_search_nothing account query maxResults mailbox :
  ImapClient.search account query maxResults mailbox = Ok [].
Proof.
  unfold ImapClient.search, ImapClient.searchWithImap. now rewrite slice0_nil.
Qed.

(** X11. Every result [searchEmails] returns is the classified form of a
    message that the Gmail client of one of the searched accounts returned
    for the query, asked for twice [maxResults] messages.  An IMAP account
    never contributes a result. *)
Theorem results_come_from_gmail_accounts E criteria w out r :
  fst (EmailSearchService.searchEmails E criteria w) = Ok out ->
  In r out ->
  exists account msgs msg,
    In account (EmailSearchService.accountsToSearch criteria w)
    /\ acc_provider account = "gmail"%string
    /\ GmailClient.search E account (sc_query criteria)
         (default 50 (sc_maxResults criteria) * 2) = Ok msgs
    /\ In msg msgs
    /\ classified_from E (account, msg) r.
Proof.
  intros Hrun Hr.
  assert (Hne : EmailSearchService.accountsToSearch criteria w <> []).
  { intros Hnil. unfold EmailSearchService.searchEmails in Hrun. rewrite Hnil in Hrun.
    simpl in Hrun. discriminate. }
  rewrite (searchEmails_returns E criteria w Hne) in Hrun.
  cbv zeta in Hrun. cbn [fst] in Hrun. injection Hrun as <-.
  apply ranked_slice_incl in Hr.
  destruct (search_loop_invariant E (sc_query criteria) (default 50 (sc_maxResults criteria))
              (EmailSearchService.accountsToSearch criteria w) w) as (_ & _ & Hfrom).
  destruct (Hfrom r Hr) as ([account msg] & Hin & Hcl).
  unfold fanout in Hin. apply in_flat_map in Hin as (account' & Ha & Hin).
  destruct (provider_messages E (sc_query criteria) (default 50 (sc_maxResults criteria))
              account') as [msgs|e] eqn:Hp; [|destruct Hin].
  apply in_map_iff in Hin as (msg' & [= <- <-] & Hmsg).
  unfold provider_messages, EmailClientFactory.createClient in Hp.
  destruct (String.eqb (acc_provider account') "gmail") eqn:Hg.
  - apply String.eqb_eq in Hg. exists account', msgs, msg'. repeat split; assumption.
  - destruct (String.eqb (acc_provider account') "imap"); [|discriminate].
    simpl in Hp. rewrite imap_search_nothing in Hp. injection Hp as <-. destruct Hmsg.
Qed.

(** A Gmail account and an IMAP account; the one result is of the Gmail
    account. *)
Lemma results_come_from_gmail_accounts_witness :
  let E := example_env (fun _ => Ok [example_message "m1" "Urgent: reply today" 0 false])
             (2 * day) in
  let w := example_world [example_account 1 "Work" "gmail" [];
                          example_account 2 "Home" "imap" []] in
  let criteria := {| sc_query := "is:unread"; sc_accounts := None; sc_mailboxes := None;
                     sc_maxResults := Some 5; sc_minUrgencyScore := None;
                     sc_minImportanceScore := None |} in
  exists out r account,
    fst (EmailSearchService.searchEmails E criteria w) = Ok out
    /\ out = [r]
    /\ In account (EmailSearchService.accountsToSearch criteria w)
    /\ acc_provider account = "gmail"%string
    /\ ce_accountId r = acc_id account.
Proof.
  intros E w criteria.
  assert (Hrun : exists r, fst (EmailSearchService.searchEmails E criteria w) = Ok [r]).
  { vm_compute. eexists. reflexivity. }
  destruct Hrun as (r & Hrun).
  destruct (results_come_from_gmail_accounts E criteria w [r] r Hrun)
    as (account & msgs & msg & Ha & Hp & _ & _ & (n & c & _ & ->)); [now left|].
  exists [EmailSearchService.classified account msg c],
    (EmailSearchService.classified account msg c), account.
  repeat split; assumption || reflexivity.
Defined.

(* ================================================================== *)
(** * 27. The filters of the query handlers *)
(* ================================================================== *)



Lemma filter_length_le {A : Type} (f : A -> bool) (l : list A) :
  (length (List.filter f l) <= length l)%nat.
Proof.
  induction l as [|x l IH]; simpl; [lia|]. destruct (f x); simpl; lia.
Qed.





(** X13. The handler of [get_urgent_emails]: each count is the length of its
    list; with [onlyUnread] set, every entry of both lists is unread; each
    list has at most [maxResults] entries when [0 <= maxResults]; a request
    that is answered has [maxResults <= 500]; and the call writes nothing to
    the cache and changes no account row. *)
Theorem urgent_handler_counts_and_unread_filter E params w response w' :
  Handlers.getUrgentEmails E params w = (Ok response, w') ->
  ur_urgent_count response = length (ur_urgent_emails response)
  /\ ur_important_count response = length (ur_important_emails response)
  /\ (up_onlyUnread params = Some true ->
      List.Forall (fun v => bv_isRead v = false) (ur_urgent_emails response)
      /\ List.Forall (fun v => bv_isRead v = false) (ur_important_emails response))
  /\ (0 <= default 20 (up_maxResults params) ->
      Z.of_nat (ur_urgent_count response) <= default 20 (up_maxResults params)
      /\ Z.of_nat (ur_important_count response) <= default 20 (up_maxResults params))
  /\ default 20 (up_maxResults params) <= 500
  /\ search_results w' = search_results w
  /\ accounts w' = accounts w.
Proof.
  unfold Handlers.getUrgentEmails.
  destruct (500 <? default 20 (up_maxResults params)) eqn:Hmax; [discriminate|].
  apply Z.ltb_ge in Hmax.
  destruct (EmailSearchService.getUrgentAndImportantEmails E _ w)
    as [[[urgent important]|e] w1] eqn:Hrun; [|discriminate].
  intros [= <- <-].
  apply getUrgentAndImportantEmails_returns in Hrun
    as (st & (_ & _ & _ & _ & _ & Hacc & _ & Hres) & -> & -> & ->).
  pose proof (slice0_length (sort_desc ce_urgencyScore (urgentEmails st))
                (default 20 (up_maxResults params))) as Hlu.
  pose proof (slice0_length (sort_desc ce_importanceScore (importantEmails st))
                (default 20 (up_maxResults params))) as Hli.
  cbn [ur_urgent_count ur_urgent_emails ur_important_count ur_important_emails].
  rewrite !length_map.
  split; [reflexivity|]. split; [reflexivity|].
  split.
  { intros ->. simpl. split; apply List.Forall_forall; intros v Hv;
      apply in_map_iff in Hv as (r & <- & Hr); apply filter_In in Hr as [_ Hr];
      simpl; now apply negb_true_iff in Hr. }
  split; [|repeat split; assumption].
  intros H0. specialize (Hlu H0). specialize (Hli H0).
  destruct (default false (up_onlyUnread params)).
  - match goal with
    | |- context [length (List.filter ?f ?l)] => pose proof (filter_length_le f l)
    end.
    match goal with
    | |- _ /\ Z.of_nat (length (List.filter ?f ?l)) <= _ => pose proof (filter_length_le f l)
    end. lia.
  - lia.
Qed.

(** Two urgent messages, one of them read; [onlyUnread] keeps the other. *)
Lemma urgent_handler_counts_and_unread_filter_witness :
  let E := example_env
             (fun _ => Ok [example_message "m1" "Urgent: reply today" 0 false;
                           example_message "m2" "Urgent, urgent: deadline" 0 true])
             (2 * day) in
  let w := example_world [example_account 1 "Work" "gmail" []] in
  let params := {| up_maxResults := Some 5; up_accounts := None;
                   up_onlyUnread := Some true |} in
  exists response w',
    Handlers.getUrgentEmails E params w = (Ok response, w')
    /\ map bv_id (ur_urgent_emails response) = ["m1"%string]
    /\ ur_urgent_count response = 1%nat.
Proof.
  intros E w params.
  assert (Hrun : exists response w',
             Handlers.getUrgentEmails E params w = (Ok response, w')
             /\ map bv_id (ur_urgent_emails response) = ["m1"%string]).
  { vm_compute. do 2 eexists. split; reflexivity. }
  destruct Hrun as (response & w' & Hrun & Hids).
  exists response, w'. split; [exact Hrun|]. split; [exact Hids|].
  destruct (urgent_handler_counts_and_unread_filter E params w response w' Hrun)
    as (-> & _).
  rewrite <- (length_map bv_id), Hids. reflexivity.
Defined.

(* ================================================================== *)
(** * 28. The urgent messages of a Gmail account *)
(* ================================================================== *)

(** The inner and the outer loop of [getUrgentEmails]. *)
Lemma keep_new_spec (ms : list EmailMessage) :
  forall all seen,
    kept_invariant all seen ->
    kept_invariant (fst (keep_new ms all seen)) (snd (keep_new ms all seen))
    /\ (forall m, In m (fst (keep_new ms all seen)) -> In m all \/ In m ms)
    /\ (forall m, In m all -> In m (fst (keep_new ms all seen)))
    /\ (forall m, In m ms -> In (msg_id m) (map msg_id (fst (keep_new ms all seen)))).
Proof.
  induction ms as [|msg ms IH]; intros all seen Hk; simpl.
  - repeat split; try apply Hk; auto. intros m [].
  - destruct (decide (msg_id msg ∈ seen)) as [Hin|Hnin].
    + destruct (IH all seen Hk) as (Hk' & Hfrom & Hkeep & Hcov).
      repeat split; try apply Hk'.
      * intros m Hm. destruct (Hfrom m Hm); auto.
      * exact Hkeep.
      * intros m [<-|Hm]; [|now apply Hcov].
        apply Hk in Hin. apply in_map_iff in Hin as (m' & Heq & Hm').
        apply in_map_iff. exists m'. split; [exact Heq|now apply Hkeep].
    + assert (Hk1 : kept_invariant (all ++ [msg]) ({[msg_id msg]} ∪ seen)).
      { destruct Hk as [Hnd Hseen]. split.
        - rewrite map_app. simpl. apply NoDup_snoc; [exact Hnd|].
          intros Hin. apply Hnin, Hseen, Hin.
        - intros id. rewrite elem_of_union, elem_of_singleton, map_app, in_app_iff, Hseen.
          simpl. intuition. }
      destruct (IH _ _ Hk1) as (Hk' & Hfrom & Hkeep & Hcov).
      repeat split; try apply Hk'.
      * intros m Hm. destruct (Hfrom m Hm) as [H|H]; [|auto].
        apply in_app_iff in H as [H|[<-|[]]]; auto.
      * intros m Hm. apply Hkeep, in_app_iff. now left.
      * intros m [<-|Hm]; [|now apply Hcov].
        apply in_map_iff. exists msg. split; [reflexivity|].
        apply Hkeep, in_app_iff. right. now left.
Qed.

Lemma urgent_queries_spec (search : string -> outcome (list EmailMessage)) queries :
  forall all seen,
    kept_invariant all seen ->
    let out := urgent_queries search queries all seen in
    List.NoDup (map msg_id out)
    /\ (forall m, In m out ->
          In m all \/ exists q ms, In q queries /\ search q = Ok ms /\ In m ms)
    /\ (forall m, In m all -> In m out)
    /\ (forall q ms m, In q queries -> search q = Ok ms -> In m ms ->
          In (msg_id m) (map msg_id out)).
Proof.
  induction queries as [|q queries IH]; intros all seen Hk; simpl.
  - repeat split; try apply Hk; auto. intros q ms m [].
  - destruct (search q) as [ms|e] eqn:Hq.
    + destruct (keep_new_spec ms all seen Hk) as (Hk' & Hfrom & Hkeep & Hcov).
      destruct (keep_new ms all seen) as [all' seen']. simpl in *.
      destruct (IH all' seen' Hk') as (Hnd & Hfrom' & Hkeep' & Hcov').
      repeat split; [exact Hnd| | |].
      * intros m Hm. destruct (Hfrom' m Hm) as [H|(q' & ms' & Hq' & Hs & Hin)].
        -- destruct (Hfrom m H); [now left|]. right. exists q, ms. auto.
        -- right. exists q', ms'. auto.
      * intros m Hm. apply Hkeep', Hkeep, Hm.
      * intros q' ms' m [<-|Hq'] Hs Hin.
        -- rewrite Hq in Hs. injection Hs as <-.
           specialize (Hcov m Hin). apply in_map_iff in Hcov as (m' & Heq & Hm').
           apply in_map_iff. exists m'. split; [exact Heq|now apply Hkeep'].
        -- eapply Hcov'; eassumption.
    + destruct (IH all seen Hk) as (Hnd & Hfrom' & Hkeep' & Hcov').
      repeat split; [exact Hnd| |exact Hkeep'|].
      * intros m Hm. destruct (Hfrom' m Hm) as [H|(q' & ms' & Hq' & Hs & Hin)];
          [now left|]. right. exists q', ms'. auto.
      * intros q' ms' m [<-|Hq'] Hs Hin; [congruence|]. eapply Hcov'; eassumption.
Qed.

Lemma NoDup_app_l {A : Type} (l1 l2 : list A) : List.NoDup (l1 ++ l2) -> List.NoDup l1.
Proof.
  induction l1 as [|x l1 IH]; simpl; intros H; [constructor|].
  inversion H as [|? ? Hx Hl]; subst. constructor; [|now apply IH].
  intros Hin. apply Hx, in_app_iff. now left.
Qed.

(** X14. [GmailClient.getUrgentEmails] returns messages with distinct ids,
    at most [maxResults] of them when [maxResults >= 0]; each one was
    returned by one of the five queries; and a message that a query returned
    has its id in the output unless the output was cut to [maxResults].  A
    query that throws takes nothing away from the others. *)
Theorem gmail_urgent_emails_are_distinct_and_bounded E account maxResults :
  let out := GmailClient.getUrgentEmails E account maxResults in
  List.NoDup (map msg_id out)
  /\ (0 <= maxResults -> Z.of_nat (length out) <= maxResults)
  /\ (forall m, In m out ->
        exists q ms,
          In q gmail_urgent_queries
          /\ GmailClient.search E account q maxResults = Ok ms /\ In m ms)
  /\ (forall q ms m,
        In q gmail_urgent_queries ->
        GmailClient.search E account q maxResults = Ok ms -> In m ms ->
        In (msg_id m) (map msg_id out)
        \/ Z.of_nat (length out) = maxResults
        \/ maxResults < 0).
Proof.
  intros out. unfold GmailClient.getUrgentEmails in out.
  set (search := fun query => GmailClient.search E account query maxResults) in *.
  destruct (urgent_queries_spec search gmail_urgent_queries [] ∅)
    as (Hnd & Hfrom & _ & Hcov).
  { split; [constructor|]. intros id. simpl. split; [|intros []].
    intros H. now apply elem_of_empty in H. }
  fold gmail_urgent_queries in out.
  set (all := urgent_queries search gmail_urgent_queries [] ∅) in *.
  destruct (slice0_prefix all maxResults) as [rest Hrest].
  split; [|split; [|split]].
  - subst out. apply NoDup_app_l with (l2 := map msg_id rest).
    rewrite <- map_app, <- Hrest. exact Hnd.
  - apply slice0_length.
  - intros m Hm. destruct (Hfrom m) as [[]|H]; [|exact H].
    rewrite Hrest. apply in_app_iff. now left.
  - intros q ms m Hq Hs Hm.
    destruct (Z.ltb_spec maxResults 0) as [Hneg|Hpos]; [now right; right|].
    destruct (Z.leb_spec (Z.of_nat (length all)) maxResults) as [Hall|Hcut].
    + left. subst out. rewrite slice0_all by exact Hall. eapply Hcov; eassumption.
    + right. left. subst out. rewrite slice0_firstn by exact Hpos.
      rewrite length_firstn. lia.
Qed.

(* ================================================================== *)
(** * 29. The account registry *)
(* ================================================================== *)

(** [getAccountById] and the rows of the table. *)
Lemma getAccountById_Some w id a :
  EmailAccountService.getAccountById w id = Some a -> In a (accounts w) /\ acc_id a = id.
Proof.
  unfold EmailAccountService.getAccountById. intros H. apply find_some in H as [Hin Hid].
  split; [exact Hin|]. now apply Z.eqb_eq in Hid.
Qed.

Lemma getAccountById_None w id :
  EmailAccountService.getAccountById w id = None <->
  forall a, In a (accounts w) -> acc_id a <> id.
Proof.
  unfold EmailAccountService.getAccountById. split.
  - intros H a Hin Heq. eapply find_none in H; [|exact Hin].
    simpl in H. apply Z.eqb_neq in H. contradiction.
  - intros H. destruct (find _ _) as [a|] eqn:Hf; [|reflexivity].
    apply find_some in Hf as [Hin Hid]. apply Z.eqb_eq in Hid. now apply H in Hin.
Qed.

Lemma find_by_id_unique (l : list EmailAccount) (a : EmailAccount) :
  List.NoDup (map acc_id l) -> In a l ->
  find (fun x => acc_id x =? acc_id a) l = Some a.
Proof.
  induction l as [|x l IH]; simpl; intros Hnd Hin; [destruct Hin|].
  inversion Hnd as [|? ? Hx Hl]; subst.
  destruct Hin as [->|Hin]; [now rewrite Z.eqb_refl|].
  destruct (acc_id x =? acc_id a) eqn:Heq; [|now apply IH].
  apply Z.eqb_eq in Heq. exfalso. apply Hx. rewrite Heq. now apply in_map.
Qed.

Lemma getAccountById_In w a :
  List.NoDup (map acc_id (accounts w)) -> In a (accounts w) ->
  EmailAccountService.getAccountById w (acc_id a) = Some a.
Proof. apply find_by_id_unique. Qed.

(** Rewriting the rows of one id. *)
Lemma find_map_at (f : EmailAccount -> EmailAccount) (id id' : Z) (l : list EmailAccount) :
  (forall a, acc_id (f a) = acc_id a) ->
  find (fun a => acc_id a =? id')
       (map (fun a => if acc_id a =? id then f a else a) l)
  = if id' =? id
    then option_map f (find (fun a => acc_id a =? id') l)
    else find (fun a => acc_id a =? id') l.
Proof.
  intros Hf. induction l as [|x l IH]; simpl; [now destruct (id' =? id)|].
  destruct (acc_id x =? id) eqn:Hx.
  - rewrite Hf. apply Z.eqb_eq in Hx. rewrite Hx.
    destruct (id' =? id) eqn:Hi.
    + apply Z.eqb_eq in Hi. subst id'. rewrite Z.eqb_refl. reflexivity.
    + rewrite Z.eqb_sym, Hi. rewrite IH. reflexivity.
  - destruct (acc_id x =? id') eqn:Hx'.
    + apply Z.eqb_eq in Hx'. subst id'. rewrite Hx. reflexivity.
    + rewrite IH. reflexivity.
Qed.

Lemma map_at_ids (f : EmailAccount -> EmailAccount) (id : Z) (l : list EmailAccount) :
  (forall a, acc_id (f a) = acc_id a) ->
  map acc_id (map (fun a => if acc_id a =? id then f a else a) l) = map acc_id l.
Proof.
  intros Hf. rewrite map_map. apply map_ext. intros a.
  destruct (acc_id a =? id); [apply Hf|reflexivity].
Qed.

Lemma map_at_names (f : EmailAccount -> EmailAccount) (id : Z) (l : list EmailAccount) :
  (forall a, acc_accountName (f a) = acc_accountName a) ->
  map acc_accountName (map (fun a => if acc_id a =? id then f a else a) l)
  = map acc_accountName l.
Proof.
  intros Hf. rewrite map_map. apply map_ext. intros a.
  destruct (acc_id a =? id); [apply Hf|reflexivity].
Qed.

Lemma map_at_In (f : EmailAccount -> EmailAccount) (id : Z) (l : list EmailAccount) a :
  In a (map (fun a => if acc_id a =? id then f a else a) l) ->
  exists a0, In a0 l /\ (a = a0 \/ a = f a0).
Proof.
  intros H. apply in_map_iff in H as (a0 & Heq & Hin). exists a0. split; [exact Hin|].
  destruct (acc_id a0 =? id); [now right|now left].
Qed.

Lemma map_at_absent (f : EmailAccount -> EmailAccount) (id : Z) (l : list EmailAccount) :
  (forall a, In a l -> acc_id a <> id) ->
  map (fun a => if acc_id a =? id then f a else a) l = l.
Proof.
  intros H. induction l as [|x l IH]; simpl; [reflexivity|].
  rewrite IH by (intros a Ha; apply H; now right).
  destruct (acc_id x =? id) eqn:Hx; [|reflexivity].
  apply Z.eqb_eq in Hx. exfalso. apply (H x); [now left|exact Hx].
Qed.

(** Renaming the row of one id to a name no other row holds keeps the
    names distinct. *)
Lemma rename_keeps_names_distinct (f : EmailAccount -> EmailAccount) (id : Z) (n : string)
    (l : list EmailAccount) :
  (forall a, acc_accountName (f a) = n) ->
  List.NoDup (map acc_id l) ->
  List.NoDup (map acc_accountName l) ->
  (forall a, In a l -> acc_id a <> id -> acc_accountName a <> n) ->
  List.NoDup (map acc_accountName (map (fun a => if acc_id a =? id then f a else a) l)).
Proof.
  intros Hf. induction l as [|x l IH]; simpl; intros Hid Hname Hfree; [constructor|].
  inversion Hid as [|? ? Hx Hl]; subst. inversion Hname as [|? ? Hnx Hnl]; subst.
  destruct (acc_id x =? id) eqn:Hxid.
  - apply Z.eqb_eq in Hxid.
    assert (Habs : forall a, In a l -> acc_id a <> id).
    { intros a Ha Heq. apply Hx. rewrite Hxid, <- Heq. now apply in_map. }
    rewrite map_at_absent by exact Habs. constructor; [|exact Hnl].
    rewrite Hf. intros Hin. apply in_map_iff in Hin as (a & Hn & Ha).
    apply (Hfree a); [now right|now apply Habs|exact Hn].
  - apply Z.eqb_neq in Hxid. constructor.
    + intros Hin. apply in_map_iff in Hin as (a & Hn & Ha).
      apply map_at_In in Ha as (a0 & Ha0 & [->| ->]).
      * apply Hnx. rewrite <- Hn. now apply in_map.
      * rewrite Hf in Hn. apply (Hfree x); [now left|exact Hxid|now symmetry].
    + apply IH; try assumption. intros a Ha. apply Hfree. now right.
Qed.

(** Each operation keeps [registry_ok]. *)
Lemma registry_ok_map_at (f : EmailAccount -> EmailAccount) (id : Z) (w : World) :
  (forall a, acc_id (f a) = acc_id a) ->
  (forall a, acc_accountName (f a) = acc_accountName a) ->
  (forall a, acc_provider (f a) = acc_provider a) ->
  registry_ok w ->
  registry_ok (with_accounts (map (fun a => if acc_id a =? id then f a else a) (accounts w)) w).
Proof.
  intros Hid Hname Hprov (Hi & Hn & Hs & Hr & Hp & Hk).
  unfold registry_ok, with_accounts. simpl.
  rewrite map_at_ids by exact Hid. rewrite map_at_names by exact Hname.
  repeat split; try assumption.
  - apply map_at_In in H as (a0 & Ha0 & [->| ->]); [|rewrite Hid]; now apply Hr.
  - apply map_at_In in H as (a0 & Ha0 & [->| ->]); [|rewrite Hid]; now apply Hr.
  - intros a Ha. apply map_at_In in Ha as (a0 & Ha0 & [->| ->]); [|rewrite Hprov];
      now apply Hp.
  - intros k row Hrow. destruct (Hk k row Hrow) as (a & Ha & Hak).
    exists (if acc_id a =? id then f a else a). split.
    + apply in_map_iff. exists a. split; [reflexivity|exact Ha].
    + destruct (acc_id a =? id); [rewrite Hid|]; exact Hak.
Qed.

Lemma registry_ok_addAccount config w :
  registry_ok w -> registry_ok (snd (EmailAccountService.addAccount config w)).
Proof.
  intros Hok. unfold EmailAccountService.addAccount, EmailAccountService.insert_row.
  destruct (negb _) eqn:Hprov; [exact Hok|].
  destruct (existsb _ _) eqn:Hname; [exact Hok|].
  cbn [snd]. destruct Hok as (Hi & Hn & Hs & Hr & Hp & Hk).
  unfold registry_ok. cbn [accounts account_seq search_results map].
  split; [|split; [|split; [|split; [|split]]]].
  - constructor; [|exact Hi]. cbn [EmailAccountService.new_row acc_id].
    intros Hin. apply in_map_iff in Hin as (a & Ha & Hin). apply Hr in Hin. lia.
  - constructor; [|exact Hn]. cbn [EmailAccountService.new_row acc_accountName].
    intros Hin. apply in_map_iff in Hin as (a & Ha & Hin).
    assert (existsb (fun a => String.eqb (acc_accountName a) (cfg_accountName config))
              (accounts w) = true); [|congruence].
    apply existsb_exists. exists a. split; [exact Hin|]. now apply String.eqb_eq.
  - lia.
  - intros a [<-|Ha]; [simpl; lia|]. apply Hr in Ha. lia.
  - intros a [<-|Ha]; [|now apply Hp]. simpl.
    apply negb_false_iff, orb_true_iff in Hprov as [H|H]; apply String.eqb_eq in H; auto.
  - intros k row Hrow. destruct (Hk k row Hrow) as (a & Ha & Hak).
    exists a. split; [now right|exact Hak].
Qed.

Lemma registry_ok_updateAccount id updates w :
  registry_ok w -> registry_ok (snd (EmailAccountService.updateAccount id updates w)).
Proof.
  intros Hok. unfold EmailAccountService.updateAccount.
  destruct (EmailAccountService.getAccountById w id) as [account|] eqn:Hget; [|exact Hok].
  set (rename := truthy_str (upd_accountName updates) && _).
  destruct rename eqn:Hrename; cbn [andb].
  - destruct (existsb _ _) eqn:Htaken; [exact Hok|]. cbn [snd].
    destruct Hok as (Hi & Hn & Hs & Hr & Hp & Hk).
    unfold registry_ok, with_accounts. cbn [accounts account_seq search_results].
    rewrite map_at_ids by reflexivity.
    split; [exact Hi|]. split.
    { apply rename_keeps_names_distinct
        with (n := default (acc_accountName account) (upd_accountName updates));
        try assumption.
      - intros a. simpl.
        apply getAccountById_Some in Hget as [Hin Hid].
        destruct (upd_accountName updates); [reflexivity|discriminate].
      - intros a Ha Hne Heq.
        assert (existsb (fun a => negb (acc_id a =? id)
                                  && String.eqb (acc_accountName a)
                                       (default "" (upd_accountName updates)))
                  (accounts w) = true); [|congruence].
        apply existsb_exists. exists a. split; [exact Ha|].
        apply andb_true_iff. split; [now apply negb_true_iff, Z.eqb_neq|].
        apply String.eqb_eq. rewrite Heq.
        destruct (upd_accountName updates); [reflexivity|discriminate]. }
    split; [exact Hs|]. split; [|split].
    + intros a Ha. apply map_at_In in Ha as (a0 & Ha0 & [->| ->]); exact (Hr a0 Ha0).
    + intros a Ha. apply map_at_In in Ha as (a0 & Ha0 & [->| ->]); exact (Hp a0 Ha0).
    + intros k row Hrow. destruct (Hk k row Hrow) as (a & Ha & Hak).
      exists (if acc_id a =? id then apply_updates true updates a else a). split.
      * apply in_map_iff. exists a. split; [reflexivity|exact Ha].
      * destruct (acc_id a =? id); exact Hak.
  - cbn [snd]. apply registry_ok_map_at; try reflexivity. exact Hok.
Qed.

Lemma registry_ok_deleteAccount id w :
  registry_ok w -> registry_ok (snd (EmailAccountService.deleteAccount id w)).
Proof.
  intros Hok. unfold EmailAccountService.deleteAccount.
  destruct (existsb _ _); [|exact Hok]. cbn [snd].
  destruct Hok as (Hi & Hn & Hs & Hr & Hp & Hk).
  unfold registry_ok. cbn [accounts account_seq search_results].
  split; [|split; [|split; [|split; [|split]]]].
  - clear -Hi. induction (accounts w) as [|x l IH]; simpl; [constructor|].
    inversion Hi as [|? ? Hx Hl]; subst.
    destruct (negb (acc_id x =? id)); simpl; [|now apply IH].
    constructor; [|now apply IH]. intros Hin. apply Hx.
    apply in_map_iff in Hin as (a & Ha & Hin). apply filter_In in Hin as [Hin _].
    rewrite <- Ha. now apply in_map.
  - clear -Hn. induction (accounts w) as [|x l IH]; simpl; [constructor|].
    inversion Hn as [|? ? Hx Hl]; subst.
    destruct (negb (acc_id x =? id)); simpl; [|now apply IH].
    constructor; [|now apply IH]. intros Hin. apply Hx.
    apply in_map_iff in Hin as (a & Ha & Hin). apply filter_In in Hin as [Hin _].
    rewrite <- Ha. now apply in_map.
  - exact Hs.
  - intros a Ha. apply filter_In in Ha as [Ha _]. now apply Hr.
  - intros a Ha. apply filter_In in Ha as [Ha _]. now apply Hp.
  - intros k row Hrow. apply map_lookup_filter_Some in Hrow as [Hrow Hne]. simpl in Hne.
    destruct (Hk k row Hrow) as (a & Ha & Hak). exists a. split; [|exact Hak].
    apply filter_In. split; [exact Ha|]. apply negb_true_iff, Z.eqb_neq. congruence.
Qed.

Lemma registry_ok_set_active id b w :
  registry_ok w ->
  registry_ok (with_accounts
                 (map (fun a => if acc_id a =? id then set_isActive b a else a) (accounts w)) w).
Proof. apply registry_ok_map_at; reflexivity. Qed.

(** The accounts a search resolves are stored accounts. *)
Lemma accountsToSearch_incl criteria w a :
  In a (EmailSearchService.accountsToSearch criteria w) -> In a (accounts w).
Proof.
  unfold EmailSearchService.accountsToSearch.
  destruct (sc_accounts criteria) as [ids|].
  - intros H. apply list_elem_of_In, list_elem_of_omap in H as (id & _ & Hget).
    now apply getAccountById_Some in Hget.
  - unfold EmailAccountService.listActiveAccounts. intros H.
    now apply filter_In in H.
Qed.

Lemma registry_ok_searchEmails E criteria w :
  registry_ok w -> registry_ok (snd (EmailSearchService.searchEmails E criteria w)).
Proof.
  intros Hok.
  destruct (EmailSearchService.accountsToSearch criteria w) as [|a0 accts0] eqn:Haccts.
  { unfold EmailSearchService.searchEmails. rewrite Haccts. exact Hok. }
  assert (Hne : EmailSearchService.accountsToSearch criteria w <> [])
    by (rewrite Haccts; discriminate).
  clear Haccts. rewrite (searchEmails_returns E criteria w Hne). cbv zeta. cbn [snd].
  set (st := EmailSearchService.search_loop E (sc_query criteria)
               (default 50 (sc_maxResults criteria))
               (EmailSearchService.accountsToSearch criteria w) w).
  destruct (search_loop_cache E (sc_query criteria) (default 50 (sc_maxResults criteria))
              (EmailSearchService.accountsToSearch criteria w) w)
    as (_ & Hacc & Hseq & _ & Hframe).
  destruct (search_loop_invariant E (sc_query criteria)
              (default 50 (sc_maxResults criteria))
              (EmailSearchService.accountsToSearch criteria w) w) as (_ & _ & Hfrom).
  fold st in Hacc, Hseq, Hframe, Hfrom.
  destruct Hok as (Hi & Hn & Hs & Hr & Hp & Hk).
  unfold registry_ok. rewrite Hacc, Hseq. repeat split; try assumption.
  1,2: now apply Hr.
  intros k row Hrow.
  destruct (decide (k ∈ map result_key (allResults st))) as [Hin|Hnin].
  - apply list_elem_of_In, in_map_iff in Hin as (r & Hkey & Hr').
    destruct (Hfrom r Hr') as (am & Ham & Hcl).
    exists (fst am). split.
    + eapply accountsToSearch_incl, fanout_account, Ham.
    + rewrite <- Hkey, (classified_from_key E am r Hcl). reflexivity.
  - rewrite Hframe in Hrow; [now apply Hk in Hrow|].
    intros r Hr' Heq. apply Hnin, list_elem_of_In, in_map_iff. eauto.
Qed.

Lemma registry_ok_getUrgentAndImportantEmails E maxResults w :
  registry_ok w ->
  registry_ok (snd (EmailSearchService.getUrgentAndImportantEmails E maxResults w)).
Proof.
  intros Hok. unfold EmailSearchService.getUrgentAndImportantEmails.
  destruct (length (EmailAccountService.listActiveAccounts w) =? 0)%nat; [exact Hok|].
  cbn [snd].
  destruct (fold_urgent_account_invariant E w maxResults
              (EmailAccountService.listActiveAccounts w)
              {| urgentEmails := []; importantEmails := []; useen := ∅; uworld := w |})
    as (_ & _ & _ & _ & _ & Hacc & Hseq & Hres).
  { unfold bucket_invariant. simpl.
    repeat split; try constructor. intros r [[]|[]]. }
  unfold registry_ok. rewrite Hacc, Hseq, Hres. exact Hok.
Qed.

(** X15. The operations keep the two tables well formed.  From a state in
    which the ids are distinct, positive and at most the rowid sequence, the
    friendly names are distinct, every provider is [gmail] or [imap], and
    every cache row belongs to a stored account, each of [addAccount],
    [updateAccount], [deleteAccount], [disableAccount], [enableAccount],
    [searchEmails] and [getUrgentAndImportantEmails] leads to such a state,
    whether it returns or throws. *)
Theorem registry_stays_well_formed (E : Env) (w : World) :
  registry_ok w ->
  (forall config, registry_ok (snd (EmailAccountService.addAccount config w)))
  /\ (forall id updates, registry_ok (snd (EmailAccountService.updateAccount id updates w)))
  /\ (forall id, registry_ok (snd (EmailAccountService.deleteAccount id w)))
  /\ (forall id, registry_ok (snd (EmailAccountService.disableAccount id w)))
  /\ (forall id, registry_ok (snd (EmailAccountService.enableAccount id w)))
  /\ (forall criteria, registry_ok (snd (EmailSearchService.searchEmails E criteria w)))
  /\ (forall maxResults,
        registry_ok (snd (EmailSearchService.getUrgentAndImportantEmails E maxResults w))).
Proof.
  intros Hok.
  split; [|split; [|split; [|split; [|split; [|split]]]]]; intros.
  - now apply registry_ok_addAccount.
  - now apply registry_ok_updateAccount.
  - now apply registry_ok_deleteAccount.
  - now apply registry_ok_set_active.
  - now apply registry_ok_set_active.
  - now apply registry_ok_searchEmails.
  - now apply registry_ok_getUrgentAndImportantEmails.
Qed.

(** The empty database is well formed. *)
Lemma registry_ok_empty : registry_ok empty_world.
Proof.
  unfold registry_ok, empty_world. simpl.
  split; [constructor|]. split; [constructor|]. split; [lia|].
  split; [intros a []|]. split; [intros a []|].
  intros k row Hrow. now rewrite lookup_empty in Hrow.
Qed.

(** The first account added to the empty database. *)
Lemma registry_stays_well_formed_witness :
  let E := example_env (fun _ => Ok []) 0 in
  let config := {| cfg_accountName := "Work"; cfg_email := "me@example.com";
                   cfg_provider := "gmail";
                   cfg_providerConfig := GmailConfig "token" None;
                   cfg_defaultMailbox := None; cfg_includeSent := None;
                   cfg_includeArchived := None; cfg_autoDetectPriority := None;
                   cfg_customUrgentKeywords := None;
                   cfg_customImportantKeywords := None |} in
  registry_ok empty_world
  /\ registry_ok (snd (EmailAccountService.addAccount config empty_world))
  /\ map acc_id (accounts (snd (EmailAccountService.addAccount config empty_world))) = [1].
Proof.
  intros E config. split; [exact registry_ok_empty|]. split; [|reflexivity].
  apply (registry_stays_well_formed E empty_world registry_ok_empty).
Defined.

(** [getAccountById] after the DELETE. *)
Lemma find_filter_other (id id' : Z) (l : list EmailAccount) :
  id' <> id ->
  find (fun a => acc_id a =? id') (List.filter (fun a => negb (acc_id a =? id)) l)
  = find (fun a => acc_id a =? id') l.
Proof.
  intros Hne. induction l as [|x l IH]; simpl; [reflexivity|].
  destruct (acc_id x =? id) eqn:Hx; simpl.
  - apply Z.eqb_eq in Hx. rewrite IH.
    destruct (acc_id x =? id') eqn:Hx'; [|reflexivity].
    apply Z.eqb_eq in Hx'. congruence.
  - rewrite IH. reflexivity.
Qed.

Lemma find_filter_same (id : Z) (l : list EmailAccount) :
  find (fun a => acc_id a =? id) (List.filter (fun a => negb (acc_id a =? id)) l) = None.
Proof.
  induction l as [|x l IH]; simpl; [reflexivity|].
  destruct (acc_id x =? id) eqn:Hx; simpl; [exact IH|]. now rewrite Hx.
Qed.

(** [deleteAccount] on an id that is stored, and on one that is not. *)
Lemma deleteAccount_found id w account :
  EmailAccountService.getAccountById w id = Some account ->
  EmailAccountService.deleteAccount id w
  = (true,
     {| accounts := List.filter (fun a => negb (acc_id a =? id)) (accounts w);
        account_seq := account_seq w;
        search_results := filter (fun kv => fst (fst kv) <> id) (search_results w);
        client_calls := client_calls w;
        ticks := ticks w |}).
Proof.
  intros Hget. unfold EmailAccountService.deleteAccount.
  apply getAccountById_Some in Hget as [Hin Hid].
  assert (existsb (fun a => acc_id a =? id) (accounts w) = true) as ->; [|reflexivity].
  apply existsb_exists. exists account. split; [exact Hin|now apply Z.eqb_eq].
Qed.

Lemma deleteAccount_missing id w :
  EmailAccountService.getAccountById w id = None ->
  EmailAccountService.deleteAccount id w = (false, w).
Proof.
  intros Hget. unfold EmailAccountService.deleteAccount.
  destruct (existsb _ _) eqn:Hex; [|reflexivity].
  apply existsb_exists in Hex as (a & Hin & Hid). apply Z.eqb_eq in Hid.
  rewrite getAccountById_None in Hget. now apply Hget in Hin.
Qed.

(** X16. Removing a stored account through [remove_email_account]
    succeeds; afterwards the id is not found, no cache row of that account
    is left, the other accounts and the cache rows of the other accounts are
    as before, and the rowid sequence has not moved. *)
Theorem removing_an_account_removes_its_cached_results params w id account :
  ap_accountId params = Some id ->
  id <> 0 ->
  EmailAccountService.getAccountById w id = Some account ->
  exists response w',
    Handlers.removeEmailAccount params w = (Ok response, w')
    /\ rr_success response = true
    /\ EmailAccountService.getAccountById w' id = None
    /\ (forall id', id' <> id ->
          EmailAccountService.getAccountById w' id' = EmailAccountService.getAccountById w id')
    /\ (forall k, fst k = id -> search_results w' !! k = None)
    /\ (forall k, fst k <> id -> search_results w' !! k = search_results w !! k)
    /\ (forall a, In a (EmailAccountService.listAllAccounts w') <->
                  In a (EmailAccountService.listAllAccounts w) /\ acc_id a <> id)
    /\ account_seq w' = account_seq w.
Proof.
  intros Hid Hnz Hget. unfold Handlers.removeEmailAccount.
  rewrite Hid. cbn [truthy_num]. simpl (default _ _).
  apply Z.eqb_neq in Hnz. rewrite Hnz. cbn [negb]. rewrite Hget.
  rewrite (deleteAccount_found id w account Hget). cbn [negb].
  do 2 eexists. split; [reflexivity|]. cbn [rr_success].
  unfold EmailAccountService.getAccountById, EmailAccountService.listAllAccounts.
  cbn [accounts search_results account_seq].
  split; [reflexivity|]. split; [apply find_filter_same|].
  split; [intros id' Hne; now apply find_filter_other|].
  split.
  { intros k Hk. apply map_lookup_filter_None. right. intros row _ Hne.
    simpl in Hne. contradiction. }
  split.
  { intros k Hk. destruct (search_results w !! k) as [row|] eqn:Hrow.
    - apply map_lookup_filter_Some. split; [exact Hrow|exact Hk].
    - apply map_lookup_filter_None. now left. }
  split; [|reflexivity].
  intros a. rewrite filter_In, negb_true_iff, Z.eqb_neq. reflexivity.
Qed.

(** Two accounts with one cached result each; the first one is removed. *)
Lemma removing_an_account_removes_its_cached_results_witness :
  let E := example_env (fun _ => Ok [example_message "m1" "Urgent: reply today" 0 false])
             (2 * day) in
  let w0 := example_world [example_account 2 "Home" "gmail" [];
                           example_account 1 "Work" "gmail" []] in
  let criteria := {| sc_query := "is:unread"; sc_accounts := None; sc_mailboxes := None;
                     sc_maxResults := Some 5; sc_minUrgencyScore := None;
                     sc_minImportanceScore := None |} in
  let w := snd (EmailSearchService.searchEmails E criteria w0) in
  search_results w !! (1, "m1"%string) <> None
  /\ search_results w !! (2, "m1"%string) <> None
  /\ exists response w',
       Handlers.removeEmailAccount {| ap_accountId := Some 1 |} w = (Ok response, w')
       /\ search_results w' !! (1, "m1"%string) = None
       /\ search_results w' !! (2, "m1"%string) = search_results w !! (2, "m1"%string)
       /\ map acc_id (EmailAccountService.listAllAccounts w') = [2].
Proof.
  intros E w0 criteria w.
  split; [vm_compute; discriminate|]. split; [vm_compute; discriminate|].
  destruct (removing_an_account_removes_its_cached_results
              {| ap_accountId := Some 1 |} w 1 (example_account 1 "Work" "gmail" []))
    as (response & w' & Hrun & _ & _ & _ & Hgone & Hkept & _);
    [reflexivity|lia|reflexivity|].
  exists response, w'. split; [exact Hrun|].
  split; [now apply Hgone|]. split; [now apply Hkept|].
  clear Hgone Hkept. vm_compute in Hrun. injection Hrun as _ <-. reflexivity.
Defined.

(** The name of a deleted account is free. *)
Lemma name_free_after_delete id w account :
  List.NoDup (map acc_id (accounts w)) ->
  List.NoDup (map acc_accountName (accounts w)) ->
  EmailAccountService.getAccountById w id = Some account ->
  name_taken (acc_accountName account) (snd (EmailAccountService.deleteAccount id w)) = false.
Proof.
  intros Hi Hn Hget. rewrite (deleteAccount_found id w account Hget). cbn [snd].
  unfold name_taken. cbn [accounts].
  apply getAccountById_Some in Hget as [Hin Hid].
  destruct (existsb _ _) eqn:Hex; [|reflexivity]. exfalso.
  apply existsb_exists in Hex as (a & Ha & Hname).
  apply filter_In in Ha as [Ha Hne]. apply String.eqb_eq in Hname.
  apply negb_true_iff, Z.eqb_neq in Hne. apply Hne. rewrite <- Hid.
  clear -Hn Hin Ha Hname.
  induction (accounts w) as [|x l IH]; [destruct Hin|].
  simpl in Hn. inversion Hn as [|? ? Hx Hl]; subst.
  destruct Hin as [->|Hin], Ha as [->|Ha]; try reflexivity.
  - exfalso. apply Hx. rewrite <- Hname. now apply in_map.
  - exfalso. apply Hx. rewrite Hname. now apply in_map.
  - now apply IH.
Qed.

(** X17. After an account is deleted, its friendly name can be registered
    again, and the account that takes it gets a new id: one more than the
    rowid sequence, above the id of every account stored before, and
    different from the id that was deleted, which stays unknown. *)
Theorem removed_id_is_never_given_again w id account config :
  registry_ok w ->
  EmailAccountService.getAccountById w id = Some account ->
  cfg_accountName config = acc_accountName account ->
  String.eqb (cfg_provider config) "gmail" || String.eqb (cfg_provider config) "imap" = true ->
  exists added w',
    EmailAccountService.addAccount config (snd (EmailAccountService.deleteAccount id w))
    = (Ok (Some added), w')
    /\ acc_accountName added = acc_accountName account
    /\ acc_id added = account_seq w + 1
    /\ acc_id added <> id
    /\ (forall a, In a (accounts w) -> acc_id a < acc_id added)
    /\ EmailAccountService.getAccountById w' id = None.
Proof.
  intros (Hi & Hn & Hs & Hr & Hp & Hk) Hget Hname Hprov.
  pose proof (name_free_after_delete id w account Hi Hn Hget) as Hfree.
  rewrite <- Hname in Hfree.
  rewrite (insert_row_fresh config _ Hprov Hfree).
  rewrite (deleteAccount_found id w account Hget) in *. cbn [snd account_seq accounts].
  do 2 eexists. split; [reflexivity|].
  cbn [EmailAccountService.new_row acc_accountName acc_id].
  pose proof (getAccountById_Some w id account Hget) as [Hin Hid].
  pose proof (Hr account Hin) as Hrange.
  split; [exact Hname|]. split; [reflexivity|]. split; [lia|].
  split; [intros a Ha; apply Hr in Ha; lia|].
  unfold EmailAccountService.getAccountById.
  cbn [accounts find acc_id EmailAccountService.new_row].
  destruct (account_seq w + 1 =? id) eqn:Heq; [apply Z.eqb_eq in Heq; lia|].
  apply find_filter_same.
Qed.

(** The example registry of one account is well formed. *)
Lemma registry_ok_example_one :
  registry_ok (example_world [example_account 1 "Work" "gmail" []]).
Proof.
  unfold registry_ok, example_world. simpl.
  split; [repeat constructor; intros []|]. split; [repeat constructor; intros []|].
  split; [lia|]. split; [intros a [<-|[]]; simpl; lia|].
  split; [intros a [<-|[]]; now left|].
  intros k row Hrow. now rewrite lookup_empty in Hrow.
Qed.

(** The only account is deleted and its name registered again. *)
Lemma removed_id_is_never_given_again_witness :
  let w := example_world [example_account 1 "Work" "gmail" []] in
  let config := {| cfg_accountName := "Work"; cfg_email := "me@example.com";
                   cfg_provider := "imap";
                   cfg_providerConfig :=
                     ImapConfig (Some "mail.example.com"%string) (Some 993)
                       (Some "me"%string) (Some "secret"%string) true;
                   cfg_defaultMailbox := None; cfg_includeSent := None;
                   cfg_includeArchived := None; cfg_autoDetectPriority := None;
                   cfg_customUrgentKeywords := None;
                   cfg_customImportantKeywords := None |} in
  exists added w',
    EmailAccountService.addAccount config (snd (EmailAccountService.deleteAccount 1 w))
    = (Ok (Some added), w')
    /\ acc_accountName added = "Work"%string
    /\ acc_id added = 2.
Proof.
  intros w config.
  destruct (removed_id_is_never_given_again w 1 (example_account 1 "Work" "gmail" []) config)
    as (added & w' & Hrun & Hname & Hid & _);
    [exact registry_ok_example_one|reflexivity|reflexivity|reflexivity|].
  exists added, w'. split; [exact Hrun|]. split; [exact Hname|exact Hid].
Defined.

(** [updateAccount] on a stored id, without a conflict of names. *)
Lemma updateAccount_found id updates w account :
  EmailAccountService.getAccountById w id = Some account ->
  let rename :=
    truthy_str (upd_accountName updates)
    && negb (String.eqb (default "" (upd_accountName updates)) (acc_accountName account)) in
  (rename
   && existsb (fun a => negb (acc_id a =? id)
                        && String.eqb (acc_accountName a)
                             (default "" (upd_accountName updates))) (accounts w)) = false ->
  exists w',
    EmailAccountService.updateAccount id updates w
    = (Ok (Some (apply_updates rename updates account)), w')
    /\ EmailAccountService.getAccountById w' id = Some (apply_updates rename updates account)
    /\ (forall id', id' <> id ->
          EmailAccountService.getAccountById w' id' = EmailAccountService.getAccountById w id')
    /\ account_seq w' = account_seq w
    /\ search_results w' = search_results w.
Proof.
  intros Hget rename Hfree. unfold EmailAccountService.updateAccount.
  rewrite Hget. fold rename. rewrite Hfree.
  assert (Hfind : forall id',
             EmailAccountService.getAccountById
               (with_accounts
                  (map (fun a => if acc_id a =? id then apply_updates rename updates a else a)
                     (accounts w)) w) id'
             = if id' =? id
               then option_map (apply_updates rename updates)
                      (EmailAccountService.getAccountById w id')
               else EmailAccountService.getAccountById w id').
  { intros id'. unfold EmailAccountService.getAccountById, with_accounts. cbn [accounts].
    apply find_map_at. reflexivity. }
  eexists. split; [|split; [|split; [|split]]].
  - rewrite Hfind, Z.eqb_refl, Hget. reflexivity.
  - rewrite Hfind, Z.eqb_refl, Hget. reflexivity.
  - intros id' Hne. rewrite Hfind. apply Z.eqb_neq in Hne. now rewrite Hne.
  - reflexivity.
  - reflexivity.
Qed.



Lemma set_isActive_same (a : EmailAccount) : set_isActive (acc_isActive a) a = a.
Proof. now destruct a. Qed.

(** [getAccountById] after the UPDATE of [is_active]. *)
Lemma set_active_found id b w account :
  EmailAccountService.getAccountById w id = Some account ->
  EmailAccountService.getAccountById
    (with_accounts
       (map (fun a => if acc_id a =? id then set_isActive b a else a) (accounts w)) w) id
  = Some (set_isActive b account).
Proof.
  intros Hget. unfold EmailAccountService.getAccountById, with_accounts. cbn [accounts].
  rewrite find_map_at by reflexivity. rewrite Z.eqb_refl.
  unfold EmailAccountService.getAccountById in Hget. now rewrite Hget.
Qed.

(** X19. Disabling a stored account clears its active flag and nothing
    else.  The account leaves the active accounts, which are otherwise as
    before, so a search without an account list no longer reaches it; a
    search that lists its id still resolves it.  The cache is untouched, and
    enabling an account that was active before it was disabled restores the
    rows of the table. *)
Theorem disabled_account_is_searched_only_when_listed id w account :
  registry_ok w ->
  EmailAccountService.getAccountById w id = Some account ->
  let w' := snd (EmailAccountService.disableAccount id w) in
  fst (EmailAccountService.disableAccount id w) = Some (set_isActive false account)
  /\ (forall a, In a (EmailAccountService.listActiveAccounts w') <->
                In a (EmailAccountService.listActiveAccounts w) /\ acc_id a <> id)
  /\ (forall query maxResults minU minI mailboxes,
        EmailSearchService.accountsToSearch
          {| sc_query := query; sc_accounts := Some [id]; sc_mailboxes := mailboxes;
             sc_maxResults := maxResults; sc_minUrgencyScore := minU;
             sc_minImportanceScore := minI |} w'
        = [set_isActive false account])
  /\ search_results w' = search_results w
  /\ (acc_isActive account = true ->
      fst (EmailAccountService.enableAccount id w') = Some account
      /\ accounts (snd (EmailAccountService.enableAccount id w')) = accounts w).
Proof.
  intros (Hi & _) Hget w'. unfold EmailAccountService.disableAccount in *.
  cbn [fst snd] in *. subst w'.
  pose proof (getAccountById_Some w id account Hget) as [Hin Hid].
  split; [now apply set_active_found|].
  split.
  { intros a. unfold EmailAccountService.listActiveAccounts, with_accounts. cbn [accounts].
    rewrite !filter_In. split.
    - intros [Ha Hact]. apply in_map_iff in Ha as (a0 & Heq & Ha0).
      destruct (acc_id a0 =? id) eqn:H0; subst a; [discriminate|].
      apply Z.eqb_neq in H0. repeat split; assumption.
    - intros [[Ha Hact] Hne]. split; [|exact Hact].
      apply in_map_iff. exists a. split; [|exact Ha].
      apply Z.eqb_neq in Hne. now rewrite Hne. }
  split.
  { intros. unfold EmailSearchService.accountsToSearch.
    cbn [sc_accounts omap list_omap].
    now rewrite (set_active_found id false w account Hget). }
  split; [reflexivity|].
  intros Hact. unfold EmailAccountService.enableAccount. cbn [fst snd].
  assert (Hback :
            map (fun a => if acc_id a =? id then set_isActive true a else a)
              (map (fun a => if acc_id a =? id then set_isActive false a else a) (accounts w))
            = accounts w).
  { rewrite map_map. rewrite <- (map_id (accounts w)) at 2. apply map_ext_in.
    intros a Ha. destruct (acc_id a =? id) eqn:Ha_id.
    - cbn [set_isActive acc_id]. rewrite Ha_id.
      apply Z.eqb_eq in Ha_id.
      assert (a = account) as ->.
      { rewrite <- Ha_id in Hget. rewrite (getAccountById_In w a Hi Ha) in Hget.
        congruence. }
      rewrite <- Hact at 1. destruct account; reflexivity.
    - now rewrite Ha_id. }
  unfold EmailAccountService.getAccountById, with_accounts. cbn [accounts].
  rewrite Hback. split; [exact Hget|reflexivity].
Qed.

(** The only account is disabled, listed in a search, and enabled again. *)
Lemma disabled_account_is_searched_only_when_listed_witness :
  let w := example_world [example_account 1 "Work" "gmail" []] in
  let w' := snd (EmailAccountService.disableAccount 1 w) in
  EmailAccountService.listActiveAccounts w' = []
  /\ map acc_id
       (EmailSearchService.accountsToSearch
          {| sc_query := "is:unread"; sc_accounts := Some [1]; sc_mailboxes := None;
             sc_maxResults := None; sc_minUrgencyScore := None;
             sc_minImportanceScore := None |} w') = [1]
  /\ accounts (snd (EmailAccountService.enableAccount 1 w')) = accounts w.
Proof.
  intros w w'.
  destruct (disabled_account_is_searched_only_when_listed 1 w
              (example_account 1 "Work" "gmail" []) registry_ok_example_one eq_refl)
    as (_ & _ & Hlisted & _ & Hback).
  split; [reflexivity|]. split.
  - subst w'. rewrite Hlisted. reflexivity.
  - now apply Hback.
Defined.

(** X20. [update_email_account] on a stored account always succeeds.  The
    mailbox is replaced when one is provided and not empty; a keyword list
    is replaced when one is provided, an empty one included, and after an
    empty list was stored [classifyEmail] uses the default keywords of that
    kind again.  Name, e-mail address, provider and active flag stay. *)
Theorem updateEmailAccount_replaces_keyword_lists params w id account :
  upp_accountId params = Some id ->
  id <> 0 ->
  EmailAccountService.getAccountById w id = Some account ->
  exists response w' updated,
    Handlers.updateEmailAccount params w = (Ok response, w')
    /\ EmailAccountService.getAccountById w' id = Some updated
    /\ upr_accountId response = id
    /\ upr_accountName response = acc_accountName account
    /\ upr_defaultMailbox response = acc_defaultMailbox updated
    /\ acc_defaultMailbox updated
       = str_or (upp_defaultMailbox params) (acc_defaultMailbox account)
    /\ acc_customUrgentKeywords updated
       = default (acc_customUrgentKeywords account) (upp_customUrgentKeywords params)
    /\ acc_customImportantKeywords updated
       = default (acc_customImportantKeywords account) (upp_customImportantKeywords params)
    /\ (upp_customUrgentKeywords params = Some [] ->
        urgentKeywords updated = DEFAULT_URGENT_KEYWORDS)
    /\ (upp_customImportantKeywords params = Some [] ->
        importantKeywords updated = DEFAULT_IMPORTANT_KEYWORDS)
    /\ (forall kw kws, upp_customUrgentKeywords params = Some (kw :: kws) ->
                       urgentKeywords updated = kw :: kws)
    /\ (forall kw kws, upp_customImportantKeywords params = Some (kw :: kws) ->
                       importantKeywords updated = kw :: kws)
    /\ acc_email updated = acc_email account
    /\ acc_provider updated = acc_provider account
    /\ acc_isActive updated = acc_isActive account.
Proof.
  intros Hid Hnz Hget. unfold Handlers.updateEmailAccount.
  rewrite Hid. cbn [truthy_num]. simpl (default _ _).
  apply Z.eqb_neq in Hnz. rewrite Hnz. cbn [negb]. rewrite Hget.
  destruct (updateAccount_found id (Handlers.account_updates params) w account Hget)
    as (w' & Hrun & Hget' & _); [reflexivity|].
  rewrite Hrun. cbn [Handlers.account_updates upd_accountName truthy_str andb] in *.
  do 3 eexists. split; [reflexivity|]. split; [exact Hget'|].
  cbn [upr_accountId upr_accountName upr_defaultMailbox apply_updates
       acc_id acc_accountName acc_defaultMailbox acc_customUrgentKeywords
       acc_customImportantKeywords acc_email acc_provider acc_isActive
       upd_defaultMailbox upd_customUrgentKeywords upd_customImportantKeywords].
  apply getAccountById_Some in Hget as [_ Hacc].
  split; [exact Hacc|]. split; [reflexivity|]. split; [reflexivity|].
  split.
  { cbn [Handlers.account_updates upd_defaultMailbox]. unfold str_or, truthy_str.
    destruct (upp_defaultMailbox params) as [m|]; [|reflexivity].
    destruct (String.eqb m "") eqn:Hm; cbn [negb]; [reflexivity|now rewrite Hm]. }
  split; [reflexivity|]. split; [reflexivity|].
  unfold urgentKeywords, importantKeywords.
  cbn [acc_customUrgentKeywords acc_customImportantKeywords Handlers.account_updates
       upd_customUrgentKeywords upd_customImportantKeywords].
  cbn [apply_updates acc_customUrgentKeywords acc_customImportantKeywords
       Handlers.account_updates upd_customUrgentKeywords upd_customImportantKeywords].
  repeat split.
  - now intros ->.
  - now intros ->.
  - now intros kw kws ->.
  - now intros kw kws ->.
Qed.

(** An empty mailbox name is ignored and an empty urgent list brings the
    default keywords back. *)
Lemma updateEmailAccount_replaces_keyword_lists_witness :
  let w := example_world [example_account 1 "Work" "gmail" ["invoice"%string]] in
  let params := {| upp_accountId := Some 1; upp_defaultMailbox := Some ""%string;
                   upp_customUrgentKeywords := Some [];
                   upp_customImportantKeywords := None |} in
  exists response w' updated,
    Handlers.updateEmailAccount params w = (Ok response, w')
    /\ EmailAccountService.getAccountById w' 1 = Some updated
    /\ urgentKeywords updated = DEFAULT_URGENT_KEYWORDS
    /\ upr_defaultMailbox response = "INBOX"%string.
Proof.
  intros w params.
  destruct (updateEmailAccount_replaces_keyword_lists params w 1
              (example_account 1 "Work" "gmail" ["invoice"%string]))
    as (response & w' & updated & Hrun & Hget & _ & _ & Hbox & Hbox' & _ & _ & Hdef & _);
    [reflexivity|lia|reflexivity|].
  exists response, w', updated. split; [exact Hrun|]. split; [exact Hget|].
  split; [now apply Hdef|]. rewrite Hbox, Hbox'. reflexivity.
Defined.


(* ================================================================== *)
(** * 30. The calls of a search *)
(* ================================================================== *)

(** A filter that every element passes. *)
Lemma filter_all {A : Type} (f : A -> bool) (l : list A) :
  (forall x, In x l -> f x = true) -> List.filter f l = l.
Proof.
  induction l as [|x l IH]; simpl; intros H; [reflexivity|].
  rewrite (H x) by now left. rewrite IH; [reflexivity|]. intros y Hy. apply H. now right.
Qed.

(** The factory has a client for every account of a well-formed registry. *)
Lemma stored_accounts_have_a_client w a :
  registry_ok w -> In a (accounts w) -> has_client a = true.
Proof.
  intros (_ & _ & _ & _ & Hp & _) Ha. unfold has_client, EmailClientFactory.createClient.
  destruct (Hp a Ha) as [-> | ->]; reflexivity.
Qed.

(** X22. [searchEmails] calls the client of each resolved account that has
    one exactly once, in the order of the accounts, with the query of the
    request and twice [maxResults] as limit, whether or not the call throws.
    In a well-formed registry every resolved account has a client. *)
Theorem searchEmails_asks_each_account_once E criteria w :
  client_calls (snd (EmailSearchService.searchEmails E criteria w))
  = client_calls w
    ++ map (fun a => CallSearch (acc_id a) (sc_query criteria)
                       (default 50 (sc_maxResults criteria) * 2))
         (List.filter has_client (EmailSearchService.accountsToSearch criteria w))
  /\ (registry_ok w ->
      List.filter has_client (EmailSearchService.accountsToSearch criteria w)
      = EmailSearchService.accountsToSearch criteria w).
Proof.
  split.
  - destruct (EmailSearchService.accountsToSearch criteria w) as [|a0 accts0] eqn:Haccts.
    + unfold EmailSearchService.searchEmails. rewrite Haccts. simpl. now rewrite app_nil_r.
    + assert (Hne : EmailSearchService.accountsToSearch criteria w <> [])
        by (rewrite Haccts; discriminate).
      rewrite <- Haccts. clear Haccts.
      rewrite (searchEmails_returns E criteria w Hne). cbv zeta. cbn [snd].
      unfold EmailSearchService.search_loop. now rewrite search_loop_calls.
  - intros Hok. apply filter_all. intros a Ha.
    eapply stored_accounts_have_a_client; [exact Hok|].
    eapply accountsToSearch_incl, Ha.
Qed.

(* ================================================================== *)
(** * 31. A stored account and its client *)
(* ================================================================== *)

(** X23. An account stored through [add_email_account] is ready for its
    client: it is found under the id of the response, which is one more than
    the rowid sequence; it is active, so the next search without an account
    list reaches it; the factory has a client for it; its mailbox is the one
    of the request, or INBOX when none (or an empty one) was given, and is
    not empty; an IMAP account passes [validateConnection]; and a Gmail
    account holds a refresh token that is not empty. *)
Theorem added_account_is_ready_for_its_client params w response w' :
  Handlers.addEmailAccount params w = (Ok response, w') ->
  exists account,
    EmailAccountService.getAccountById w' (aar_accountId response) = Some account
    /\ aar_accountId response = account_seq w + 1
    /\ In account (EmailAccountService.listActiveAccounts w')
    /\ has_client account = true
    /\ acc_defaultMailbox account = str_or (p_defaultMailbox params) "INBOX"
    /\ acc_defaultMailbox account <> ""%string
    /\ (acc_provider account = "imap"%string ->
        ImapClient.validateConnection account = true)
    /\ (acc_provider account = "gmail"%string ->
        exists token,
          acc_providerConfig account = GmailConfig token None /\ token <> ""%string).
Proof.
  unfold Handlers.addEmailAccount.
  destruct (negb (truthy_str (p_accountName params)) || negb (truthy_str (p_email params))
            || negb (truthy_str (p_provider params))); [discriminate|].
  assert (Hbox : str_or (p_defaultMailbox params) "INBOX" <> ""%string).
  { unfold str_or. destruct (p_defaultMailbox params) as [m|]; [|discriminate].
    destruct (String.eqb m "") eqn:Hm; [discriminate|]. now apply String.eqb_neq. }
  destruct (String.eqb (default "" (p_provider params)) "gmail") eqn:Hg.
  - cbn [andb]. destruct (truthy_str (p_refreshToken params)) eqn:Htoken; [|discriminate].
    cbn [negb].
    assert (Hi : String.eqb (default "" (p_provider params)) "imap" = false).
    { apply String.eqb_eq in Hg. now rewrite Hg. }
    rewrite Hi. cbn [andb].
    unfold EmailAccountService.addAccount, EmailAccountService.insert_row.
    cbn [cfg_provider cfg_accountName]. rewrite Hg. cbn [orb negb].
    destruct (existsb _ (accounts w)); [simpl; discriminate|].
    unfold EmailAccountService.getAccountById. cbn [accounts find acc_id
      EmailAccountService.new_row]. rewrite Z.eqb_refl.
    intros [= <- <-]. eexists. split.
    { cbn [aar_accountId acc_id accounts find]. rewrite Z.eqb_refl. reflexivity. }
    unfold EmailAccountService.listActiveAccounts, has_client,
      EmailClientFactory.createClient.
    cbn [aar_accountId accounts acc_id List.filter acc_isActive acc_provider
         acc_defaultMailbox acc_providerConfig cfg_provider cfg_defaultMailbox
         cfg_providerConfig EmailAccountService.new_row].
    rewrite Hg.
    split; [reflexivity|]. split; [now left|]. split; [reflexivity|].
    split; [reflexivity|]. split; [exact Hbox|].
    split.
    { intros Himap. apply String.eqb_eq in Hg. rewrite Hg in Himap. discriminate. }
    intros _. eexists. split; [reflexivity|].
    destruct (p_refreshToken params) as [t|]; [|discriminate]. simpl in *.
    apply negb_true_iff in Htoken. now apply String.eqb_neq.
  - cbn [andb].
    destruct (String.eqb (default "" (p_provider params)) "imap") eqn:Hi.
    + cbn [andb].
      destruct (truthy_str (p_host params)) eqn:Hhost; [|discriminate].
      destruct (truthy_num (p_port params)) eqn:Hport; [|discriminate].
      destruct (truthy_str (p_username params)) eqn:Huser; [|discriminate].
      destruct (truthy_str (p_password params)) eqn:Hpw; [|discriminate].
      cbn [negb orb].
      unfold EmailAccountService.addAccount, EmailAccountService.insert_row.
      cbn [cfg_provider cfg_accountName]. rewrite Hg, Hi. cbn [orb negb].
      destruct (existsb _ (accounts w)); [simpl; discriminate|].
      unfold EmailAccountService.getAccountById. cbn [accounts find acc_id
        EmailAccountService.new_row]. rewrite Z.eqb_refl.
      intros [= <- <-]. eexists. split.
      { cbn [aar_accountId acc_id accounts find]. rewrite Z.eqb_refl. reflexivity. }
      unfold EmailAccountService.listActiveAccounts, has_client,
        EmailClientFactory.createClient, ImapClient.validateConnection.
      cbn [aar_accountId accounts acc_id List.filter acc_isActive acc_provider
           acc_defaultMailbox acc_providerConfig cfg_provider cfg_defaultMailbox
           cfg_providerConfig EmailAccountService.new_row].
      rewrite Hg, Hi, Hhost, Hport, Huser, Hpw.
      split; [reflexivity|]. split; [now left|]. split; [reflexivity|].
      split; [reflexivity|]. split; [exact Hbox|].
      split; [reflexivity|].
      intros Hgm. apply String.eqb_eq in Hi. rewrite Hi in Hgm. discriminate.
    + cbn [andb].
      unfold EmailAccountService.addAccount, EmailAccountService.insert_row.
      cbn [cfg_provider cfg_accountName]. rewrite Hg, Hi. cbn [orb negb].
      simpl. discriminate.
Qed.

(** The first account of a database, an IMAP account without a mailbox. *)
Lemma added_account_is_ready_for_its_client_witness :
  let params := {| p_accountName := Some "Home"%string;
                   p_email := Some "me@example.com"%string;
                   p_provider := Some "imap"%string; p_refreshToken := None;
                   p_host := Some "mail.example.com"%string; p_port := Some 993;
                   p_username := Some "me"%string; p_password := Some "secret"%string;
                   p_defaultMailbox := None; p_customUrgentKeywords := None;
                   p_customImportantKeywords := None |} in
  exists response w' account,
    Handlers.addEmailAccount params empty_world = (Ok response, w')
    /\ EmailAccountService.getAccountById w' 1 = Some account
    /\ ImapClient.validateConnection account = true
    /\ acc_defaultMailbox account = "INBOX"%string.
Proof.
  intros params.
  assert (Hrun : exists response w',
             Handlers.addEmailAccount params empty_world = (Ok response, w')
             /\ aar_accountId response = 1).
  { vm_compute. do 2 eexists. split; reflexivity. }
  destruct Hrun as (response & w' & Hrun & Hid).
  destruct (added_account_is_ready_for_its_client params empty_world response w' Hrun)
    as (account & Hget & _ & _ & _ & Hbox & _ & Himap & _).
  exists response, w', account. rewrite Hid in Hget.
  split; [exact Hrun|]. split; [exact Hget|]. split; [|exact Hbox].
  apply Himap. clear -Hrun Hget. vm_compute in Hrun. injection Hrun as _ <-.
  vm_compute in Hget. injection Hget as <-. reflexivity.
Defined.
